(** * RAG-pdf-search-BE: the retrieval pipeline, embedded and verified

    A shallow embedding of the retrieval core of the PDF search back end:
    the fixed-window chunkers ([chunkTextWithOverlap],
    [enhancedChunkTextWithOverlap]), the storing of a document
    ([extractPDFText], [storePDFInWeaviate]) with its page-number
    computation, the searches of utility.js ([generateEmbedding],
    [enhanceQuery], [searchPDFContent], [searchPDFContentAdvanced]) and
    their fusion step ([fuseSearchResults]), the ranker and diversifier
    ([ResultRanker]), query expansion ([QueryRefiner]), answer synthesis
    ([DocumentSynthesizer]), the enhanced search that composes them
    ([enhancedSearchPDFContent]), and the sentence chunker of
    semantic-chunking.js ([chunkBySentences], [calculateCoherence]).

    Modelling conventions.
    - A JavaScript number is a [number]: [NaN], the two infinities, or a
      finite value carried as an exact rational.  Division by zero, the
      empty [Math.max] and the arithmetic of [NaN] follow IEEE 754;
      rounding and the sign of zero are not modelled (no divisor in the
      embedded code can be a negative zero).
    - Character offsets and sizes are integers ([Z]).
    - A JavaScript string is a [string] of 8-bit characters; the character
      classes [\s], [\d], [\w] and [toLowerCase] are the ASCII ones.
    - A [Map] is an association list in insertion order.
    - An [async] function is a function of the collaborator it awaits and
      yields an [outcome]: a returned value, or a thrown exception.
    - A function that writes (the copy of an upload, the batch import)
      yields the list of its calls, in order, beside its outcome; the
      clock is a function of the number of the reading.
    - A [while] or [for] loop whose bound is not structural takes fuel
      and yields [None] when it runs out; each such loop is proved to
      return with the fuel its caller gives. *)

From Stdlib Require Import ZArith QArith Qround List String Ascii Bool.
From Stdlib Require Import Lia Lqa Permutation Sorted DecimalString.
Import ListNotations.

Local Open Scope string_scope.
Local Open Scope list_scope.
Local Open Scope Z_scope.

(** ** JavaScript numbers *)

Inductive number : Type :=
| NaN
| NegInf
| PosInf
| Fin (q : Q).

Definition ofZ (z : Z) : number := Fin (inject_Z z).
Definition ofNat (n : nat) : number := ofZ (Z.of_nat n).

Definition Qsgn (q : Q) : comparison := (q ?= 0)%Q.

Definition Qltb (a b : Q) : bool :=
  match (a ?= b)%Q with Lt => true | _ => false end.

Definition infOfSign (c : comparison) : number :=
  match c with Lt => NegInf | Eq => NaN | Gt => PosInf end.

Definition neg (x : number) : number :=
  match x with
  | NaN => NaN
  | NegInf => PosInf
  | PosInf => NegInf
  | Fin q => Fin (- q)
  end.

Definition add (x y : number) : number :=
  match x, y with
  | NaN, _ | _, NaN => NaN
  | PosInf, NegInf | NegInf, PosInf => NaN
  | PosInf, _ | _, PosInf => PosInf
  | NegInf, _ | _, NegInf => NegInf
  | Fin a, Fin b => Fin (a + b)
  end.

Definition sub (x y : number) : number := add x (neg y).

Definition mul (x y : number) : number :=
  match x, y with
  | NaN, _ | _, NaN => NaN
  | Fin a, Fin b => Fin (a * b)
  | PosInf, Fin b | Fin b, PosInf => infOfSign (Qsgn b)
  | NegInf, Fin b | Fin b, NegInf => infOfSign (CompOpp (Qsgn b))
  | PosInf, PosInf | NegInf, NegInf => PosInf
  | PosInf, NegInf | NegInf, PosInf => NegInf
  end.

(** [x / y]; a zero divisor is the positive zero. *)
Definition div (x y : number) : number :=
  match x, y with
  | NaN, _ | _, NaN => NaN
  | Fin a, Fin b =>
      match Qsgn b with
      | Eq => infOfSign (Qsgn a)
      | _ => Fin (a / b)
      end
  | Fin _, _ => Fin 0
  | PosInf, Fin b => match Qsgn b with Lt => NegInf | _ => PosInf end
  | NegInf, Fin b => match Qsgn b with Lt => PosInf | _ => NegInf end
  | _, _ => NaN
  end.

(** [x < y]: false as soon as one side is [NaN]. *)
Definition ltb (x y : number) : bool :=
  match x, y with
  | NaN, _ | _, NaN => false
  | NegInf, NegInf => false
  | NegInf, _ => true
  | _, NegInf => false
  | PosInf, _ => false
  | Fin _, PosInf => true
  | Fin a, Fin b => Qltb a b
  end.

(** [x > y]. *)
Definition gtb (x y : number) : bool := ltb y x.

(** [Math.max(a, b)] and [Math.min(a, b)]. *)
Definition max2 (x y : number) : number :=
  match x, y with
  | NaN, _ | _, NaN => NaN
  | _, _ => if ltb x y then y else x
  end.

Definition min2 (x y : number) : number :=
  match x, y with
  | NaN, _ | _, NaN => NaN
  | _, _ => if ltb y x then y else x
  end.

(** [Math.max(...xs)]: [-Infinity] on no argument. *)
Definition Math_max (xs : list number) : number := fold_left max2 xs NegInf.

(** Truthiness of a number: [NaN] and zero are falsy. *)
Definition truthy (x : number) : bool :=
  match x with
  | NaN => false
  | Fin q => negb (Qeq_bool q 0)
  | _ => true
  end.

(** [o || d] for a numeric property [o] that may be absent. *)
Definition orElse (o : option number) (d : number) : number :=
  match o with
  | Some v => if truthy v then v else d
  | None => d
  end.

(** Numeric equality [x === y] as a proposition. *)
Definition numEq (x y : number) : Prop :=
  match x, y with
  | NegInf, NegInf | PosInf, PosInf => True
  | Fin a, Fin b => (a == b)%Q
  | _, _ => False
  end.

(** ** JavaScript strings *)

Definition chars (s : string) : list ascii := list_ascii_of_string s.
Definition str (l : list ascii) : string := string_of_list_ascii l.

Definition code (c : ascii) : nat := nat_of_ascii c.

Definition inRange (lo hi n : nat) : bool := (Nat.leb lo n && Nat.leb n hi)%bool.

(** [\s]: space, and tab to carriage return. *)
Definition isSpace (c : ascii) : bool :=
  (Nat.eqb (code c) 32 || inRange 9 13 (code c))%bool.

(** [\d]. *)
Definition isDigit (c : ascii) : bool := inRange 48 57 (code c).

(** [\w]: letters, digits and the underscore. *)
Definition isWordChar (c : ascii) : bool :=
  (isDigit c || inRange 65 90 (code c) || inRange 97 122 (code c)
   || Nat.eqb (code c) 95)%bool.

Definition toLowerChar (c : ascii) : ascii :=
  if inRange 65 90 (code c) then ascii_of_nat (code c + 32) else c.

Definition toLowerCase (s : string) : string := str (map toLowerChar (chars s)).

Fixpoint dropWhile {A} (p : A -> bool) (l : list A) : list A :=
  match l with
  | [] => []
  | x :: l' => if p x then dropWhile p l' else l
  end.

Fixpoint takeWhile {A} (p : A -> bool) (l : list A) : list A :=
  match l with
  | [] => []
  | x :: l' => if p x then x :: takeWhile p l' else []
  end.

(** [s.trim()]. *)
Definition trim (s : string) : string :=
  str (rev (dropWhile isSpace (rev (dropWhile isSpace (chars s))))).

(** [s.includes(sub)]. *)
Fixpoint includes (s sub : string) : bool :=
  (prefix sub s ||
   match s with
   | EmptyString => false
   | String _ s' => includes s' sub
   end)%bool.

(** [s.split(/\s+/)]: [cur] is the piece being read, reversed; [afterSep]
    tells that the previous character was white space. *)
Fixpoint splitWsFrom (s cur : list ascii) (afterSep : bool) : list string :=
  match s with
  | [] => [str (rev cur)]
  | c :: s' =>
      if isSpace c then
        if afterSep then splitWsFrom s' cur true
        else str (rev cur) :: splitWsFrom s' [] true
      else splitWsFrom s' (c :: cur) false
  end.

Definition splitWs (s : string) : list string := splitWsFrom (chars s) [] false.

(** [s.split('\n')]. *)
Fixpoint splitLinesFrom (s cur : list ascii) : list string :=
  match s with
  | [] => [str (rev cur)]
  | c :: s' =>
      if Nat.eqb (code c) 10 then str (rev cur) :: splitLinesFrom s' []
      else splitLinesFrom s' (c :: cur)
  end.

Definition splitLines (s : string) : list string := splitLinesFrom (chars s) [].

(** [s.match(/\b\w+\b/g) || []]: the maximal runs of word characters. *)
Fixpoint wordRunsFrom (s cur : list ascii) : list string :=
  match s with
  | [] => match cur with [] => [] | _ => [str (rev cur)] end
  | c :: s' =>
      if isWordChar c then wordRunsFrom s' (c :: cur)
      else match cur with
           | [] => wordRunsFrom s' []
           | _ => str (rev cur) :: wordRunsFrom s' []
           end
  end.

Definition wordRuns (s : string) : list string := wordRunsFrom (chars s) [].

(** [s.replace(/^\d+\.\s*/, '')]. *)
Definition stripNumbering (s : string) : string :=
  match takeWhile isDigit (chars s), dropWhile isDigit (chars s) with
  | _ :: _, c :: rest =>
      if Nat.eqb (code c) 46 then str (dropWhile isSpace rest) else s
  | _, _ => s
  end.

Definition strlen (s : string) : Z := Z.of_nat (String.length s).

(** An index argument of [slice], relative to the end when negative. *)
Definition relIndex (len i : Z) : Z :=
  if i <? 0 then Z.max (len + i) 0 else Z.min i len.

(** [s.slice(from, to)]. *)
Definition slice (s : string) (from to : Z) : string :=
  let a := relIndex (strlen s) from in
  let b := relIndex (strlen s) to in
  substring (Z.to_nat a) (Z.to_nat (b - a)) s.

(** [s[i]]: absent out of range. *)
Definition charAt (s : string) (i : Z) : option ascii :=
  if i <? 0 then None else String.get (Z.to_nat i) s.

(** [s.lastIndexOf(pat, from)]. *)
Fixpoint lastIndexOfDown (s pat : string) (k : nat) : Z :=
  if prefix pat (substring k (String.length s - k) s) then Z.of_nat k
  else match k with
       | O => -1
       | S k' => lastIndexOfDown s pat k'
       end.

Definition lastIndexOf (s pat : string) (from : Z) : Z :=
  if strlen s <? strlen pat then -1
  else lastIndexOfDown s pat
         (Z.to_nat (Z.min (Z.max from 0) (strlen s - strlen pat))).

(** [z] printed in a template string. *)
Definition showZ (z : Z) : string := NilZero.string_of_int (Z.to_int z).

(** ** Segmenter: the fixed-window chunkers *)

(** A chunk as [chunkTextWithOverlap] pushes it: [{ text, start, end }]. *)
Record Chunk : Type := mkChunk {
  chunk_text : string;
  chunk_start : Z;
  chunk_end : Z
}.

(** [sentenceEnds.includes(text[i])] for ['.', '!', '?', '\n']. *)
Definition isSentenceEnd (o : option ascii) : bool :=
  match o with
  | Some c =>
      (Nat.eqb (code c) 46 || Nat.eqb (code c) 33 || Nat.eqb (code c) 63
       || Nat.eqb (code c) 10)%bool
  | None => false
  end.

(** The scan [for (let i = end; i > start + maxChunkSize * 0.5; i--)],
    entered at [i]; it yields [bestBreak], [-1] when no terminator is met.
    The bound is kept doubled, [bound2 = 2 * start + maxChunkSize], so that
    the half of an odd size needs no fraction.  [None]: out of fuel. *)
Fixpoint scanBack (fuel : nat) (text : string) (bound2 i : Z) : option Z :=
  if 2 * i >? bound2 then
    if isSentenceEnd (charAt text i) then Some (i + 1)
    else match fuel with
         | O => None
         | S fuel' => scanBack fuel' text bound2 (i - 1)
         end
  else Some (-1).

(** The end of the window opened at [start]. *)
Definition windowEnd (text : string) (maxChunkSize start : Z) : option Z :=
  let end_ := Z.min (start + maxChunkSize) (strlen text) in
  if end_ <? strlen text then
    match scanBack (Z.to_nat end_) text (2 * start + maxChunkSize) end_ with
    | Some bestBreak => Some (if bestBreak >? -1 then bestBreak else end_)
    | None => None
    end
  else Some end_.

(** [start = Math.max(start + 1, end - overlap)]. *)
Definition nextStart (start end_ overlap : Z) : Z :=
  Z.max (start + 1) (end_ - overlap).

(** The minimum meaningful length of the test [chunkText.length > 50]. *)
Definition minMeaningful : Z := 50.

Definition meaningful (chunkText : string) : bool :=
  strlen chunkText >? minMeaningful.

(** The [while (start < text.length)] loop, with the chunks pushed so far. *)
Fixpoint chunkLoop (fuel : nat) (text : string) (maxChunkSize overlap : Z)
    (start : Z) (chunks : list Chunk) : option (list Chunk) :=
  match fuel with
  | O => None
  | S fuel' =>
      if start <? strlen text then
        match windowEnd text maxChunkSize start with
        | None => None
        | Some end_ =>
            let chunkText := trim (slice text start end_) in
            let chunks' :=
              if meaningful chunkText
              then chunks ++ [mkChunk chunkText start end_]
              else chunks in
            let start' := nextStart start end_ overlap in
            if start' >=? strlen text then Some chunks'
            else chunkLoop fuel' text maxChunkSize overlap start' chunks'
        end
      else Some chunks
  end.

(** [chunkTextWithOverlap(text, maxChunkSize, overlap)]; the two copies of
    the function differ in the default of [overlap] only. *)
Definition chunkTextWithOverlap (text : string) (maxChunkSize overlap : Z)
  : option (list Chunk) :=
  chunkLoop (S (String.length text)) text maxChunkSize overlap 0 [].

(** The windows the loop visits from [start] on, as [(start, end)]. *)
Fixpoint windowsFrom (fuel : nat) (text : string) (maxChunkSize overlap : Z)
    (start : Z) : list (Z * Z) :=
  match fuel with
  | O => []
  | S fuel' =>
      if start <? strlen text then
        match windowEnd text maxChunkSize start with
        | None => []
        | Some end_ =>
            (start, end_) ::
            windowsFrom fuel' text maxChunkSize overlap
              (nextStart start end_ overlap)
        end
      else []
  end.

Definition windows (text : string) (maxChunkSize overlap : Z) : list (Z * Z) :=
  windowsFrom (S (String.length text)) text maxChunkSize overlap 0.

(** The trimmed text of a window. *)
Definition windowText (text : string) (w : Z * Z) : string :=
  trim (slice text (fst w) (snd w)).

(** [pageNumber: Math.floor((chunk.start / text.length) * numPages) + 1] of
    [storePDFInWeaviate]. *)
Definition pageNumber (chunkStart textLength numPages : Z) : Z :=
  Qfloor ((inject_Z chunkStart / inject_Z textLength) * inject_Z numPages) + 1.

Section Enhanced.

(** The metadata closures of [enhancedChunkTextWithOverlap]; the window
    logic does not look into them. *)
Variable extractKeywords : string -> list string.
Variable calculateImportance : string -> number.

Record EnhancedChunk : Type := mkEnhancedChunk {
  e_text : string;
  e_start : Z;
  e_end : Z;
  e_keywords : list string;
  e_importance : number;
  e_wordCount : Z;
  e_summary : string
}.

Definition newline : string := String (ascii_of_nat 10) EmptyString.

Definition breakPoints : list string :=
  [(newline ++ newline)%string; ". "; "! "; "? "; newline].

(** [for (const breakPoint of breakPoints)]: the first break point whose
    last occurrence at or before [end] lies beyond half a window. *)
Fixpoint bestBreakOf (bps : list string) (text : string)
    (bound2 end_ : Z) : Z :=
  match bps with
  | [] => -1
  | breakPoint :: bps' =>
      let breakIndex := lastIndexOf text breakPoint end_ in
      if 2 * breakIndex >? bound2 then breakIndex + strlen breakPoint
      else bestBreakOf bps' text bound2 end_
  end.

Definition enhancedWindowEnd (text : string) (maxChunkSize start : Z) : Z :=
  let end_ := Z.min (start + maxChunkSize) (strlen text) in
  if end_ <? strlen text then
    let bestBreak :=
      bestBreakOf breakPoints text (2 * start + maxChunkSize) end_ in
    if bestBreak >? -1 then bestBreak else end_
  else end_.

Definition describe (chunkText : string) (start end_ : Z) : EnhancedChunk :=
  mkEnhancedChunk chunkText start end_
    (extractKeywords chunkText)
    (calculateImportance chunkText)
    (Z.of_nat (List.length (splitWs chunkText)))
    (if strlen chunkText >? 200
     then (substring 0 200 chunkText ++ "...")%string
     else chunkText).

Fixpoint enhancedLoop (fuel : nat) (text : string) (maxChunkSize overlap : Z)
    (start : Z) (chunks : list EnhancedChunk) : option (list EnhancedChunk) :=
  match fuel with
  | O => None
  | S fuel' =>
      if start <? strlen text then
        let end_ := enhancedWindowEnd text maxChunkSize start in
        let chunkText := trim (slice text start end_) in
        let chunks' :=
          if meaningful chunkText
          then chunks ++ [describe chunkText start end_]
          else chunks in
        let start' := nextStart start end_ overlap in
        if start' >=? strlen text then Some chunks'
        else enhancedLoop fuel' text maxChunkSize overlap start' chunks'
      else Some chunks
  end.

Definition enhancedChunkTextWithOverlap (text : string)
    (maxChunkSize overlap : Z) : option (list EnhancedChunk) :=
  enhancedLoop (S (String.length text)) text maxChunkSize overlap 0 [].

Fixpoint enhancedWindowsFrom (fuel : nat) (text : string)
    (maxChunkSize overlap : Z) (start : Z) : list (Z * Z) :=
  match fuel with
  | O => []
  | S fuel' =>
      if start <? strlen text then
        let end_ := enhancedWindowEnd text maxChunkSize start in
        (start, end_) ::
        enhancedWindowsFrom fuel' text maxChunkSize overlap
          (nextStart start end_ overlap)
      else []
  end.

Definition enhancedWindows (text : string) (maxChunkSize overlap : Z)
  : list (Z * Z) :=
  enhancedWindowsFrom (S (String.length text)) text maxChunkSize overlap 0.

End Enhanced.

(** ** Search results and the insertion-ordered [Map] *)

(** An object of the [PDFDocument] class as the store returns it; the
    numeric properties of [_additional] and of the enhanced schema may be
    absent. *)
Record SearchResult : Type := mkSearchResult {
  content : string;
  filename : string;
  resultPage : Z;
  chunkIndex : Z;
  importance : option number;
  wordCount : option number;
  certainty : option number;
  distance : option number;
  score : option number
}.

Definition JsMap (V : Type) : Type := list (string * V).

Fixpoint Map_has {V} (key : string) (m : JsMap V) : bool :=
  match m with
  | [] => false
  | (k, _) :: m' => (String.eqb k key || Map_has key m')%bool
  end.

(** [m.set(key, v)]: a key already present keeps its place. *)
Fixpoint Map_set {V} (key : string) (v : V) (m : JsMap V) : JsMap V :=
  match m with
  | [] => [(key, v)]
  | (k, w) :: m' =>
      if String.eqb k key then (k, v) :: m'
      else (k, w) :: Map_set key v m'
  end.

(** In-place mutation of the object stored under [key]. *)
Fixpoint Map_update {V} (key : string) (f : V -> V) (m : JsMap V) : JsMap V :=
  match m with
  | [] => []
  | (k, w) :: m' =>
      if String.eqb k key then (k, f w) :: m'
      else (k, w) :: Map_update key f m'
  end.

Definition Map_values {V} (m : JsMap V) : list V := map snd m.
Definition Map_keys {V} (m : JsMap V) : list string := map fst m.

(** [xs.forEach((x, index) => ...)], threading the state [s]. *)
Fixpoint forEach {A S} (f : S -> A -> Z -> S) (xs : list A) (index : Z) (s : S)
  : S :=
  match xs with
  | [] => s
  | x :: xs' => forEach f xs' (index + 1) (f s x index)
  end.

(** [xs.sort(cmp)]: the sort is stable; [x], met before [y], moves behind
    [y] only when [cmp(x, y) > 0] (a [NaN] from [cmp] counts as [0]). *)
Fixpoint insertBy {A} (cmp : A -> A -> number) (x : A) (l : list A) : list A :=
  match l with
  | [] => [x]
  | y :: l' => if gtb (cmp x y) (Fin 0) then y :: insertBy cmp x l' else x :: l
  end.

Definition sortBy {A} (cmp : A -> A -> number) (l : list A) : list A :=
  fold_right (insertBy cmp) [] l.

(** [xs.slice(0, limit)]. *)
Definition sliceTo {A} (xs : list A) (limit : Z) : list A :=
  firstn (Z.to_nat (relIndex (Z.of_nat (List.length xs)) limit)) xs.

(** ** Retrieval fusion: [fuseSearchResults] *)

(** A value of [resultMap]: the spread result with the fusion fields. *)
Record Fused : Type := mkFused {
  source : SearchResult;
  hybridScore : number;
  vectorScore : number;
  keywordScore : number;
  vectorRank : option Z;
  keywordRank : option Z
}.

Definition resultKey (r : SearchResult) : string :=
  (filename r ++ "_" ++ showZ (resultPage r) ++ "_" ++ showZ (chunkIndex r))%string.

Definition zero : number := Fin 0.
Definition one : number := Fin 1.

Definition maxCertaintyOf (vectorResults : list SearchResult) : number :=
  Math_max (map (fun r => orElse (certainty r) zero) vectorResults).

Definition maxBM25ScoreOf (keywordResults : list SearchResult) : number :=
  Math_max (map (fun r => orElse (score r) zero) keywordResults).

(** The body of [vectorResults.forEach]. *)
Definition addVector (vectorWeight maxCertainty : number)
    (resultMap : JsMap Fused) (result : SearchResult) (index : Z) : JsMap Fused :=
  let normalizedScore := div (orElse (certainty result) zero) maxCertainty in
  Map_set (resultKey result)
    (mkFused result (mul normalizedScore vectorWeight) normalizedScore zero
       (Some (index + 1)) None)
    resultMap.

(** The body of [keywordResults.forEach]. *)
Definition addKeyword (keywordWeight maxBM25Score : number)
    (resultMap : JsMap Fused) (result : SearchResult) (index : Z) : JsMap Fused :=
  let normalizedScore :=
    if gtb maxBM25Score zero
    then div (orElse (score result) zero) maxBM25Score
    else zero in
  let key := resultKey result in
  if Map_has key resultMap then
    Map_update key
      (fun existing =>
         mkFused (source existing)
           (add (hybridScore existing) (mul normalizedScore keywordWeight))
           (vectorScore existing) normalizedScore
           (vectorRank existing) (Some (index + 1)))
      resultMap
  else
    Map_set key
      (mkFused result (mul normalizedScore keywordWeight) zero normalizedScore
         None (Some (index + 1)))
      resultMap.

(** [resultMap] after the vector pass, and after both passes. *)
Definition vectorPass (vectorResults : list SearchResult) (vectorWeight : number)
  : JsMap Fused :=
  forEach (addVector vectorWeight (maxCertaintyOf vectorResults))
    vectorResults 0 [].

Definition resultMapOf (vectorResults keywordResults : list SearchResult)
    (vectorWeight : number) : JsMap Fused :=
  let keywordWeight := sub one vectorWeight in
  forEach (addKeyword keywordWeight (maxBM25ScoreOf keywordResults))
    keywordResults 0 (vectorPass vectorResults vectorWeight).

(** The comparator [(a, b) => b.hybridScore - a.hybridScore]. *)
Definition byHybridScore (a b : Fused) : number :=
  sub (hybridScore b) (hybridScore a).

Definition fuseSearchResults (vectorResults keywordResults : list SearchResult)
    (vectorWeight : number) (limit : Z) : list Fused :=
  sliceTo
    (sortBy byHybridScore
       (Map_values (resultMapOf vectorResults keywordResults vectorWeight)))
    limit.

(** ** Result ranker and diversifier *)

Module ResultRanker.

(** [calculateRelevanceScore(result, query, queryEmbedding)]; the third
    argument is not read. *)
Definition calculateRelevanceScore (result : SearchResult) (query : string)
  : number :=
  let score0 :=
    match distance result with
    | Some d => if truthy d then sub one d else Fin (1 # 2)
    | None => Fin (1 # 2)
    end in
  let queryWords := splitWs (toLowerCase query) in
  let contentWords := toLowerCase (content result) in
  let keywordMatches :=
    List.length (filter (fun word => includes contentWords word) queryWords) in
  let score1 :=
    add score0
      (mul (div (ofNat keywordMatches) (ofNat (List.length queryWords)))
         (Fin (3 # 10))) in
  let score2 :=
    match importance result with
    | Some i => if truthy i then add score1 (mul i (Fin (2 # 10))) else score1
    | None => score1
    end in
  let score3 :=
    if includes contentWords (toLowerCase query)
    then add score2 (Fin (3 # 10))
    else score2 in
  let wordCount :=
    orElse (wordCount result)
      (ofNat (List.length (splitWs (content result)))) in
  let score4 :=
    if (ltb wordCount (Fin 20) || gtb wordCount (Fin 500))%bool
    then mul score3 (Fin (8 # 10))
    else score3 in
  min2 score4 one.

(** [new Set(words)]: the distinct words, first occurrences kept. *)
Definition toSet (words : list string) : list string :=
  rev (nodup string_dec (rev words)).

Definition Set_has (x : string) (s : list string) : bool :=
  existsb (String.eqb x) s.

Definition calculateTextSimilarity (text1 text2 : string) : number :=
  let words1 := toSet (wordRuns (toLowerCase text1)) in
  let words2 := toSet (wordRuns (toLowerCase text2)) in
  let intersection := toSet (filter (fun x => Set_has x words2) words1) in
  let union := toSet (words1 ++ words2) in
  div (ofNat (List.length intersection)) (ofNat (List.length union)).

(** The inner [for (const selected of diversified)] with its [break];
    the value is [shouldInclude]. *)
Fixpoint shouldInclude (maxSimilarity : number) (candidate : SearchResult)
    (diversified : list SearchResult) : bool :=
  match diversified with
  | [] => true
  | selected :: diversified' =>
      let similarity :=
        calculateTextSimilarity (content candidate) (content selected) in
      if gtb similarity maxSimilarity then false
      else shouldInclude maxSimilarity candidate diversified'
  end.

(** The loop [for (let i = 1; i < results.length; i++)]. *)
Fixpoint diversifyFrom (maxSimilarity : number) (rest : list SearchResult)
    (diversified : list SearchResult) : list SearchResult :=
  match rest with
  | [] => diversified
  | candidate :: rest' =>
      diversifyFrom maxSimilarity rest'
        (if shouldInclude maxSimilarity candidate diversified
         then diversified ++ [candidate]
         else diversified)
  end.

Definition diversifyResults (results : list SearchResult)
    (maxSimilarity : number) : list SearchResult :=
  match results with
  | [] | [_] => results
  | top :: rest => diversifyFrom maxSimilarity rest [top]
  end.

(** The default [maxSimilarity = 0.8]. *)
Definition defaultMaxSimilarity : number := Fin (8 # 10).

End ResultRanker.

(** ** The text-generation collaborator *)

(** What an awaited call or an [async] function yields. *)
Inductive outcome (A : Type) : Type :=
| Return (a : A)
| Throw (error : string).
Arguments Return {A} a.
Arguments Throw {A} error.

Definition bind {A B} (c : outcome A) (k : A -> outcome B) : outcome B :=
  match c with
  | Return a => k a
  | Throw e => Throw e
  end.

(** [try { body } catch (error) { handler }]. *)
Definition tryCatch {A} (body : outcome A) (handler : string -> outcome A)
  : outcome A :=
  match body with
  | Return a => Return a
  | Throw e => handler e
  end.

(** What [completion.choices?.[0]?.message?.content] finds in the resolved
    value of [openai.chat.completions.create]. *)
Inductive ChatCompletion : Type :=
| NoCompletion            (* the value itself is null or undefined *)
| NoContent               (* a link of the optional chain is nullish *)
| Content (text : string)
| ForeignContent.         (* a content that is not a string *)

Record ChatRequest : Type := mkChatRequest {
  model : string;
  systemMessage : string;
  userMessage : string;
  temperature : Q;
  max_tokens : Z
}.

(** JavaScript values an [async] function of this file resolves to. *)
Inductive JsValue : Type :=
| JsNull
| JsUndefined
| JsString (s : string)
| JsForeign.

Definition typeError : string := "TypeError".

Definition dquote : string := String (ascii_of_nat 34) EmptyString.

(** [lines.join(sep)]. *)
Definition join (sep : string) (pieces : list string) : string :=
  String.concat sep pieces.

Definition nonEmpty (s : string) : bool :=
  match s with EmptyString => false | _ => true end.

(** ** Query expansion *)

Module QueryRefiner.

Definition variationsRequest (originalQuery : string) : ChatRequest :=
  mkChatRequest "gpt-3.5-turbo"
    "Generate 3-5 alternative phrasings of the given query to improve search results. Focus on synonyms, different perspectives, and more specific terms."
    ("Original query: " ++ dquote ++ originalQuery ++ dquote ++ newline
     ++ newline ++ "Generate alternative queries:")%string
    (7 # 10) 200.

(** [completion.choices?.[0]?.message?.content?.split('\n')
      .filter(line => line.trim())
      .map(line => line.replace(/^\d+\.\s*/, '').trim())
      .slice(0, 5) || []]. *)
Definition variationsOf (completion : ChatCompletion) : outcome (list string) :=
  match completion with
  | NoCompletion => Throw typeError
  | NoContent => Return []
  | Content text =>
      Return
        (sliceTo
           (map (fun line => trim (stripNumbering line))
              (filter (fun line => nonEmpty (trim line)) (splitLines text)))
           5)
  | ForeignContent => Throw typeError
  end.

Section Collaborator.

Variable create : ChatRequest -> outcome ChatCompletion.

Definition generateQueryVariations (originalQuery : string)
  : outcome (list string) :=
  tryCatch
    (bind (create (variationsRequest originalQuery)) (fun completion =>
     bind (variationsOf completion) (fun variations =>
     Return (originalQuery :: variations))))
    (fun _ => Return [originalQuery]).

End Collaborator.

Definition expandRequest (query : string) : ChatRequest :=
  mkChatRequest "gpt-3.5-turbo"
    "Expand the given query with related terms, synonyms, and context that might help find relevant information in documents."
    ("Expand this query with related terms: " ++ dquote ++ query ++ dquote)%string
    (5 # 10) 100.

(** [completion.choices?.[0]?.message?.content?.trim() || query]. *)
Definition expandedOf (query : string) (completion : ChatCompletion)
  : outcome string :=
  match completion with
  | NoCompletion => Throw typeError
  | NoContent => Return query
  | Content text => Return (if nonEmpty (trim text) then trim text else query)
  | ForeignContent => Throw typeError
  end.

Section Expansion.

Variable create : ChatRequest -> outcome ChatCompletion.

Definition expandQuery (query : string) : outcome string :=
  tryCatch (bind (create (expandRequest query)) (expandedOf query))
    (fun _ => Return query).

End Expansion.

End QueryRefiner.

(** ** Answer synthesis *)

Module DocumentSynthesizer.

(** [docGroups]: the results under [result.filename || 'unknown'], the
    keys in the order they first appear. *)
Definition addToGroup (docGroups : JsMap (list SearchResult))
    (result : SearchResult) : JsMap (list SearchResult) :=
  let docKey := if nonEmpty (filename result) then filename result
                else "unknown" in
  let docGroups' :=
    if Map_has docKey docGroups then docGroups
    else Map_set docKey [] docGroups in
  Map_update docKey (fun chunks => chunks ++ [result]) docGroups'.

Definition groupByDocument (results : list SearchResult)
  : JsMap (list SearchResult) :=
  fold_left addToGroup results [].

Definition excerpt (entry : string * list SearchResult) : string :=
  let '(filename, chunks) := entry in
  let content := join (newline ++ newline) (map content chunks) in
  ("Document: " ++ filename ++ newline
   ++ "Content: " ++ substring 0 1000 content ++ "...")%string.

Definition synthesisOf (results : list SearchResult) : string :=
  join (newline ++ newline ++ "---" ++ newline ++ newline)
    (map excerpt (groupByDocument results)).

Definition indent : string := "            ".

Definition systemPrompt : string :=
  join newline
    ["You are an expert document analyst. Synthesize information from multiple document excerpts to provide a comprehensive answer. ";
     indent;
     indent ++ "Rules:";
     indent ++ "1. Combine related information from different documents";
     indent ++ "2. Identify and resolve any contradictions";
     indent ++ "3. Highlight information that appears in multiple sources";
     indent ++ "4. Note when information comes from specific documents";
     indent ++ "5. If no relevant information is found, state this clearly";
     indent ++ "6. Provide citations by mentioning document names"]%string.

Definition synthesisRequest (query synthesis : string) (maxTokens : Z)
  : ChatRequest :=
  mkChatRequest "gpt-4" systemPrompt
    (join newline
       ["Query: " ++ dquote ++ query ++ dquote;
        "";
        "Multiple Document Excerpts:";
        synthesis;
        "";
        "Please provide a comprehensive synthesis that answers the query using information from all relevant documents. Include document citations where appropriate."])%string
    (3 # 10) maxTokens.

(** [completion.choices?.[0]?.message?.content]. *)
Definition contentOf (completion : ChatCompletion) : outcome JsValue :=
  match completion with
  | NoCompletion => Throw typeError
  | NoContent => Return JsUndefined
  | Content text => Return (JsString text)
  | ForeignContent => Return JsForeign
  end.

(** The default [maxTokens = 2000]. *)
Definition defaultMaxTokens : Z := 2000.

Section Collaborator.

Variable create : ChatRequest -> outcome ChatCompletion.

(** [results] is [None] when the argument is null or undefined. *)
Definition synthesizeResults (results : option (list SearchResult))
    (query : string) (maxTokens : Z) : outcome JsValue :=
  match results with
  | None | Some [] => Return JsNull
  | Some results =>
      let synthesis := synthesisOf results in
      tryCatch
        (bind (create (synthesisRequest query synthesis maxTokens))
           contentOf)
        (fun _ => Return JsNull)
  end.

End Collaborator.

End DocumentSynthesizer.

(** ** Search methods: [utility.js] *)

(** An embedding as the collaborator returns it; [None] when the
    [embedding] property is absent. *)
Definition JsEmbedding : Type := option (list number).

Record EmbeddingRequest : Type := mkEmbeddingRequest {
  embeddingModel : string;
  embeddingInput : string
}.

(** What [response.data[0].embedding] finds in the resolved value of
    [openai.embeddings.create]. *)
Inductive EmbeddingResponse : Type :=
| MalformedEmbedding                 (* [data] or [data[0]] is missing *)
| EmbeddingOf (embedding : JsEmbedding).

(** The queries sent to the store, with their field lists. *)
Inductive StoreQuery : Type :=
| HybridQuery (fields query : string) (vector : JsEmbedding) (alpha : number)
    (fusionType : string) (limit : Z)
| NearVectorQuery (fields : string) (vector : JsEmbedding) (limit : Z)
| Bm25Query (fields query : string) (properties : list string) (limit : Z)
| ListQuery (fields : string) (limit : Z).

(** What [result.data.Get.PDFDocument] finds in a resolved store call:
    [Documents None] when that last property is null or undefined. *)
Inductive StoreResponse : Type :=
| MalformedStore                     (* [data] or [data.Get] is missing *)
| Documents (docs : option (list SearchResult)).

(** [result.data.Get.PDFDocument || []]. *)
Definition documentsOf (response : StoreResponse)
  : outcome (list SearchResult) :=
  match response with
  | MalformedStore => Throw typeError
  | Documents (Some docs) => Return docs
  | Documents None => Return []
  end.

(** [result.data.Get.PDFDocument?.length || 0]. *)
Definition documentCount (response : StoreResponse) : outcome Z :=
  match response with
  | MalformedStore => Throw typeError
  | Documents (Some docs) => Return (Z.of_nat (List.length docs))
  | Documents None => Return 0
  end.

(** The bound of [text.substring(0, 8000)]. *)
Definition maxEmbeddingInput : nat := Z.to_nat 8000.

Definition fieldsHybrid : string :=
  "content filename savedFilename pageNumber chunkIndex totalPages uploadDate filePath _additional { certainty distance score }".
Definition fieldsVector : string :=
  "content filename savedFilename pageNumber chunkIndex totalPages uploadDate filePath _additional { certainty distance }".
Definition fieldsKeyword : string :=
  "content filename savedFilename pageNumber chunkIndex totalPages uploadDate filePath _additional { score }".
Definition fieldsCheck : string := "content filename".
Definition fieldsPlain : string :=
  "content filename savedFilename pageNumber chunkIndex _additional { certainty }".

Definition enhanceRequest (userQuery : string) : ChatRequest :=
  mkChatRequest "gpt-3.5-turbo"
    "You are a helpful assistant that enhances search queries for document retrieval. Transform the user query into a more specific and detailed search query that would help find relevant information in documents. Keep it concise but comprehensive."
    ("Enhance this search query for better document retrieval: "
     ++ dquote ++ userQuery ++ dquote)%string
    (3 # 10) 100.

(** [response.choices[0].message.content.trim()]: no optional chaining,
    any missing link throws. *)
Definition enhancedOf (response : ChatCompletion) : outcome string :=
  match response with
  | Content text => Return (trim text)
  | _ => Throw typeError
  end.

(** What the two branches of [getOptimalSearchParams] test. *)
Definition hasStandaloneNumber (query : string) : bool :=
  existsb (fun word => forallb isDigit (chars word)) (wordRuns query).

Definition isUpper (c : ascii) : bool := inRange 65 90 (code c).

Fixpoint hasUpperPair (s : list ascii) : bool :=
  match s with
  | a :: (b :: _) as rest => (isUpper a && isUpper b)%bool || hasUpperPair rest
  | _ => false
  end.

Record SearchParams : Type := mkSearchParams {
  alphaOf : number;
  vectorWeightOf : number
}.

(** [getOptimalSearchParams(query)]: [/\b\d+\b/], [/[A-Z]{2,}/] and the
    quote are looked for in the query as typed, the question words in its
    lower-case form. *)
Definition getOptimalSearchParams (query : string) : SearchParams :=
  let queryLower := toLowerCase query in
  if (hasStandaloneNumber query || hasUpperPair (chars query)
      || includes query dquote)%bool
  then mkSearchParams (Fin (3 # 10)) (Fin (3 # 10))
  else if (includes queryLower "what" || includes queryLower "how"
           || includes queryLower "why")%bool
  then mkSearchParams (Fin (8 # 10)) (Fin (8 # 10))
  else mkSearchParams (Fin (7 # 10)) (Fin (7 # 10)).

(** What [searchPDFContent] and [basicSearchPDFContent] return. *)
Record SearchReport : Type := mkSearchReport {
  originalQuery : string;
  enhancedQuery : string;
  reportType : option string;
  reportAlpha : option number;
  results : list SearchResult
}.

(** What [searchPDFContentAdvanced] returns. *)
Record AdvancedReport : Type := mkAdvancedReport {
  advOriginalQuery : string;
  advEnhancedQuery : string;
  advSearchType : string;
  advVectorWeight : number;
  vectorResultsCount : Z;
  keywordResultsCount : Z;
  advResults : list Fused
}.

Section SearchMethods.

(** The collaborators: text generation, embedding, and the store. *)
Variable create : ChatRequest -> outcome ChatCompletion.
Variable embed : EmbeddingRequest -> outcome EmbeddingResponse.
Variable store : StoreQuery -> outcome StoreResponse.

(** Which rejection [Promise.all] reports when both of its calls fail is
    a matter of timing. *)
Variable firstRejection : string -> string -> string.

(** [generateEmbedding(text)]. *)
Definition generateEmbedding (text : string) : outcome JsEmbedding :=
  tryCatch
    (bind (embed (mkEmbeddingRequest "text-embedding-3-small"
                    (substring 0 maxEmbeddingInput text)))
       (fun response =>
          match response with
          | MalformedEmbedding => Throw typeError
          | EmbeddingOf embedding => Return embedding
          end))
    (fun message =>
       Throw ("Embedding generation failed: " ++ message)%string).

(** [enhanceQuery(userQuery)]. *)
Definition enhanceQuery (userQuery : string) : outcome string :=
  tryCatch (bind (create (enhanceRequest userQuery)) enhancedOf)
    (fun _ => Return userQuery).

(** [searchPDFContent(query, limit, alpha)]. *)
Definition searchPDFContent (query : string) (limit : Z) (alpha : number)
  : outcome SearchReport :=
  tryCatch
    (bind (enhanceQuery query) (fun enhancedQuery =>
     bind (generateEmbedding enhancedQuery) (fun queryEmbedding =>
     bind (store (HybridQuery fieldsHybrid enhancedQuery queryEmbedding
                    alpha "rankedFusion" limit)) (fun result =>
     bind (documentsOf result) (fun docs =>
     Return (mkSearchReport query enhancedQuery (Some "hybrid")
               (Some alpha) docs))))))
    (fun message => Throw ("Hybrid search failed: " ++ message)%string).

(** [await Promise.all([a, b])]: both calls are made. *)
Definition promiseAll2 {A B} (a : outcome A) (b : outcome B) : outcome (A * B) :=
  match a, b with
  | Return x, Return y => Return (x, y)
  | Throw e, Return _ => Throw e
  | Return _, Throw e => Throw e
  | Throw e1, Throw e2 => Throw (firstRejection e1 e2)
  end.

(** [searchPDFContentAdvanced(query, limit, vectorWeight)]. *)
Definition searchPDFContentAdvanced (query : string) (limit : Z)
    (vectorWeight : number) : outcome AdvancedReport :=
  tryCatch
    (bind (enhanceQuery query) (fun enhancedQuery =>
     bind (generateEmbedding enhancedQuery) (fun queryEmbedding =>
     bind (promiseAll2
             (store (NearVectorQuery fieldsVector queryEmbedding (limit * 2)))
             (store (Bm25Query fieldsKeyword enhancedQuery
                       ["content"; "filename"] (limit * 2))))
       (fun '(vectorResults, keywordResults) =>
     bind (documentsOf vectorResults) (fun vectorDocs =>
     bind (documentsOf keywordResults) (fun keywordDocs =>
     bind (documentCount vectorResults) (fun vectorCount =>
     bind (documentCount keywordResults) (fun keywordCount =>
     Return (mkAdvancedReport query enhancedQuery "advanced_hybrid"
               vectorWeight vectorCount keywordCount
               (fuseSearchResults vectorDocs keywordDocs vectorWeight
                  limit))))))))))
    (fun message =>
       Throw ("Advanced hybrid search failed: " ++ message)%string).

(** [smartSearchPDFContent(query, limit)]. *)
Definition smartSearchPDFContent (query : string) (limit : Z)
  : outcome SearchReport :=
  searchPDFContent query limit (alphaOf (getOptimalSearchParams query)).

(** [basicSearchPDFContent(query, limit)]. *)
Definition basicSearchPDFContent (query : string) (limit : Z)
  : outcome SearchReport :=
  tryCatch
    (bind (store (ListQuery fieldsCheck 1)) (fun dataCheck =>
     bind (documentCount dataCheck) (fun _ =>
     bind (enhanceQuery query) (fun enhancedQuery =>
     bind (generateEmbedding enhancedQuery) (fun queryEmbedding =>
     bind (store (ListQuery fieldsPlain limit)) (fun allResults =>
     bind (documentCount allResults) (fun _ =>
     bind (store (NearVectorQuery fieldsVector queryEmbedding limit))
       (fun result =>
     bind (documentsOf result) (fun docs =>
     Return (mkSearchReport query enhancedQuery None None docs))))))))))
    (fun message => Throw ("Search failed: " ++ message)%string).

End SearchMethods.

(** ** The enhanced search: [enhancedSearchPDFContent] *)

Record SearchOptions : Type := mkSearchOptions {
  optLimit : Z;
  optMaxResults : Z;
  enableRanking : bool;
  enableDiversification : bool;
  enableSynthesis : bool;
  enableQueryRefinement : bool;
  optSearchType : string
}.

(** The defaults of the destructured [options]. *)
Definition defaultSearchOptions : SearchOptions :=
  mkSearchOptions 10 20 true true true true "hybrid".

(** A result of the final list: [relevanceScore] is the property the
    ranking step sets on the result, absent when that step is skipped. *)
Record RankedResult : Type := mkRankedResult {
  hitOf : SearchResult;
  relevanceScore : option number
}.

Record EnhancedReport : Type := mkEnhancedReport {
  finalResults : list RankedResult;
  synthesis : JsValue;
  totalFound : Z;
  queryVariationCount : Z;
  metaSearchType : string;
  metaOptions : SearchOptions
}.

(** The loop [for (const result of allResults)] that keeps the first
    result of each [content.substring(0, 100)]. *)
Fixpoint dedupeFrom (allResults : list SearchResult)
    (seenContent : list string) (uniqueResults : list SearchResult)
  : list SearchResult :=
  match allResults with
  | [] => uniqueResults
  | result :: rest =>
      let contentHash := substring 0 100 (content result) in
      if ResultRanker.Set_has contentHash seenContent
      then dedupeFrom rest seenContent uniqueResults
      else dedupeFrom rest (seenContent ++ [contentHash])
             (uniqueResults ++ [result])
  end.

(** [result.relevanceScore || 0] once the ranking step has set the
    property. *)
Definition relevanceKey (query : string) (result : SearchResult) : number :=
  orElse (Some (ResultRanker.calculateRelevanceScore result query)) zero.

(** The comparator
    [(a, b) => (b.relevanceScore || 0) - (a.relevanceScore || 0)]. *)
Definition byRelevance (query : string) (a b : SearchResult) : number :=
  sub (relevanceKey query b) (relevanceKey query a).

(** [enableRanking && uniqueResults.length > 0]. *)
Definition rankingApplies (options : SearchOptions)
    (uniqueResults : list SearchResult) : bool :=
  (enableRanking options && (0 <? Z.of_nat (List.length uniqueResults)))%bool.

(** The diversification and the final [slice(0, limit)]:
    [diversifyResults(uniqueResults.slice(0, maxResults))] when enabled. *)
Definition selectFinal (options : SearchOptions)
    (uniqueResults : list SearchResult) : list SearchResult :=
  let diversified :=
    if enableDiversification options
    then ResultRanker.diversifyResults
           (sliceTo uniqueResults (optMaxResults options))
           ResultRanker.defaultMaxSimilarity
    else uniqueResults in
  sliceTo diversified (optLimit options).

(** A final result with the [relevanceScore] the ranking step gave it. *)
Definition withRelevance (query : string) (ranking : bool)
    (result : SearchResult) : RankedResult :=
  mkRankedResult result
    (if ranking
     then Some (ResultRanker.calculateRelevanceScore result query)
     else None).

(** [Math.ceil(maxResults / n)]. *)
Definition ceilDiv (maxResults : Z) (n : nat) : Z :=
  Qceiling (inject_Z maxResults / inject_Z (Z.of_nat n)).

Section EnhancedSearch.

Variable create : ChatRequest -> outcome ChatCompletion.
Variable embed : EmbeddingRequest -> outcome EmbeddingResponse.
Variable store : StoreQuery -> outcome StoreResponse.
Variable firstRejection : string -> string -> string.

(** The [switch (searchType)]: the results of the chosen search; of a
    fused result the pipeline reads the properties of the result it
    spreads. *)
Definition runSearch (searchType searchQuery : string) (limit : Z)
  : outcome (list SearchResult) :=
  if String.eqb searchType "basic" then
    bind (basicSearchPDFContent create embed store searchQuery limit)
      (fun report => Return (results report))
  else if String.eqb searchType "advanced" then
    bind (searchPDFContentAdvanced create embed store firstRejection
            searchQuery limit (Fin (7 # 10)))
      (fun report => Return (map source (advResults report)))
  else if String.eqb searchType "smart" then
    bind (smartSearchPDFContent create embed store searchQuery limit)
      (fun report => Return (results report))
  else
    bind (searchPDFContent create embed store searchQuery limit (Fin (7 # 10)))
      (fun report => Return (results report)).

(** The loop [for (const searchQuery of queryVariations.slice(0, 3))]. *)
Fixpoint searchVariations (searchType : string) (limit : Z)
    (searchQueries : list string) (allResults : list SearchResult)
  : outcome (list SearchResult) :=
  match searchQueries with
  | [] => Return allResults
  | searchQuery :: rest =>
      bind (runSearch searchType searchQuery limit) (fun found =>
      searchVariations searchType limit rest (allResults ++ found))
  end.

Definition enhancedSearchPDFContent (query : string) (options : SearchOptions)
  : outcome EnhancedReport :=
  tryCatch
    (bind (if enableQueryRefinement options
           then QueryRefiner.generateQueryVariations create query
           else Return [query]) (fun queryVariations =>
     bind (searchVariations (optSearchType options)
             (ceilDiv (optMaxResults options) (List.length queryVariations))
             (sliceTo queryVariations 3) []) (fun allResults =>
     let uniqueResults := dedupeFrom allResults [] [] in
     let ranking := rankingApplies options uniqueResults in
     bind (if ranking
           then bind (generateEmbedding embed query) (fun _ =>
                Return (sortBy (byRelevance query) uniqueResults))
           else Return uniqueResults) (fun uniqueResults =>
     let final := selectFinal options uniqueResults in
     bind (if (enableSynthesis options && (1 <? Z.of_nat (List.length final)))%bool
           then DocumentSynthesizer.synthesizeResults create (Some final) query
                  DocumentSynthesizer.defaultMaxTokens
           else Return JsNull) (fun synthesis =>
     Return (mkEnhancedReport
               (map (withRelevance query ranking) final)
               synthesis
               (Z.of_nat (List.length uniqueResults))
               (Z.of_nat (List.length queryVariations))
               (optSearchType options) options))))))
    (fun error => Throw error).

End EnhancedSearch.

(** ** Chunk metadata: the closure [calculateImportance] *)

(** A line terminator, where [^] and [$] match in multi-line mode. *)
Definition isLineBreak (c : ascii) : bool :=
  (Nat.eqb (code c) 10 || Nat.eqb (code c) 13)%bool.

(** The class [[A-Z\s\d\.]]. *)
Definition isHeadingChar (c : ascii) : bool :=
  (isUpper c || isSpace c || isDigit c || Nat.eqb (code c) 46)%bool.

Definition atLineEnd (s : list ascii) : bool :=
  match s with
  | [] => true
  | c :: _ => isLineBreak c
  end.

(** [[A-Z\s\d\.]{10,}$] matched from here on, [n] characters of the class
    being already taken. *)
Fixpoint headingFrom (s : list ascii) (n : nat) : bool :=
  ((Nat.leb 10 n && atLineEnd s) ||
   match s with
   | [] => false
   | c :: s' => isHeadingChar c && headingFrom s' (S n)
   end)%bool.

(** [/^[A-Z\s\d\.]{10,}$/m.test(text)]. *)
Fixpoint hasHeadingLine (s : list ascii) (atLineStart : bool) : bool :=
  ((atLineStart && headingFrom s 0) ||
   match s with
   | [] => false
   | c :: s' => hasHeadingLine s' (isLineBreak c)
   end)%bool.

(** [/\d+%|\$\d+|\d+\.\d+/.test(text)]. *)
Fixpoint hasFigure (s : list ascii) : bool :=
  match s with
  | a :: (b :: rest') as rest =>
      ((isDigit a && Nat.eqb (code b) 37)
       || (Nat.eqb (code a) 36 && isDigit b)
       || (isDigit a && Nat.eqb (code b) 46 &&
           match rest' with c :: _ => isDigit c | [] => false end)
       || hasFigure rest)%bool
  | _ => false
  end.

Definition importantWords : list string :=
  ["important"; "key"; "significant"; "critical"; "essential"; "conclusion";
   "summary"].

(** [calculateImportance(text)]. *)
Definition calculateImportance (text : string) : number :=
  let score := zero in
  let score :=
    if hasHeadingLine (chars text) true then add score (Fin (3 # 10))
    else score in
  let score :=
    if hasFigure (chars text) then add score (Fin (2 # 10)) else score in
  let score :=
    fold_left
      (fun score word =>
         if includes (toLowerCase text) word then add score (Fin (1 # 10))
         else score)
      importantWords score in
  let score :=
    if includes text "?" then add score (Fin (1 # 10)) else score in
  min2 score one.

(** ** Storing a document: [extractPDFText] and [storePDFInWeaviate] *)

(** An object of the batch import: the properties of the class
    [PDFDocument] and the vector. *)
Record StoredObject : Type := mkStoredObject {
  o_content : string;
  o_filename : string;
  o_savedFilename : string;
  o_pageNumber : Z;
  o_chunkIndex : Z;
  o_totalPages : Z;
  o_totalChunks : Z;
  o_chunkStart : Z;
  o_chunkEnd : Z;
  o_uploadDate : string;
  o_filePath : string;
  o_vector : JsEmbedding
}.

(** What the function does to the file system and to the store, in the
    order of the calls: [fs.copyFileSync(from, to)] and
    [client.batch.objectsBatcher().withObjects(...objects).do()]. *)
Inductive Effect : Type :=
| CopyFile (from to : string)
| SendBatch (objects : list StoredObject).

(** The object [storePDFInWeaviate] resolves to. *)
Record StoreReceipt : Type := mkStoreReceipt {
  r_success : bool;
  r_chunksStored : Z;
  r_filename : string;
  r_savedFilename : string;
  r_savedPath : string;
  r_pages : Z
}.

Definition USER_UPLOADS_DIR : string := "./user_uploads".

(** [s.replace(/[:.]/g, '-')]. *)
Definition dashChar (c : ascii) : ascii :=
  if (Nat.eqb (code c) 58 || Nat.eqb (code c) 46)%bool then ascii_of_nat 45
  else c.

Definition replaceColonsAndDots (s : string) : string :=
  str (map dashChar (chars s)).

Section Storing.

(** The collaborators: reading and parsing the file ([fs.readFileSync]
    and [pdf], giving [data.text] and [data.numpages]), the clock
    ([new Date().toISOString()], by the number of the reading),
    [path.join], [fs.copyFileSync], the embedding and the batch import.
    [overlap] is the third argument of [chunkTextWithOverlap]: 200 in
    index.js, 150 in indexCopy.js, which is the one difference of the two
    copies of [storePDFInWeaviate]. *)
Variable pdf : string -> outcome (string * Z).
Variable now : Z -> string.
Variable pathJoin : string -> string -> string.
Variable copyFileSync : string -> string -> outcome unit.
Variable embed : EmbeddingRequest -> outcome EmbeddingResponse.
Variable doBatch : list StoredObject -> outcome unit.
Variable overlap : Z.

(** [extractPDFText(filePath)]. *)
Definition extractPDFText (filePath : string) : outcome (string * Z) :=
  tryCatch (pdf filePath)
    (fun message =>
       Throw ("PDF text extraction failed: " ++ message)%string).

Section Batches.

Variable text : string.
Variable numPages : Z.
Variable chunks : list Chunk.
Variable originalFilename savedFilename permanentPath : string.

(** The object pushed for [chunk] at [chunkIndex]; the clock has been read
    once for the timestamp and once for every object before this one. *)
Definition objectOf (chunk : Chunk) (chunkIndex : Z) (embedding : JsEmbedding)
  : StoredObject :=
  mkStoredObject (chunk_text chunk) originalFilename savedFilename
    (pageNumber (chunk_start chunk) (strlen text) numPages)
    chunkIndex numPages (Z.of_nat (List.length chunks))
    (chunk_start chunk) (chunk_end chunk)
    (now (chunkIndex + 1)) permanentPath embedding.

(** The inner loop [for (let j = 0; j < batch.length; j++)], from [j] on
    with the rest of [batch] and the [objects] pushed so far. *)
Fixpoint embedBatch (i : Z) (batch : list Chunk) (j : Z)
    (objects : list StoredObject) : outcome (list StoredObject) :=
  match batch with
  | [] => Return objects
  | chunk :: rest =>
      bind (generateEmbedding embed (chunk_text chunk)) (fun embedding =>
        embedBatch i rest (j + 1)
          (objects ++ [objectOf chunk (i + j) embedding]))
  end.

(** The loop [for (let i = 0; i < chunks.length; i += batchSize)] from
    [i] on, with the effects so far; the delay after a batch has no part
    in the result. *)
Fixpoint storeLoop (fuel : nat) (i : Z) (log : list Effect)
  : option (list Effect * outcome unit) :=
  match fuel with
  | O => None
  | S fuel =>
      if i <? Z.of_nat (List.length chunks) then
        let batch := firstn 5 (skipn (Z.to_nat i) chunks) in
        match embedBatch i batch 0 [] with
        | Throw message => Some (log, Throw message)
        | Return objects =>
            match doBatch objects with
            | Throw message =>
                Some (log ++ [SendBatch objects], Throw message)
            | Return _ => storeLoop fuel (i + 5) (log ++ [SendBatch objects])
            end
        end
      else Some (log, Return tt)
  end.

End Batches.

(** [storePDFInWeaviate(filePath, originalFilename)], with the effects it
    had when it settles. *)
Definition storePDFInWeaviate (filePath originalFilename : string)
  : option (list Effect * outcome StoreReceipt) :=
  match extractPDFText filePath with
  | Throw message =>
      Some ([], Throw ("Failed to store PDF: " ++ message)%string)
  | Return (text, numPages) =>
      match chunkTextWithOverlap text 800 overlap with
      | None => None
      | Some chunks =>
          let timestamp := replaceColonsAndDots (now 0) in
          let savedFilename := (timestamp ++ "_" ++ originalFilename)%string in
          let permanentPath := pathJoin USER_UPLOADS_DIR savedFilename in
          match copyFileSync filePath permanentPath with
          | Throw message =>
              Some ([CopyFile filePath permanentPath],
                    Throw ("Failed to store PDF: " ++ message)%string)
          | Return _ =>
              match storeLoop text numPages chunks originalFilename
                      savedFilename permanentPath
                      (S (List.length chunks)) 0
                      [CopyFile filePath permanentPath] with
              | None => None
              | Some (log, Throw message) =>
                  Some (log, Throw ("Failed to store PDF: " ++ message)%string)
              | Some (log, Return _) =>
                  Some (log,
                        Return (mkStoreReceipt true (Z.of_nat (List.length chunks))
                                  originalFilename savedFilename permanentPath
                                  numPages))
              end
          end
      end
  end.

End Storing.

(** ** Sentence chunks: [chunkBySentences] and [calculateCoherence] of
    semantic-chunking.js *)

(** A character of the class [[\.!?]]. *)
Definition isTerminator (c : ascii) : bool :=
  (Nat.eqb (code c) 46 || Nat.eqb (code c) 33 || Nat.eqb (code c) 63)%bool.

(** [text.match(/[^\.!?]+[\.!?]+/g)], [[]] standing for [null]: each
    longest run of other characters with the longest run of terminators
    that follows it.  [body] and [marks] hold the two runs of the match in
    progress, last character first.  Terminators ahead of the first other
    character are passed over, and so is a last run that no terminator
    follows. *)
Fixpoint matchSentencesFrom (s body marks : list ascii) : list string :=
  match s with
  | [] =>
      match marks with
      | [] => []
      | _ => [str (rev body ++ rev marks)]
      end
  | c :: s' =>
      if isTerminator c then
        match body with
        | [] => matchSentencesFrom s' [] []
        | _ => matchSentencesFrom s' body (c :: marks)
        end
      else
        match marks with
        | [] => matchSentencesFrom s' (c :: body) []
        | _ => str (rev body ++ rev marks) :: matchSentencesFrom s' [c] []
        end
  end.

Definition matchSentences (text : string) : list string :=
  matchSentencesFrom (chars text) [] [].

(** [text.match(/[^\.!?]+[\.!?]+/g) || [text]]. *)
Definition sentencesOf (text : string) : list string :=
  match matchSentences text with
  | [] => [text]
  | sentences => sentences
  end.

Record SentenceChunk : Type := mkSentenceChunk {
  s_text : string;
  s_start : Z;
  s_end : Z;
  s_sentenceCount : Z
}.

(** The [chunks.push({...})] of [chunkBySentences], for [currentChunk]. *)
Definition pushSentences (chunks : list SentenceChunk)
    (currentChunk : list string) : list SentenceChunk :=
  let chunkText := trim (join " " currentChunk) in
  let previousEnd := option_map s_end (List.last (map Some chunks) None) in
  chunks ++
  [mkSentenceChunk chunkText
     (match previousEnd with None => 0 | Some e => e end)
     (match previousEnd with
      | None => strlen chunkText
      | Some e => e + strlen chunkText
      end)
     (Z.of_nat (List.length currentChunk))].

(** The body of [for (let i = 0; i < sentences.length; i++)], on
    [chunks], [currentChunk] and [currentLength]. *)
Definition sentenceStep (maxChunkSize overlapSentences : Z)
    (state : list SentenceChunk * list string * Z) (raw : string)
  : list SentenceChunk * list string * Z :=
  let '(chunks, currentChunk, currentLength) := state in
  let sentence := trim raw in
  let sentenceLength := strlen sentence in
  let '(chunks, currentChunk, currentLength) :=
    if ((currentLength + sentenceLength >? maxChunkSize)
        && (Z.of_nat (List.length currentChunk) >? 0))%bool
    then
      let overlapStart :=
        Z.max 0 (Z.of_nat (List.length currentChunk) - overlapSentences) in
      let kept := skipn (Z.to_nat overlapStart) currentChunk in
      (pushSentences chunks currentChunk, kept, strlen (join " " kept))
    else (chunks, currentChunk, currentLength) in
  (chunks, currentChunk ++ [sentence], currentLength + sentenceLength).

(** [chunkBySentences(text, maxChunkSize, overlapSentences)]. *)
Definition chunkBySentences (text : string) (maxChunkSize overlapSentences : Z)
  : list SentenceChunk :=
  let '(chunks, currentChunk, _) :=
    fold_left (sentenceStep maxChunkSize overlapSentences)
      (sentencesOf text) ([], [], 0) in
  if Z.of_nat (List.length currentChunk) >? 0
  then pushSentences chunks currentChunk
  else chunks.

(** [s.split(/\W+/)]. *)
Fixpoint splitNonWordFrom (s cur : list ascii) (afterSep : bool)
  : list string :=
  match s with
  | [] => [str (rev cur)]
  | c :: s' =>
      if isWordChar c then splitNonWordFrom s' (c :: cur) false
      else if afterSep then splitNonWordFrom s' cur true
      else str (rev cur) :: splitNonWordFrom s' [] true
  end.

Definition splitNonWord (s : string) : list string :=
  splitNonWordFrom (chars s) [] false.

(** One round of the loop of [calculateCoherence]:
    [intersection.size / Math.min(words1.size, words2.size)]. *)
Definition wordOverlap (sentence1 sentence2 : string) : number :=
  let words1 := ResultRanker.toSet (splitNonWord (toLowerCase sentence1)) in
  let words2 := ResultRanker.toSet (splitNonWord (toLowerCase sentence2)) in
  let intersection :=
    ResultRanker.toSet
      (filter (fun x => ResultRanker.Set_has x words2) words1) in
  div (ofNat (List.length intersection))
    (min2 (ofNat (List.length words1)) (ofNat (List.length words2))).

(** [for (let i = 0; i < sentences.length - 1; i++)], on the sentences
    from [i] on. *)
Fixpoint coherenceLoop (sentences : list string) (totalOverlap : number)
  : number :=
  match sentences with
  | sentence1 :: rest =>
      match rest with
      | sentence2 :: _ =>
          coherenceLoop rest (add totalOverlap (wordOverlap sentence1 sentence2))
      | [] => totalOverlap
      end
  | [] => totalOverlap
  end.

(** [calculateCoherence(sentences)]. *)
Definition calculateCoherence (sentences : list string) : number :=
  if Z.of_nat (List.length sentences) <? 2 then one
  else div (coherenceLoop sentences zero)
         (ofZ (Z.of_nat (List.length sentences) - 1)).

(** * Specification vocabulary *)

(** Descending by [key]; among equal keys, in the order [before]. *)
Definition descending {A} (key : A -> number) (before : A -> A -> Prop)
    (a b : A) : Prop :=
  ltb (key b) (key a) = true \/ (numEq (key a) (key b) /\ before a b).

(** What the loop pushes: the meaningful windows, in the order visited. *)
Definition emitted {C} (mk : string -> Z -> Z -> C) (text : string)
    (ws : list (Z * Z)) : list C :=
  map (fun w => mk (windowText text w) (fst w) (snd w))
    (filter (fun w => 50 <? strlen (windowText text w)) ws).

(** Not above the threshold: the test [similarity > maxSimilarity] fails. *)
Definition notAbove (maxSimilarity : number) (earlier later : SearchResult)
  : Prop :=
  gtb (ResultRanker.calculateTextSimilarity (content later) (content earlier))
      maxSimilarity = false.

(** A finite number that is not negative. *)
Definition nonneg (x : number) : Prop := exists q, x = Fin q /\ (0 <= q)%Q.

(** [r] ranks before [s]; an absent rank comes last. *)
Definition rankLt (r s : option Z) : Prop :=
  match r, s with
  | Some i, Some j => i < j
  | Some _, None => True
  | _, _ => False
  end.

(** By vector-list rank first, then by lexical-list rank. *)
Definition rankBefore (a b : Fused) : Prop :=
  rankLt (vectorRank a) (vectorRank b) \/
  (vectorRank a = vectorRank b /\ rankLt (keywordRank a) (keywordRank b)).

(** The order in which [resultMap] holds its values. *)
Definition strictBefore (a b : Fused) : Prop :=
  match vectorRank a, vectorRank b with
  | Some i, Some j => i < j
  | Some _, None => True
  | None, Some _ => False
  | None, None => rankLt (keywordRank a) (keywordRank b)
  end.

(** After the vector pass: every value has a vector rank, at most the
    number of results met, and its key has been met. *)
Definition vectorInv (index : Z) (seen : list string) (m : JsMap Fused) : Prop :=
  StronglySorted strictBefore (Map_values m) /\
  Forall (fun p => In (fst p) seen /\
                   exists r, vectorRank (snd p) = Some r /\ r <= index) m.

(** During the keyword pass: a value without vector rank was added by
    this pass, under a key already met, with a lexical rank at most the
    number of results met. *)
Definition keywordInv (index : Z) (seen : list string) (m : JsMap Fused) : Prop :=
  StronglySorted strictBefore (Map_values m) /\
  Forall (fun p => vectorRank (snd p) = None ->
                   In (fst p) seen /\
                   exists r, keywordRank (snd p) = Some r /\ r <= index) m.

(** A number that is neither [NaN] nor infinite. *)
Definition finite (x : number) : Prop := exists q, x = Fin q.

(** A score of the store: absent, or a finite number that is not negative. *)
Definition plainScore (o : option number) : Prop :=
  match o with
  | Some (Fin q) => (0 <= q)%Q
  | Some _ => False
  | None => True
  end.

(** Every fused score held by the map is finite. *)
Definition finiteScores (m : JsMap Fused) : Prop :=
  Forall (fun p => finite (hybridScore (snd p))) m.

(** An entry of [resultMap] whose scores are finite, with both normalised
    scores in [0,1] and the fused score their weighted sum. *)
Definition weighted (w : Q) (e : Fused) : Prop :=
  exists v k h,
    vectorScore e = Fin v /\ keywordScore e = Fin k /\ hybridScore e = Fin h /\
    (0 <= v <= 1)%Q /\ (0 <= k <= 1)%Q /\ (h == w * v + (1 - w) * k)%Q.

(** During the keyword pass: each entry is weighted; one that has no
    lexical rank yet has keyword score 0, one that has was reached under
    a key already met. *)
Definition weightedInv (w : Q) (seen : list string) (m : JsMap Fused) : Prop :=
  Forall (fun p =>
            weighted w (snd p) /\
            (keywordRank (snd p) = None -> numEq (keywordScore (snd p)) zero) /\
            (keywordRank (snd p) <> None -> In (fst p) seen)) m.

(** [l1] is [l2] with some elements left out, the order kept. *)
Inductive subseq {A} : list A -> list A -> Prop :=
| subseq_nil : subseq [] []
| subseq_skip (x : A) (l1 l2 : list A) : subseq l1 l2 -> subseq l1 (x :: l2)
| subseq_take (x : A) (l1 l2 : list A) : subseq l1 l2 -> subseq (x :: l1) (x :: l2).

(** The key of the deduplication: [content.substring(0, 100)]. *)
Definition contentHashOf (result : SearchResult) : string :=
  substring 0 100 (content result).

(** Not increasing in relevance: the later result has no greater
    [relevanceScore || 0]. *)
Definition notMoreRelevant (query : string) (earlier later : SearchResult)
  : Prop :=
  ltb (relevanceKey query earlier) (relevanceKey query later) = false.

(** Adjacent elements of a list. *)
Inductive adjacent {A} : list A -> A -> A -> Prop :=
| adjacent_here (x y : A) (l : list A) : adjacent (x :: y :: l) x y
| adjacent_later (z : A) (l : list A) (x y : A) :
    adjacent l x y -> adjacent (z :: l) x y.

(** What [resultMap] keeps true of its entries, all along both passes:
    the keys are distinct, each entry sits under the key of the result it
    spreads, and that result is one of those met so far. *)
Definition keyed (met : SearchResult -> Prop) (m : JsMap Fused) : Prop :=
  NoDup (Map_keys m) /\
  Forall (fun p => fst p = resultKey (source (snd p)) /\ met (source (snd p))) m.

(** The chunk an object of the batch import carries. *)
Definition chunkOf (o : StoredObject) : Chunk :=
  mkChunk (o_content o) (o_chunkStart o) (o_chunkEnd o).

(** [start, start + 1, ...], [n] numbers. *)
Fixpoint indicesFrom (start : Z) (n : nat) : list Z :=
  match n with
  | O => []
  | S n => start :: indicesFrom (start + 1) n
  end.

(** The properties of a stored object that do not depend on its chunk
    index: the vector is the embedding of its content, the page is
    computed from its start, the rest repeats the upload. *)
Definition stamped (embed : EmbeddingRequest -> outcome EmbeddingResponse)
    (text : string) (numPages total : Z)
    (originalFilename savedFilename permanentPath : string)
    (o : StoredObject) : Prop :=
  generateEmbedding embed (o_content o) = Return (o_vector o) /\
  o_pageNumber o = pageNumber (o_chunkStart o) (strlen text) numPages /\
  o_totalPages o = numPages /\
  o_totalChunks o = total /\
  o_filename o = originalFilename /\
  o_savedFilename o = savedFilename /\
  o_filePath o = permanentPath.

(** Between 1 and 5 objects. *)
Definition batchSized (objects : list StoredObject) : Prop :=
  (1 <= List.length objects <= 5)%nat.

(** Offsets that run on from [from]: each chunk starts where the one
    before ended and ends the length of its text later; every chunk counts
    at least one sentence. *)
Fixpoint chained (from : Z) (chunks : list SentenceChunk) : Prop :=
  match chunks with
  | [] => True
  | c :: rest =>
      s_start c = from /\ s_end c = from + strlen (s_text c) /\
      1 <= s_sentenceCount c /\ chained (s_end c) rest
  end.

(** The end of the last chunk, [from] when there is none. *)
Definition lastEnd (from : Z) (chunks : list SentenceChunk) : Z :=
  List.last (map s_end chunks) from.

(** No character of the class [[\.!?]]. *)
Definition unterminated (tail : string) : Prop :=
  forallb (fun c => negb (isTerminator c)) (chars tail) = true.

(** * Sample inputs *)

(** A text of exactly 50 characters. *)
Definition fiftyChars : string :=
  "aaaaaaaaaaaaaaaaaaaaaaaaaaaaaaaaaaaaaaaaaaaaaaaaaa".

(** A text of 172 characters, chunked with windows of 100 and overlap 20. *)
Definition sampleText : string :=
  "The quarterly report is due on Friday. Please send the figures to the finance team before noon. Late entries are not counted. Ask Dana for the template if you have lost it!".

Definition sampleChunks : list Chunk :=
  match chunkTextWithOverlap sampleText 100 20 with
  | Some chunks => chunks
  | None => []
  end.

Definition lastSampleChunk : Chunk :=
  last sampleChunks (mkChunk "" 0 0).

(** A numbered reply of five lines, two of them equal up to case. *)
Definition duplicatedReply : string :=
  join newline ["1. a"; "2. A"; "3. b"; "4. c"; "5. d"].


(** Two results with 4 of their 5 distinct tokens in common. *)
Definition fourWords : SearchResult :=
  mkSearchResult "alpha beta gamma delta" "a.pdf" 1 0
    None None None None None.

Definition fiveWords : SearchResult :=
  mkSearchResult "alpha beta gamma delta epsilon" "a.pdf" 1 1
    None None None None None.

(** A result at cosine distance 0.25, and one at distance 2. *)
Definition closeHit : SearchResult :=
  mkSearchResult "Refunds are issued within 14 days." "policy.pdf" 1 0
    (Some (Fin (3 # 10))) None None (Some (Fin (1 # 4))) None.

Definition farHit : SearchResult :=
  mkSearchResult "y" "policy.pdf" 1 0 None None None (Some (Fin 2)) None.

(** A result of the fusion inputs: page 1, chunk 0 of the file [name]. *)
Definition hit (name : string) (certainty score : option number) : SearchResult :=
  mkSearchResult "text" name 1 0 None None certainty None score.

(** The two lists of the fusion example of the specification. *)
Definition vectorHits : list SearchResult :=
  [hit "a.pdf" (Some (Fin (9 # 10))) None; hit "b.pdf" (Some (Fin (5 # 10))) None].

Definition lexicalHits : list SearchResult :=
  [hit "b.pdf" None (Some (Fin 10)); hit "c.pdf" None (Some (Fin 5))].

(** Three vector results, the third under the key of the first. *)
Definition repeatedKeyHits : list SearchResult :=
  [hit "a.pdf" (Some (Fin 1)) None;
   hit "b.pdf" (Some (Fin (1 # 2))) None;
   hit "a.pdf" (Some (Fin (1 # 2))) None].

(** A zero certainty and an absent one. *)
Definition zeroCertaintyHits : list SearchResult :=
  [hit "a.pdf" (Some (Fin 0)) None; hit "b.pdf" None None].

(** Collaborators for the searches: a text generation that is down, an
    embedding and a store that answer. *)
Definition createDown : ChatRequest -> outcome ChatCompletion :=
  fun _ => Throw "timeout".

Definition embedUp : EmbeddingRequest -> outcome EmbeddingResponse :=
  fun _ => Return (EmbeddingOf (Some [Fin 1; Fin 0])).

Definition storedDocs : list SearchResult :=
  [mkSearchResult "Refunds are issued within 14 days of the request."
     "policy.pdf" 1 0 None None None (Some (Fin (1 # 4))) None;
   mkSearchResult "Refunds are issued within 14 days of the request."
     "policy-copy.pdf" 1 0 None None None (Some (Fin (1 # 4))) None;
   mkSearchResult "Shipping takes five working days."
     "shipping.pdf" 2 3 None None None (Some (Fin (3 # 4))) None].

Definition storeUp : StoreQuery -> outcome StoreResponse :=
  fun _ => Return (Documents (Some storedDocs)).

Definition storeDown : StoreQuery -> outcome StoreResponse :=
  fun _ => Throw "store unreachable".

Definition createUp : ChatRequest -> outcome ChatCompletion :=
  fun _ => Return (Content "Refunds take 14 days.").

Definition emptyReport : EnhancedReport :=
  mkEnhancedReport [] JsNull 0 0 "" defaultSearchOptions.

(** The report of the enhanced search with the text generation down, and
    with every collaborator answering. *)
Definition degradedReport : EnhancedReport :=
  match enhancedSearchPDFContent createDown embedUp storeUp (fun a _ => a)
          "refunds" defaultSearchOptions with
  | Return report => report
  | Throw _ => emptyReport
  end.

Definition answeredReport : EnhancedReport :=
  match enhancedSearchPDFContent createUp embedUp storeUp (fun a _ => a)
          "refunds" defaultSearchOptions with
  | Return report => report
  | Throw _ => emptyReport
  end.

(** The chunks of the sample text with their metadata, no keywords
    extracted. *)
Definition sampleEnhancedChunks : list EnhancedChunk :=
  match enhancedChunkTextWithOverlap (fun _ => []) calculateImportance
          sampleText 100 20 with
  | Some chunks => chunks
  | None => []
  end.

Definition firstEnhancedChunk : EnhancedChunk :=
  hd (mkEnhancedChunk "" 0 0 [] NaN 0 "") sampleEnhancedChunks.

(** An upload of three pages with the sample text, every collaborator
    answering. *)
Definition pdfUp : string -> outcome (string * Z) :=
  fun _ => Return (sampleText, 3).

Definition clock : Z -> string :=
  fun _ => "2024-05-01T10:20:30.400Z".

Definition joinPath : string -> string -> string :=
  fun dir name => (dir ++ "/" ++ name)%string.

Definition copyUp : string -> string -> outcome unit :=
  fun _ _ => Return tt.

Definition batchUp : list StoredObject -> outcome unit :=
  fun _ => Return tt.

Definition emptyReceipt : StoreReceipt :=
  mkStoreReceipt false 0 "" "" "" 0.

Definition sampleStore : list Effect * outcome StoreReceipt :=
  match storePDFInWeaviate pdfUp clock joinPath copyUp embedUp batchUp 200
          "/tmp/upload-1" "policy.pdf" with
  | Some settled => settled
  | None => ([], Throw "")
  end.

Definition sampleReceipt : StoreReceipt :=
  match snd sampleStore with
  | Return receipt => receipt
  | Throw _ => emptyReceipt
  end.

(** The chunks of the sample text as [storePDFInWeaviate] cuts them, and
    an embedding that rejects the text of the seventh. *)
Definition storedChunks : list Chunk :=
  match chunkTextWithOverlap sampleText 800 200 with
  | Some chunks => chunks
  | None => []
  end.

Definition seventhChunk : Chunk :=
  nth 6 storedChunks (mkChunk "" 0 0).

Definition embedPicky : EmbeddingRequest -> outcome EmbeddingResponse :=
  fun request =>
    if String.eqb (embeddingInput request) (chunk_text seventhChunk)
    then Throw "rejected"
    else Return (EmbeddingOf (Some [Fin 1; Fin 0])).

(** An upload whose text has 50 characters. *)
Definition pdfShort : string -> outcome (string * Z) :=
  fun _ => Return (fiftyChars, 1).

(** * Properties *)

(** ** The embedding on small inputs *)

Example splitWs_edges :
  splitWs " a  b " = [""; "a"; "b"; ""] /\ splitWs "" = [""].
Proof. split; reflexivity. Qed.

Example trim_and_slice :
  trim "  a b  " = "a b" /\ slice "abcdef" 2 (-1) = "cde" /\
  slice "abcdef" 4 2 = "".
Proof. repeat split; reflexivity. Qed.

Example stripNumbering_list_item :
  stripNumbering "12.  what is due" = "what is due" /\
  stripNumbering "12 items" = "12 items".
Proof. split; reflexivity. Qed.

Example division_by_zero :
  div (Fin 0) (Fin 0) = NaN /\ div (Fin 1) (Fin 0) = PosInf /\
  Math_max [] = NegInf.
Proof. repeat split; reflexivity. Qed.

Example sampleText_chunks :
  map (fun c => (chunk_start c, chunk_end c)) sampleChunks
  = [(0, 95); (75, 172)].
Proof. vm_compute. reflexivity. Qed.

Example fuse_example :
  map (fun e => (filename (source e), vectorRank e, keywordRank e))
    (fuseSearchResults vectorHits lexicalHits (Fin (7 # 10)) 2)
  = [("a.pdf", Some 1, None); ("b.pdf", Some 2, Some 1)].
Proof. vm_compute. reflexivity. Qed.

Example similarity_of_four_in_five :
  ResultRanker.calculateTextSimilarity "Alpha, beta; gamma delta!"
    "alpha beta gamma delta epsilon" = Fin (4 # 5) /\
  ResultRanker.calculateTextSimilarity "" "..." = NaN.
Proof. split; vm_compute; reflexivity. Qed.

(** ** Segmenter *)

Lemma strlen_nonneg (s : string) : 0 <= strlen s.
Proof. unfold strlen. lia. Qed.

Lemma nextStart_gt (start end_ overlap : Z) :
  start < nextStart start end_ overlap.
Proof. unfold nextStart. lia. Qed.

Lemma scanBack_eq (fuel : nat) (text : string) (bound2 i : Z) :
  scanBack fuel text bound2 i =
  if 2 * i >? bound2 then
    if isSentenceEnd (charAt text i) then Some (i + 1)
    else match fuel with
         | O => None
         | S fuel' => scanBack fuel' text bound2 (i - 1)
         end
  else Some (-1).
Proof. destruct fuel; reflexivity. Qed.

(** The backward scan stops at once when its entry test fails. *)
Lemma scanBack_stops (fuel : nat) (text : string) (bound2 i : Z) :
  2 * i <= bound2 -> scanBack fuel text bound2 i = Some (-1).
Proof.
  intros H. rewrite scanBack_eq.
  destruct (2 * i >? bound2) eqn:E; [|reflexivity].
  apply Z.gtb_lt in E. lia.
Qed.

(** With a bound that is not negative the scan ends before index [0]. *)
Lemma scanBack_total (fuel : nat) (text : string) (bound2 : Z) :
  0 <= bound2 ->
  forall i, i <= Z.of_nat fuel -> exists r, scanBack fuel text bound2 i = Some r.
Proof.
  intros Hb. induction fuel as [|fuel IH]; intros i Hi; rewrite scanBack_eq.
  - destruct (2 * i >? bound2) eqn:E; [|eauto].
    apply Z.gtb_lt in E. lia.
  - destruct (2 * i >? bound2) eqn:E; [|eauto].
    destruct (isSentenceEnd (charAt text i)); [eauto|].
    apply IH. lia.
Qed.

Lemma windowEnd_total (text : string) (maxChunkSize start : Z) :
  0 <= start -> exists end_, windowEnd text maxChunkSize start = Some end_.
Proof.
  intros Hs. unfold windowEnd.
  set (e := Z.min (start + maxChunkSize) (strlen text)).
  destruct (e <? strlen text) eqn:E; [|eauto].
  apply Z.ltb_lt in E.
  destruct (Z_le_gt_dec 0 (2 * start + maxChunkSize)) as [Hb|Hb].
  - destruct (scanBack_total (Z.to_nat e) text _ Hb e) as [r Hr]; [lia|].
    rewrite Hr. eauto.
  - rewrite scanBack_stops; [eauto|]. unfold e. lia.
Qed.

(** The loop returns as soon as its fuel exceeds the distance left to the
    end of the text. *)
Lemma chunkLoop_total (text : string) (maxChunkSize overlap : Z) :
  forall fuel start chunks,
    0 <= start -> Z.max 0 (strlen text - start) < Z.of_nat fuel ->
    exists out, chunkLoop fuel text maxChunkSize overlap start chunks = Some out.
Proof.
  induction fuel as [|fuel IH]; intros start chunks Hs Hf.
  - simpl in Hf. lia.
  - simpl. destruct (start <? strlen text) eqn:E; [|eauto].
    apply Z.ltb_lt in E.
    destruct (windowEnd_total text maxChunkSize start Hs) as [end_ He].
    rewrite He.
    destruct (nextStart start end_ overlap >=? strlen text) eqn:G; [eauto|].
    pose proof (nextStart_gt start end_ overlap).
    apply IH; lia.
Qed.

Lemma meaningful_spec (s : string) : meaningful s = (50 <? strlen s).
Proof.
  unfold meaningful, minMeaningful.
  destruct (strlen s >? 50) eqn:E, (50 <? strlen s) eqn:F; try reflexivity.
  - apply Z.gtb_lt in E. apply Z.ltb_ge in F. lia.
  - apply Z.ltb_lt in F. rewrite Z.gtb_ltb in E. apply Z.ltb_ge in E. lia.
Qed.

Lemma chunkLoop_emitted (text : string) (maxChunkSize overlap : Z) :
  forall fuel start chunks out,
    chunkLoop fuel text maxChunkSize overlap start chunks = Some out ->
    out = chunks ++ emitted mkChunk text
                      (windowsFrom fuel text maxChunkSize overlap start).
Proof.
  unfold emitted, windowText.
  induction fuel as [|fuel IH]; intros start chunks out H; simpl in H.
  - discriminate.
  - simpl. destruct (start <? strlen text) eqn:E.
    + destruct (windowEnd text maxChunkSize start) as [end_|]; [|discriminate].
      rewrite meaningful_spec in H. simpl.
      destruct (nextStart start end_ overlap >=? strlen text) eqn:G.
      * injection H as <-.
        assert (W : windowsFrom fuel text maxChunkSize overlap
                      (nextStart start end_ overlap) = []).
        { clear IH. destruct fuel; simpl; [reflexivity|].
          rewrite Z.geb_leb in G. apply Z.leb_le in G.
          destruct (nextStart start end_ overlap <? strlen text) eqn:L;
            [|reflexivity].
          apply Z.ltb_lt in L. lia. }
        rewrite W.
        destruct (50 <? strlen (trim (slice text start end_)));
          simpl; [reflexivity | now rewrite app_nil_r].
      * apply IH in H. rewrite H.
        destruct (50 <? strlen (trim (slice text start end_)));
          simpl; [now rewrite <- app_assoc | reflexivity].
    + injection H as <-. simpl. now rewrite app_nil_r.
Qed.

Lemma windowsFrom_starts (text : string) (maxChunkSize overlap : Z) :
  forall fuel start w,
    0 <= start ->
    In w (windowsFrom fuel text maxChunkSize overlap start) ->
    0 <= fst w < strlen text.
Proof.
  induction fuel as [|fuel IH]; intros start w Hs Hin; simpl in Hin.
  - contradiction.
  - destruct (start <? strlen text) eqn:E; [|contradiction].
    apply Z.ltb_lt in E.
    destruct (windowEnd text maxChunkSize start) as [end_|]; [|contradiction].
    destruct Hin as [<-|Hin]; [simpl; lia|].
    pose proof (nextStart_gt start end_ overlap).
    eapply IH; [|exact Hin]. lia.
Qed.

Lemma windowsFrom_increasing (text : string) (maxChunkSize overlap : Z) :
  forall fuel start,
    Forall (fun w => start <= fst w)
      (windowsFrom fuel text maxChunkSize overlap start) /\
    StronglySorted Z.lt
      (map fst (windowsFrom fuel text maxChunkSize overlap start)).
Proof.
  induction fuel as [|fuel IH]; intros start; simpl.
  - split; constructor.
  - destruct (start <? strlen text); [|split; constructor].
    destruct (windowEnd text maxChunkSize start) as [end_|];
      [|split; constructor].
    destruct (IH (nextStart start end_ overlap)) as [Hlo Hs].
    pose proof (nextStart_gt start end_ overlap) as Hgt.
    split.
    + constructor; [simpl; lia|].
      eapply Forall_impl; [|exact Hlo]. simpl. intros; lia.
    + simpl. constructor; [exact Hs|].
      apply Forall_map. eapply Forall_impl; [|exact Hlo]. simpl. intros; lia.
Qed.

Section EnhancedProperties.

Variable extractKeywords : string -> list string.
Variable calculateImportance : string -> number.

Let describe := describe extractKeywords calculateImportance.
Let enhancedLoop := enhancedLoop extractKeywords calculateImportance.

Lemma enhancedLoop_total (text : string) (maxChunkSize overlap : Z) :
  forall fuel start chunks,
    Z.max 0 (strlen text - start) < Z.of_nat fuel ->
    exists out,
      enhancedLoop fuel text maxChunkSize overlap start chunks = Some out.
Proof.
  induction fuel as [|fuel IH]; intros start chunks Hf.
  - simpl in Hf. lia.
  - simpl. destruct (start <? strlen text) eqn:E; [|eauto].
    apply Z.ltb_lt in E.
    set (end_ := enhancedWindowEnd text maxChunkSize start).
    destruct (nextStart start end_ overlap >=? strlen text) eqn:G; [eauto|].
    pose proof (nextStart_gt start end_ overlap).
    apply IH; lia.
Qed.

Lemma enhancedLoop_emitted (text : string) (maxChunkSize overlap : Z) :
  forall fuel start chunks out,
    enhancedLoop fuel text maxChunkSize overlap start chunks = Some out ->
    out = chunks ++ emitted describe text
                      (enhancedWindowsFrom fuel text maxChunkSize overlap start).
Proof.
  unfold emitted, windowText.
  induction fuel as [|fuel IH]; intros start chunks out H; simpl in H.
  - discriminate.
  - simpl. destruct (start <? strlen text) eqn:E.
    + set (end_ := enhancedWindowEnd text maxChunkSize start) in *.
      rewrite meaningful_spec in H. simpl.
      destruct (nextStart start end_ overlap >=? strlen text) eqn:G.
      * injection H as <-.
        assert (W : enhancedWindowsFrom fuel text maxChunkSize overlap
                      (nextStart start end_ overlap) = []).
        { clear IH. destruct fuel; simpl; [reflexivity|].
          rewrite Z.geb_leb in G. apply Z.leb_le in G.
          destruct (nextStart start end_ overlap <? strlen text) eqn:L;
            [|reflexivity].
          apply Z.ltb_lt in L. lia. }
        rewrite W.
        destruct (50 <? strlen (trim (slice text start end_)));
          simpl; [reflexivity | now rewrite app_nil_r].
      * apply IH in H. rewrite H.
        destruct (50 <? strlen (trim (slice text start end_)));
          simpl; [now rewrite <- app_assoc | reflexivity].
    + injection H as <-. simpl. now rewrite app_nil_r.
Qed.

End EnhancedProperties.

Lemma chunkTextWithOverlap_total (text : string) (maxChunkSize overlap : Z) :
  exists chunks, chunkTextWithOverlap text maxChunkSize overlap = Some chunks.
Proof.
  apply chunkLoop_total; [lia|].
  pose proof (strlen_nonneg text). unfold strlen in *. lia.
Qed.

Lemma chunkTextWithOverlap_emitted (text : string) (maxChunkSize overlap : Z) :
  chunkTextWithOverlap text maxChunkSize overlap =
  Some (emitted mkChunk text (windows text maxChunkSize overlap)).
Proof.
  destruct (chunkTextWithOverlap_total text maxChunkSize overlap) as [out H].
  rewrite H. f_equal. now apply chunkLoop_emitted in H.
Qed.

(** C7: in [chunkTextWithOverlap] the start index strictly increases at
    every iteration, whatever the text, the window size and the overlap
    are, and the function returns on every input. *)
Theorem chunkTextWithOverlap_progress_terminates :
  forall (text : string) (maxChunkSize overlap : Z),
    (forall start end_, start < nextStart start end_ overlap) /\
    StronglySorted Z.lt (map fst (windows text maxChunkSize overlap)) /\
    exists chunks, chunkTextWithOverlap text maxChunkSize overlap = Some chunks.
Proof.
  intros text maxChunkSize overlap. split; [|split].
  - intros. apply nextStart_gt.
  - apply windowsFrom_increasing.
  - apply chunkTextWithOverlap_total.
Qed.

(** C8, as the code has it: both fixed-window chunkers emit a window
    exactly when its trimmed text is longer than 50 characters, that is 51
    characters or more; what they return is the list of those windows, in
    the order visited. *)
Theorem chunkers_emit_windows_longer_than_50 :
  forall (text : string) (maxChunkSize overlap : Z),
    chunkTextWithOverlap text maxChunkSize overlap =
      Some (map (fun w => mkChunk (windowText text w) (fst w) (snd w))
              (filter (fun w => 50 <? strlen (windowText text w))
                 (windows text maxChunkSize overlap))) /\
    forall extractKeywords calculateImportance,
      enhancedChunkTextWithOverlap extractKeywords calculateImportance
        text maxChunkSize overlap =
      Some (map (fun w => describe extractKeywords calculateImportance
                            (windowText text w) (fst w) (snd w))
              (filter (fun w => 50 <? strlen (windowText text w))
                 (enhancedWindows text maxChunkSize overlap))).
Proof.
  intros text maxChunkSize overlap. split.
  - apply chunkTextWithOverlap_emitted.
  - intros ek ci. unfold enhancedChunkTextWithOverlap, enhancedWindows.
    destruct (enhancedLoop_total ek ci text maxChunkSize overlap
                (S (String.length text)) 0 []) as [out H].
    { pose proof (strlen_nonneg text). unfold strlen in *. lia. }
    rewrite H. f_equal. now apply enhancedLoop_emitted in H.
Qed.

(** C8 as stated fails: a text of exactly 50 characters is one window whose
    trimmed text reaches 50 characters, and both chunkers drop it. *)
Lemma window_of_50_chars_dropped :
  In (0, 50) (windows fiftyChars 1000 100) /\
  strlen (windowText fiftyChars (0, 50)) = 50 /\
  chunkTextWithOverlap fiftyChars 1000 100 = Some [] /\
  forall extractKeywords calculateImportance,
    In (0, 50) (enhancedWindows fiftyChars 1000 200) /\
    enhancedChunkTextWithOverlap extractKeywords calculateImportance
      fiftyChars 1000 200 = Some [].
Proof.
  split; [vm_compute; left; reflexivity|].
  split; [vm_compute; reflexivity|].
  split; [vm_compute; reflexivity|].
  intros extractKeywords calculateImportance.
  split; [vm_compute; left; reflexivity | vm_compute; reflexivity].
Qed.

(** ** Page numbers *)

Lemma pageNumber_div (chunkStart textLength numPages : Z) :
  textLength <> 0 ->
  pageNumber chunkStart textLength numPages
  = chunkStart * numPages / textLength + 1.
Proof.
  intros Hl. unfold pageNumber. f_equal.
  rewrite Zdiv_Qdiv. apply Qfloor_comp.
  rewrite inject_Z_mult. field.
  intros H. apply Hl. now apply (inject_Z_injective textLength 0).
Qed.

Lemma pageNumber_bounds (chunkStart textLength numPages : Z) :
  0 <= chunkStart < textLength -> 0 < numPages ->
  1 <= pageNumber chunkStart textLength numPages <= numPages.
Proof.
  intros Hs Hn. rewrite pageNumber_div by lia.
  assert (0 <= chunkStart * numPages / textLength)
    by (apply Z.div_pos; nia).
  assert (chunkStart * numPages / textLength < numPages)
    by (apply Z.div_lt_upper_bound; nia).
  lia.
Qed.

Lemma chunk_starts_inside (text : string) (maxChunkSize overlap : Z)
    (chunks : list Chunk) (c : Chunk) :
  chunkTextWithOverlap text maxChunkSize overlap = Some chunks ->
  In c chunks -> 0 <= chunk_start c < strlen text.
Proof.
  rewrite chunkTextWithOverlap_emitted. intros [= <-] Hin.
  unfold emitted in Hin. apply in_map_iff in Hin as [w [<- Hw]].
  apply filter_In in Hw as [Hw _]. simpl.
  eapply windowsFrom_starts; [|exact Hw]. lia.
Qed.

(** C10: the page number stored with a chunk of [chunkTextWithOverlap]
    lies between 1 and [numPages], for every positive [numPages]. *)
Theorem pageNumber_in_range :
  forall (text : string) (maxChunkSize overlap numPages : Z)
         (chunks : list Chunk) (c : Chunk),
    chunkTextWithOverlap text maxChunkSize overlap = Some chunks ->
    In c chunks ->
    0 < numPages ->
    1 <= pageNumber (chunk_start c) (strlen text) numPages <= numPages.
Proof.
  intros text maxChunkSize overlap numPages chunks c Hc Hin Hn.
  apply pageNumber_bounds; [|exact Hn].
  eapply chunk_starts_inside; eassumption.
Qed.

Lemma pageNumber_in_range_witness :
  chunk_start lastSampleChunk = 75 /\
  1 <= pageNumber (chunk_start lastSampleChunk) (strlen sampleText) 3 <= 3.
Proof.
  split; [vm_compute; reflexivity|].
  apply (pageNumber_in_range sampleText 100 20 3 sampleChunks lastSampleChunk).
  - vm_compute. reflexivity.
  - vm_compute. right. left. reflexivity.
  - lia.
Defined.

(** ** Query expansion *)

Lemma sliceTo_firstn {A} (xs : list A) (limit : Z) :
  0 <= limit -> sliceTo xs limit = firstn (Z.to_nat limit) xs.
Proof.
  intros H. unfold sliceTo, relIndex.
  destruct (limit <? 0) eqn:E; [apply Z.ltb_lt in E; lia|].
  destruct (Z_le_gt_dec limit (Z.of_nat (List.length xs))) as [L|L].
  - now rewrite Z.min_l by lia.
  - rewrite Z.min_r by lia. rewrite Nat2Z.id.
    rewrite firstn_all. symmetry. apply firstn_all2. lia.
Qed.

Lemma In_firstn {A} (n : nat) (xs : list A) (x : A) :
  In x (firstn n xs) -> In x xs.
Proof.
  intros H. rewrite <- (firstn_skipn n xs). apply in_or_app. now left.
Qed.

Lemma variationsOf_at_most_five (completion : ChatCompletion)
    (variations : list string) :
  QueryRefiner.variationsOf completion = Return variations ->
  (List.length variations <= 5)%nat.
Proof.
  destruct completion; simpl; intros [= <-]; simpl; try lia.
  rewrite sliceTo_firstn by lia.
  rewrite length_firstn. change (Z.to_nat 5) with 5%nat. lia.
Qed.

(** The expansion always returns, and what it returns starts with the
    query. *)
Lemma generateQueryVariations_returns
    (create : ChatRequest -> outcome ChatCompletion) (query : string) :
  exists variations,
    QueryRefiner.generateQueryVariations create query
    = Return (query :: variations) /\
    (List.length variations <= 5)%nat.
Proof.
  unfold QueryRefiner.generateQueryVariations.
  destruct (create (QueryRefiner.variationsRequest query))
    as [completion|e]; simpl.
  - destruct (QueryRefiner.variationsOf completion) as [vs|e'] eqn:V; simpl.
    + exists vs. split; [reflexivity|].
      eapply variationsOf_at_most_five; eassumption.
    + exists []. split; [reflexivity | simpl; lia].
  - exists []. split; [reflexivity | simpl; lia].
Qed.

(** C5, as the code has it: the expansion returns the verbatim query
    followed by at most 5 variants, each a non-blank line of the
    collaborator's reply with its list numbering stripped and trimmed; the
    variants are not deduplicated. *)
Theorem generateQueryVariations_query_then_at_most_5 :
  forall (create : ChatRequest -> outcome ChatCompletion) (query : string),
  exists variations,
    QueryRefiner.generateQueryVariations create query
    = Return (query :: variations) /\
    (List.length variations <= 5)%nat /\
    forall text,
      create (QueryRefiner.variationsRequest query) = Return (Content text) ->
      forall v, In v variations ->
        exists line, In line (splitLines text) /\
                     nonEmpty (trim line) = true /\
                     v = trim (stripNumbering line).
Proof.
  intros create query.
  destruct (generateQueryVariations_returns create query) as [vs [H L]].
  exists vs. split; [exact H|]. split; [exact L|].
  intros text Hc v Hv.
  unfold QueryRefiner.generateQueryVariations in H. rewrite Hc in H.
  simpl in H. injection H as <-.
  rewrite sliceTo_firstn in Hv by lia.
  apply In_firstn in Hv. apply in_map_iff in Hv as [line [<- Hl]].
  apply filter_In in Hl as [Hl Hne]. eauto.
Qed.

(** C5 as stated fails: on a reply of five lines the expansion adds five
    variants, one of them the query itself and two of them equal up to
    case. *)
Lemma generateQueryVariations_five_with_duplicates :
  QueryRefiner.generateQueryVariations
    (fun _ => Return (Content duplicatedReply)) "a"
  = Return ["a"; "a"; "A"; "b"; "c"; "d"] /\
  ~ NoDup (map toLowerCase ["a"; "a"; "A"; "b"; "c"; "d"]).
Proof.
  split; [vm_compute; reflexivity|].
  intros H. inversion H as [|x l Hn _]; subst.
  apply Hn. left. reflexivity.
Qed.

Lemma generateQueryVariations_query_then_at_most_5_witness :
  exists line,
    In line (splitLines duplicatedReply) /\
    nonEmpty (trim line) = true /\
    "A" = trim (stripNumbering line).
Proof.
  destruct (generateQueryVariations_query_then_at_most_5
              (fun _ => Return (Content duplicatedReply)) "a")
    as [variations [H [_ Hv]]].
  vm_compute in H. injection H as <-.
  apply (Hv duplicatedReply eq_refl "A").
  right. left. reflexivity.
Defined.

(** C6: the expansion never raises; its first element is the query on
    every outcome of the collaborator, and it is exactly [[query]] when
    the collaborator call fails. *)
Theorem generateQueryVariations_total_query_first :
  forall (create : ChatRequest -> outcome ChatCompletion) (query : string),
    (exists variations,
       QueryRefiner.generateQueryVariations create query
       = Return (query :: variations)) /\
    ((exists error,
        create (QueryRefiner.variationsRequest query) = Throw error) ->
     QueryRefiner.generateQueryVariations create query = Return [query]).
Proof.
  intros create query. split.
  - destruct (generateQueryVariations_returns create query) as [vs [H _]].
    eauto.
  - intros [e He]. unfold QueryRefiner.generateQueryVariations.
    rewrite He. reflexivity.
Qed.

Lemma generateQueryVariations_total_query_first_witness :
  QueryRefiner.generateQueryVariations (fun _ => Throw "timeout") "refund policy"
  = Return ["refund policy"].
Proof.
  apply (generateQueryVariations_total_query_first
           (fun _ => Throw "timeout") "refund policy").
  exists "timeout". reflexivity.
Defined.

(** ** Answer synthesis *)



(** ** Diversification *)

Lemma FOP_snoc {A} (R : A -> A -> Prop) (l : list A) (c : A) :
  ForallOrdPairs R l -> Forall (fun x => R x c) l ->
  ForallOrdPairs R (l ++ [c]).
Proof.
  induction 1 as [|a l Ha Hl IH]; intros Hc; simpl.
  - constructor; constructor.
  - inversion Hc; subst. constructor; [|now apply IH].
    apply Forall_app. split; [exact Ha | now constructor].
Qed.

Lemma shouldInclude_true (maxSimilarity : number) (candidate : SearchResult)
    (diversified : list SearchResult) :
  ResultRanker.shouldInclude maxSimilarity candidate diversified = true <->
  Forall (fun selected => notAbove maxSimilarity selected candidate) diversified.
Proof.
  unfold notAbove. induction diversified as [|sel ds IH]; simpl.
  - split; [constructor | reflexivity].
  - destruct (gtb _ maxSimilarity) eqn:E.
    + split; [discriminate|]. intros H. inversion H; subst. congruence.
    + rewrite IH. split; [now constructor | now inversion 1].
Qed.

Lemma diversifyFrom_pairs (maxSimilarity : number) :
  forall rest diversified,
    ForallOrdPairs (notAbove maxSimilarity) diversified ->
    ForallOrdPairs (notAbove maxSimilarity)
      (ResultRanker.diversifyFrom maxSimilarity rest diversified).
Proof.
  induction rest as [|c rest IH]; intros diversified H; simpl; [exact H|].
  apply IH.
  destruct (ResultRanker.shouldInclude maxSimilarity c diversified) eqn:E;
    [|exact H].
  apply FOP_snoc; [exact H|]. now apply shouldInclude_true.
Qed.

Lemma diversifyFrom_head (maxSimilarity : number) :
  forall rest top diversified,
    hd_error (ResultRanker.diversifyFrom maxSimilarity rest (top :: diversified))
    = Some top.
Proof.
  induction rest as [|c rest IH]; intros top diversified;
    [reflexivity|].
  cbn [ResultRanker.diversifyFrom].
  destruct (ResultRanker.shouldInclude maxSimilarity c (top :: diversified));
    [rewrite <- app_comm_cons|]; apply IH.
Qed.

(** C4, as the code has it: the top result is always kept, and of any
    two results kept the later one's token-set similarity to the earlier
    one is not above the threshold (a candidate whose similarity equals
    the threshold is kept). *)
Theorem diversifyResults_similarity_not_above_threshold :
  forall (results : list SearchResult) (maxSimilarity : number),
    hd_error (ResultRanker.diversifyResults results maxSimilarity)
    = hd_error results /\
    ForallOrdPairs
      (fun earlier later =>
         gtb (ResultRanker.calculateTextSimilarity
                (content later) (content earlier))
             maxSimilarity = false)
      (ResultRanker.diversifyResults results maxSimilarity).
Proof.
  intros results maxSimilarity.
  destruct results as [|top [|next rest]].
  - split; [reflexivity | constructor].
  - split; [reflexivity | constructor; constructor].
  - unfold ResultRanker.diversifyResults.
    split; [apply diversifyFrom_head|].
    apply (diversifyFrom_pairs maxSimilarity). constructor; constructor.
Qed.

(** C4 as stated fails: at the default threshold 0.8 two results whose
    similarity is exactly 4/5 are both kept. *)
Lemma diversifyResults_keeps_similarity_at_threshold :
  ResultRanker.diversifyResults [fourWords; fiveWords]
    ResultRanker.defaultMaxSimilarity = [fourWords; fiveWords] /\
  ResultRanker.calculateTextSimilarity (content fiveWords) (content fourWords)
  = Fin (4 # 5) /\
  ltb (Fin (4 # 5)) ResultRanker.defaultMaxSimilarity = false.
Proof. repeat split; vm_compute; reflexivity. Qed.

(** ** Relevance score *)

Lemma nonneg_add (x y : number) : nonneg x -> nonneg y -> nonneg (add x y).
Proof.
  intros [a [-> Ha]] [b [-> Hb]]. exists (a + b)%Q.
  split; [reflexivity | lra].
Qed.

Lemma nonneg_mul (x y : number) : nonneg x -> nonneg y -> nonneg (mul x y).
Proof.
  intros [a [-> Ha]] [b [-> Hb]]. exists (a * b)%Q.
  split; [reflexivity | now apply Qmult_le_0_compat].
Qed.

Lemma nonneg_Fin (q : Q) : (0 <= q)%Q -> nonneg (Fin q).
Proof. intros H. exists q. now split. Qed.

Lemma nonneg_ratio (k n : nat) :
  (0 < n)%nat -> nonneg (div (ofNat k) (ofNat n)).
Proof.
  intros Hn. unfold ofNat, ofZ, div, Qsgn.
  assert (Hpos : (0 < inject_Z (Z.of_nat n))%Q).
  { change 0%Q with (inject_Z 0). rewrite <- Zlt_Qlt. lia. }
  assert (Hk : (0 <= inject_Z (Z.of_nat k))%Q).
  { change 0%Q with (inject_Z 0). rewrite <- Zle_Qle. lia. }
  rewrite (proj1 (Qgt_alt _ _) Hpos).
  eexists. split; [reflexivity|].
  apply Qle_shift_div_l; [exact Hpos|]. now rewrite Qmult_0_l.
Qed.

Lemma splitWsFrom_length (s cur : list ascii) (afterSep : bool) :
  (0 < List.length (splitWsFrom s cur afterSep))%nat.
Proof.
  revert cur afterSep. induction s as [|c s IH]; intros cur afterSep; simpl.
  - lia.
  - destruct (isSpace c); [destruct afterSep|]; simpl; try apply IH; lia.
Qed.

Lemma min2_one_not_above (x : number) : gtb (min2 x one) one = false.
Proof.
  destruct x as [| | |q]; try reflexivity.
  unfold min2, one, gtb. simpl.
  destruct (Qltb 1 q) eqn:E; [reflexivity | exact E].
Qed.

Lemma min2_one_range (x : number) :
  nonneg x -> exists q, min2 x one = Fin q /\ (0 <= q <= 1)%Q.
Proof.
  intros [q [-> Hq]]. unfold min2, one. simpl. unfold Qltb.
  destruct (1 ?= q)%Q eqn:E.
  - apply Qeq_alt in E. exists q. split; [reflexivity | lra].
  - exists 1%Q. split; [reflexivity | lra].
  - apply Qgt_alt in E. exists q. split; [reflexivity | lra].
Qed.

(** C3, as the code has it: the relevance score is never above 1 (the
    code caps it with [Math.min(score, 1.0)] and has no lower clamp); it
    lies in [0,1] when the distance, if present, is a finite number at
    most 1 and the importance, if present, is a finite number that is not
    negative. *)
Theorem calculateRelevanceScore_capped_at_one :
  forall (result : SearchResult) (query : string),
    gtb (ResultRanker.calculateRelevanceScore result query) one = false /\
    ((forall d, distance result = Some d -> exists q, d = Fin q /\ (q <= 1)%Q) ->
     (forall i, importance result = Some i -> nonneg i) ->
     exists q, ResultRanker.calculateRelevanceScore result query = Fin q /\
               (0 <= q <= 1)%Q).
Proof.
  intros result query. unfold ResultRanker.calculateRelevanceScore.
  split; [apply min2_one_not_above|].
  intros Hd Hi. apply min2_one_range.
  set (ratio := div _ _).
  assert (Hratio : nonneg ratio).
  { apply nonneg_ratio. apply splitWsFrom_length. }
  set (score0 := match distance result with
                 | Some d => if truthy d then sub one d else Fin (1 # 2)
                 | None => Fin (1 # 2)
                 end).
  assert (H0 : nonneg score0).
  { unfold score0. destruct (distance result) as [d|];
      [|apply nonneg_Fin; lra].
    destruct (Hd d eq_refl) as [q [-> Hq]].
    destruct (truthy (Fin q)); [|apply nonneg_Fin; lra].
    exists (1 + - q)%Q. split; [reflexivity | lra]. }
  set (score1 := add score0 _).
  assert (H1 : nonneg score1).
  { apply nonneg_add; [exact H0|].
    apply nonneg_mul; [exact Hratio | apply nonneg_Fin; lra]. }
  set (score2 := match importance result with
                 | Some i => _
                 | None => score1
                 end).
  assert (H2 : nonneg score2).
  { unfold score2. destruct (importance result) as [i|]; [|exact H1].
    destruct (truthy i); [|exact H1].
    apply nonneg_add; [exact H1|].
    apply nonneg_mul; [now apply Hi | apply nonneg_Fin; lra]. }
  set (score3 := if includes _ _ then _ else score2).
  assert (H3 : nonneg score3).
  { unfold score3. destruct (includes _ _); [|exact H2].
    apply nonneg_add; [exact H2 | apply nonneg_Fin; lra]. }
  destruct (_ || _)%bool; [|exact H3].
  apply nonneg_mul; [exact H3 | apply nonneg_Fin; lra].
Qed.

Lemma calculateRelevanceScore_capped_at_one_witness :
  exists q, ResultRanker.calculateRelevanceScore closeHit "refunds" = Fin q /\
            (0 <= q <= 1)%Q.
Proof.
  apply (calculateRelevanceScore_capped_at_one closeHit "refunds").
  - intros d [= <-]. exists (1 # 4). split; [reflexivity | lra].
  - intros i [= <-]. exists (3 # 10). split; [reflexivity | lra].
Defined.

(** C3 as stated fails: at cosine distance 2 the score is negative. *)
Lemma calculateRelevanceScore_negative :
  ltb (ResultRanker.calculateRelevanceScore farHit "x") zero = true.
Proof. vm_compute. reflexivity. Qed.

(** ** Order on numbers *)

Lemma Qltb_true (a b : Q) : Qltb a b = true <-> (a < b)%Q.
Proof.
  unfold Qltb. rewrite Qlt_alt.
  destruct (a ?= b)%Q; split; congruence.
Qed.

Lemma Qltb_false (a b : Q) : Qltb a b = false <-> (b <= a)%Q.
Proof.
  split; intros H.
  - apply Qnot_lt_le. intros L. apply Qltb_true in L. congruence.
  - destruct (Qltb a b) eqn:E; [|reflexivity].
    apply Qltb_true in E. lra.
Qed.

Ltac number_cases := simpl in *; try congruence; try tauto.

(** The comparator of the sort is positive exactly when its first
    argument has the smaller score. *)
Lemma sub_positive (x y : number) :
  x <> NaN -> y <> NaN -> gtb (sub y x) (Fin 0) = ltb x y.
Proof.
  intros Hx Hy. unfold gtb, sub.
  destruct x as [| | |a], y as [| | |b]; number_cases.
  destruct (Qltb a b) eqn:E.
  - apply Qltb_true in E. apply Qltb_true. lra.
  - apply Qltb_false in E. apply Qltb_false. lra.
Qed.

Lemma ltb_asym (x y : number) : ltb x y = true -> ltb y x = false.
Proof.
  destruct x as [| | |a], y as [| | |b]; number_cases.
  intros H. apply Qltb_true in H. apply Qltb_false. lra.
Qed.

Lemma numEq_not_ltb (x y : number) :
  numEq x y -> ltb x y = false /\ ltb y x = false.
Proof.
  destruct x as [| | |a], y as [| | |b]; number_cases.
  intros H. split; apply Qltb_false; lra.
Qed.

Lemma ltb_irrefl (x : number) : ltb x x = false.
Proof.
  destruct (ltb x x) eqn:E; [|reflexivity].
  pose proof (ltb_asym _ _ E). congruence.
Qed.

Lemma ltb_tricho (x y : number) :
  x <> NaN -> y <> NaN -> ltb x y = false ->
  ltb y x = true \/ numEq x y.
Proof.
  intros Hx Hy.
  destruct x as [| | |a], y as [| | |b]; number_cases.
  intros H. apply Qltb_false in H.
  destruct (Qltb b a) eqn:E; [now left | right].
  apply Qltb_false in E. lra.
Qed.

Lemma ltb_false_trans (x y z : number) :
  y <> NaN -> ltb x y = false -> ltb y z = false -> ltb x z = false.
Proof.
  intros Hy.
  destruct x as [| | |a], y as [| | |b], z as [| | |c]; number_cases.
  intros H1 H2.
  apply Qltb_false in H1, H2. apply Qltb_false. lra.
Qed.

(** ** The stable sort *)

Section StableSort.

Variable A : Type.
Variable key : A -> number.
Variable before : A -> A -> Prop.

Let cmp (a b : A) : number := sub (key b) (key a).

Lemma insertBy_perm (x : A) (l : list A) :
  Permutation (insertBy cmp x l) (x :: l).
Proof.
  induction l as [|y l IH]; cbn [insertBy]; [reflexivity|].
  destruct (gtb (cmp x y) (Fin 0)); [|reflexivity].
  rewrite IH. apply perm_swap.
Qed.

Lemma sortBy_perm (l : list A) : Permutation (sortBy cmp l) l.
Proof.
  induction l as [|x l IH]; [reflexivity|].
  unfold sortBy. cbn [fold_right]. fold (sortBy cmp l).
  rewrite insertBy_perm. now constructor.
Qed.

Lemma descending_from (x y z : A) :
  key x <> NaN -> key y <> NaN -> key z <> NaN ->
  ltb (key x) (key y) = false ->
  (z = y \/ descending key before y z) -> before x z ->
  descending key before x z.
Proof.
  intros Hx Hy Hz Hxy Hyz Hb. unfold descending.
  assert (Hzy : ltb (key y) (key z) = false).
  { destruct Hyz as [->|[H|[H _]]].
    - apply ltb_irrefl.
    - now apply ltb_asym.
    - exact (proj1 (numEq_not_ltb _ _ H)). }
  pose proof (ltb_false_trans _ _ _ Hy Hxy Hzy) as Hxz.
  destruct (ltb_tricho _ _ Hx Hz Hxz) as [L|L]; [now left | now right].
Qed.

Lemma insertBy_sorted (x : A) (l : list A) :
  Forall (fun a => key a <> NaN) (x :: l) ->
  Forall (before x) l ->
  StronglySorted (descending key before) l ->
  StronglySorted (descending key before) (insertBy cmp x l).
Proof.
  intros Hn Hb Hs. induction Hs as [|y l Hs IH Hy]; cbn [insertBy].
  - constructor; constructor.
  - inversion Hn as [|? ? Hx Hn']; subst.
    inversion Hn' as [|? ? Hky Hnl]; subst.
    inversion Hb as [|? ? Hxy Hbl]; subst.
    unfold cmp at 1. rewrite (sub_positive _ _ Hx Hky).
    destruct (ltb (key x) (key y)) eqn:E.
    + constructor.
      * apply IH; [now constructor | exact Hbl].
      * eapply Permutation_Forall;
          [symmetry; apply insertBy_perm|].
        constructor; [now left | exact Hy].
    + constructor; [now constructor|].
      constructor.
      * apply (descending_from x y y); auto.
      * rewrite Forall_forall in *. intros z Hz.
        apply (descending_from x y z); auto.
Qed.

Lemma sortBy_sorted (l : list A) :
  Forall (fun a => key a <> NaN) l ->
  StronglySorted before l ->
  StronglySorted (descending key before) (sortBy cmp l).
Proof.
  intros Hn Hs. induction Hs as [|x l Hs IH Hx]; [constructor|].
  unfold sortBy. cbn [fold_right]. fold (sortBy cmp l).
  inversion Hn as [|? ? Hkx Hnl]; subst.
  apply insertBy_sorted.
  - constructor; [exact Hkx|].
    eapply Permutation_Forall; [symmetry; apply sortBy_perm | exact Hnl].
  - eapply Permutation_Forall; [symmetry; apply sortBy_perm | exact Hx].
  - now apply IH.
Qed.

End StableSort.


(** ** The insertion-ordered map *)

Lemma Map_has_In {V} (key : string) (m : JsMap V) :
  Map_has key m = true <-> In key (Map_keys m).
Proof.
  induction m as [|[k v] m IH]; simpl; [split; [discriminate | tauto]|].
  rewrite orb_true_iff, IH, String.eqb_eq. tauto.
Qed.

Lemma Map_set_fresh {V} (key : string) (v : V) (m : JsMap V) :
  Map_has key m = false -> Map_set key v m = m ++ [(key, v)].
Proof.
  induction m as [|[k w] m IH]; simpl; [reflexivity|].
  intros H. apply orb_false_iff in H as [E H].
  rewrite E. now rewrite IH.
Qed.

Lemma Map_update_Forall {V} (P : string * V -> Prop) (key : string)
    (f : V -> V) (m : JsMap V) :
  (forall v, In (key, v) m -> P (key, v) -> P (key, f v)) ->
  Forall P m -> Forall P (Map_update key f m).
Proof.
  induction m as [|[k w] m IH]; intros Hf H; simpl; [constructor|].
  inversion H as [|? ? Hw Hm]; subst.
  destruct (String.eqb k key) eqn:E.
  - apply String.eqb_eq in E. subst k.
    constructor; [|exact Hm]. apply Hf; [now left | exact Hw].
  - constructor; [exact Hw|]. apply IH; [|exact Hm].
    intros v Hv. apply Hf. now right.
Qed.

Lemma StronglySorted_snoc {A} (R : A -> A -> Prop) (l : list A) (x : A) :
  StronglySorted R l -> Forall (fun a => R a x) l ->
  StronglySorted R (l ++ [x]).
Proof.
  induction 1 as [|a l Hs IH Ha]; intros Hx; simpl.
  - constructor; constructor.
  - inversion Hx; subst. constructor; [now apply IH|].
    apply Forall_app. split; [exact Ha | now constructor].
Qed.

Lemma StronglySorted_weaken {A} (R S : A -> A -> Prop) (l : list A) :
  (forall a b, R a b -> S a b) -> StronglySorted R l -> StronglySorted S l.
Proof.
  intros H. induction 1 as [|a l Hs IH Ha]; constructor; [exact IH|].
  eapply Forall_impl; [|exact Ha]. auto.
Qed.

(** An in-place update that respects the order keeps the values sorted. *)
Lemma Map_update_sorted {V} (R : V -> V -> Prop) (key : string)
    (f : V -> V) (m : JsMap V) :
  (forall v, In (key, v) m ->
     (forall a, R a v -> R a (f v)) /\ (forall b, R v b -> R (f v) b)) ->
  StronglySorted R (Map_values m) ->
  StronglySorted R (Map_values (Map_update key f m)).
Proof.
  induction m as [|[k w] m IH]; intros Hf H; simpl; [constructor|].
  simpl in H. inversion H as [|? ? Hs Hw]; subst.
  destruct (String.eqb k key) eqn:E.
  - apply String.eqb_eq in E. subst k. simpl.
    constructor; [exact Hs|].
    eapply Forall_impl; [|exact Hw].
    intros b. apply (Hf w). now left.
  - simpl. constructor.
    + apply IH; [|exact Hs]. intros v Hv. apply Hf. now right.
    + unfold Map_values in *. rewrite Forall_map. rewrite Forall_map in Hw.
      apply Map_update_Forall; [|exact Hw].
      simpl. intros v Hv. apply (Hf v). now right.
Qed.

(** ** Fusion: the order of [resultMap] *)

Lemma strictBefore_rankBefore (a b : Fused) :
  strictBefore a b -> rankBefore a b.
Proof.
  unfold strictBefore, rankBefore.
  destruct (vectorRank a), (vectorRank b); simpl; tauto.
Qed.

Lemma vectorPass_inv (vectorWeight maxCertainty : number) :
  forall xs index seen m,
    NoDup (map resultKey xs) ->
    (forall k, In k (map resultKey xs) -> ~ In k seen) ->
    vectorInv index seen m ->
    exists index' seen',
      vectorInv index' seen'
        (forEach (addVector vectorWeight maxCertainty) xs index m).
Proof.
  induction xs as [|x xs IH]; intros index seen m Hnd Hfresh [Hs Hm]; simpl.
  - exists index, seen. now split.
  - inversion Hnd as [|? ? Hx Hnd']; subst.
    assert (Hnot : Map_has (resultKey x) m = false).
    { destruct (Map_has (resultKey x) m) eqn:E; [|reflexivity].
      exfalso. apply Map_has_In in E. unfold Map_keys in E.
      apply in_map_iff in E as [p [Hk Hp]].
      rewrite Forall_forall in Hm. destruct (Hm p Hp) as [Hseen _].
      apply (Hfresh (resultKey x)); [now left | now rewrite <- Hk]. }
    unfold addVector at 2. rewrite (Map_set_fresh _ _ _ Hnot).
    apply (IH (index + 1) (resultKey x :: seen)); [exact Hnd'| |].
    + intros k Hk [<-|Hin]; [contradiction|].
      apply (Hfresh k); [now right | exact Hin].
    + split.
      * unfold Map_values. rewrite map_app. simpl.
        apply StronglySorted_snoc; [exact Hs|].
        apply Forall_map. eapply Forall_impl; [|exact Hm].
        intros p [_ [r [Hr Hle]]]. unfold strictBefore. simpl.
        rewrite Hr. lia.
      * apply Forall_app. split.
        -- eapply Forall_impl; [|exact Hm].
           intros p [Hin [r [Hr Hle]]]. split; [now right|].
           exists r. split; [exact Hr | lia].
        -- constructor; [|constructor]. simpl. split; [now left|].
           exists (index + 1). split; [reflexivity | lia].
Qed.

Lemma vectorInv_keywordInv (index : Z) (seen : list string) (m : JsMap Fused) :
  vectorInv index seen m -> keywordInv 0 [] m.
Proof.
  intros [Hs Hm]. split; [exact Hs|].
  eapply Forall_impl; [|exact Hm].
  intros p [_ [r [Hr _]]] Hnone. congruence.
Qed.

Lemma keywordPass_inv (keywordWeight maxBM25Score : number) :
  forall xs index seen m,
    NoDup (map resultKey xs) ->
    (forall k, In k (map resultKey xs) -> ~ In k seen) ->
    keywordInv index seen m ->
    exists index' seen',
      keywordInv index' seen'
        (forEach (addKeyword keywordWeight maxBM25Score) xs index m).
Proof.
  induction xs as [|x xs IH]; intros index seen m Hnd Hfresh [Hs Hm]; simpl.
  - exists index, seen. now split.
  - inversion Hnd as [|? ? Hx Hnd']; subst.
    assert (Hfresh' : forall k, In k (map resultKey xs) ->
                                ~ In k (resultKey x :: seen)).
    { intros k Hk [<-|Hin]; [contradiction|].
      apply (Hfresh k); [now right | exact Hin]. }
    assert (Hold : Forall
              (fun p => vectorRank (snd p) = None ->
                        In (fst p) (resultKey x :: seen) /\
                        exists r, keywordRank (snd p) = Some r /\
                                  r <= index + 1) m).
    { eapply Forall_impl; [|exact Hm].
      intros p Hp Hnone. destruct (Hp Hnone) as [Hin [r [Hr Hle]]].
      split; [now right|]. exists r. split; [exact Hr | lia]. }
    assert (Hranked : forall v, In (resultKey x, v) m -> vectorRank v <> None).
    { intros v Hv Hnone. rewrite Forall_forall in Hm.
      destruct (Hm _ Hv Hnone) as [Hin _].
      apply (Hfresh (resultKey x)); [now left | exact Hin]. }
    apply (IH (index + 1) (resultKey x :: seen)); [exact Hnd'|exact Hfresh'|].
    unfold addKeyword.
    destruct (Map_has (resultKey x) m) eqn:E.
    + split.
      * apply Map_update_sorted; [|exact Hs].
        intros v Hv. apply Hranked in Hv.
        unfold strictBefore. simpl.
        destruct (vectorRank v); [|congruence]. tauto.
      * apply Map_update_Forall; [|exact Hold].
        simpl. intros v Hv _ Hnone. now apply Hranked in Hv.
    + rewrite (Map_set_fresh _ _ _ E). split.
      * unfold Map_values. rewrite map_app. simpl.
        apply StronglySorted_snoc; [exact Hs|].
        rewrite Forall_map. eapply Forall_impl; [|exact Hm].
        intros p Hp. unfold strictBefore. simpl.
        destruct (vectorRank (snd p)) eqn:Hv; [exact I|].
        destruct (Hp Hv) as [_ [r [Hr Hle]]].
        rewrite Hr. simpl. lia.
      * apply Forall_app. split; [exact Hold|].
        constructor; [|constructor]. simpl. intros _. split; [now left|].
        exists (index + 1). split; [reflexivity | lia].
Qed.

(** With no key repeated inside a list, [resultMap] holds its values by
    vector rank, then by lexical rank. *)
Lemma resultMapOf_by_rank (vectorResults keywordResults : list SearchResult)
    (vectorWeight : number) :
  NoDup (map resultKey vectorResults) ->
  NoDup (map resultKey keywordResults) ->
  StronglySorted rankBefore
    (Map_values (resultMapOf vectorResults keywordResults vectorWeight)).
Proof.
  intros Hv Hk. unfold resultMapOf, vectorPass.
  destruct (vectorPass_inv vectorWeight (maxCertaintyOf vectorResults)
              vectorResults 0 [] [] Hv) as [i [seen HV]].
  { intros k _ []. }
  { split; constructor. }
  apply vectorInv_keywordInv in HV.
  assert (Hnone : forall k, In k (map resultKey keywordResults) ->
                            ~ In k (@nil string)) by (intros k _ []).
  destruct (keywordPass_inv (sub one vectorWeight)
              (maxBM25ScoreOf keywordResults) keywordResults 0 [] _
              Hk Hnone HV) as [j [seen' [HK _]]].
  eapply StronglySorted_weaken; [|exact HK].
  apply strictBefore_rankBefore.
Qed.

(** ** Fusion: when no fused score is [NaN] *)

Lemma orElse_plain (o : option number) :
  plainScore o -> nonneg (orElse o zero).
Proof.
  destruct o as [[| | |q]|]; simpl; try tauto.
  - intros H. destruct (negb (Qeq_bool q 0)); apply nonneg_Fin; [exact H|lra].
  - intros _. apply nonneg_Fin. lra.
Qed.

Lemma max2_plain (x y : number) :
  x = NegInf \/ nonneg x -> nonneg y -> nonneg (max2 x y).
Proof.
  intros [->|[a [-> Ha]]] [b [-> Hb]]; simpl.
  - now apply nonneg_Fin.
  - destruct (Qltb a b); now apply nonneg_Fin.
Qed.

Lemma Math_max_plain (xs : list number) :
  Forall nonneg xs ->
  forall acc, acc = NegInf \/ nonneg acc ->
    fold_left max2 xs acc = NegInf \/ nonneg (fold_left max2 xs acc).
Proof.
  induction 1 as [|x xs Hx Hxs IH]; intros acc Hacc; simpl; [exact Hacc|].
  apply IH. right. now apply max2_plain.
Qed.

Lemma div_by_positive (x m : number) :
  nonneg x -> gtb m zero = true -> m = NegInf \/ nonneg m -> finite (div x m).
Proof.
  intros [a [-> Ha]] Hpos [->|[b [-> Hb]]]; [discriminate|].
  unfold gtb, zero in Hpos. simpl in Hpos. apply Qltb_true in Hpos.
  unfold div, Qsgn. rewrite (proj1 (Qgt_alt _ _) Hpos). now eexists.
Qed.

Lemma finite_mul (x y : number) : finite x -> finite y -> finite (mul x y).
Proof. intros [a ->] [b ->]. now eexists. Qed.

Lemma finite_add (x y : number) : finite x -> finite y -> finite (add x y).
Proof. intros [a ->] [b ->]. now eexists. Qed.

Lemma Map_set_Forall {V} (P : string * V -> Prop) (key : string) (v : V)
    (m : JsMap V) :
  P (key, v) -> Forall P m -> Forall P (Map_set key v m).
Proof.
  intros Hv. induction 1 as [|[k w] m Hw Hm IH]; simpl.
  - now constructor.
  - destruct (String.eqb k key) eqn:E.
    + apply String.eqb_eq in E. subst k. now constructor.
    + now constructor.
Qed.

Lemma forEach_inv {A S} (P : S -> Prop) (Q : A -> Prop) (f : S -> A -> Z -> S) :
  (forall s x i, P s -> Q x -> P (f s x i)) ->
  forall xs i s, Forall Q xs -> P s -> P (forEach f xs i s).
Proof.
  intros Hf. induction xs as [|x xs IH]; intros i s Hxs Hs; simpl; [exact Hs|].
  inversion Hxs; subst. apply IH; [assumption|]. now apply Hf.
Qed.

(** The fused scores are all finite when the scores of the store are
    plain, the weight is finite, and the vector list has a positive
    maximum certainty (or is empty). *)
Lemma resultMapOf_finite (vectorResults keywordResults : list SearchResult)
    (vectorWeight : number) :
  finite vectorWeight ->
  Forall (fun r => plainScore (certainty r)) vectorResults ->
  Forall (fun r => plainScore (score r)) keywordResults ->
  vectorResults = [] \/ gtb (maxCertaintyOf vectorResults) zero = true ->
  Forall (fun e => hybridScore e <> NaN)
    (Map_values (resultMapOf vectorResults keywordResults vectorWeight)).
Proof.
  intros Hw Hv Hk Hmax.
  assert (Hfin : finiteScores
                   (resultMapOf vectorResults keywordResults vectorWeight)).
  { unfold resultMapOf.
    assert (Hkw : finite (sub one vectorWeight)).
    { destruct Hw as [w ->]. now eexists. }
    assert (HmaxK : maxBM25ScoreOf keywordResults = NegInf \/
                    nonneg (maxBM25ScoreOf keywordResults)).
    { apply Math_max_plain; [|now left].
      apply Forall_map. eapply Forall_impl; [|exact Hk].
      intros r. apply orElse_plain. }
    apply (forEach_inv finiteScores (fun r => plainScore (score r)));
      [|exact Hk|].
    - intros m r i Hm Hr. unfold addKeyword.
      set (normalizedScore := if gtb _ zero then _ else zero).
      assert (Hn : finite normalizedScore).
      { unfold normalizedScore.
        destruct (gtb (maxBM25ScoreOf keywordResults) zero) eqn:E;
          [|now eexists].
        apply div_by_positive; [now apply orElse_plain | exact E | exact HmaxK]. }
      destruct (Map_has (resultKey r) m).
      + apply Map_update_Forall; [|exact Hm]. simpl. intros v _ Hf.
        apply finite_add; [exact Hf | now apply finite_mul].
      + apply Map_set_Forall; [|exact Hm]. simpl. now apply finite_mul.
    - unfold vectorPass. destruct Hmax as [->|Hmax]; [constructor|].
      assert (HmaxV : maxCertaintyOf vectorResults = NegInf \/
                      nonneg (maxCertaintyOf vectorResults)).
      { apply Math_max_plain; [|now left].
        apply Forall_map. eapply Forall_impl; [|exact Hv].
        intros r. apply orElse_plain. }
      apply (forEach_inv finiteScores (fun r => plainScore (certainty r)));
        [|exact Hv|constructor].
      intros m r i Hm Hr. unfold addVector.
      apply Map_set_Forall; [|exact Hm]. simpl.
      apply finite_mul; [|exact Hw].
      apply div_by_positive; [now apply orElse_plain | exact Hmax | exact HmaxV]. }
  unfold Map_values. rewrite Forall_map.
  eapply Forall_impl; [|exact Hfin].
  intros p [q Hq]. rewrite Hq. discriminate.
Qed.

(** C2, as the code has it: when no key repeats inside an input list and
    no fused score is [NaN], the output is the first [limit] entries, for
    a limit that is not negative, of the fused entries put in descending
    order of fused score, ties by vector-list rank and then by
    lexical-list rank. *)
Theorem fuseSearchResults_descending_ties_by_rank :
  forall (vectorResults keywordResults : list SearchResult)
         (vectorWeight : number) (limit : Z),
    NoDup (map resultKey vectorResults) ->
    NoDup (map resultKey keywordResults) ->
    Forall (fun e => hybridScore e <> NaN)
      (Map_values (resultMapOf vectorResults keywordResults vectorWeight)) ->
    0 <= limit ->
    exists ranked,
      Permutation ranked
        (Map_values (resultMapOf vectorResults keywordResults vectorWeight)) /\
      StronglySorted (descending hybridScore rankBefore) ranked /\
      fuseSearchResults vectorResults keywordResults vectorWeight limit
      = firstn (Z.to_nat limit) ranked.
Proof.
  intros vectorResults keywordResults vectorWeight limit Hv Hk Hn Hl.
  exists (sortBy byHybridScore
            (Map_values (resultMapOf vectorResults keywordResults vectorWeight))).
  split; [apply (sortBy_perm Fused hybridScore)|].
  split.
  - apply (sortBy_sorted Fused hybridScore rankBefore); [exact Hn|].
    now apply resultMapOf_by_rank.
  - unfold fuseSearchResults. now apply sliceTo_firstn.
Qed.

Ltac distinct_keys :=
  vm_compute; repeat constructor; simpl; intuition discriminate.

Lemma fuseSearchResults_descending_ties_by_rank_witness :
  exists ranked,
    Permutation ranked
      (Map_values (resultMapOf vectorHits lexicalHits (Fin (7 # 10)))) /\
    StronglySorted (descending hybridScore rankBefore) ranked /\
    fuseSearchResults vectorHits lexicalHits (Fin (7 # 10)) 2
    = firstn (Z.to_nat 2) ranked.
Proof.
  apply (fuseSearchResults_descending_ties_by_rank
           vectorHits lexicalHits (Fin (7 # 10)) 2).
  - distinct_keys.
  - distinct_keys.
  - apply resultMapOf_finite.
    + now exists (7 # 10).
    + repeat constructor; simpl; lra.
    + repeat constructor; simpl; lra.
    + right. vm_compute. reflexivity.
  - lia.
Defined.

(** C2 as stated fails.  When a key repeats in the vector list its entry
    keeps the place of the first occurrence and the rank of the last: two
    entries with equal fused scores come out with vector rank 3 ahead of
    vector rank 2.  And a negative limit is counted from the end: at
    limit [-1] two of three fused entries are returned. *)
Lemma fuseSearchResults_tie_against_rank :
  (exists a b,
     fuseSearchResults repeatedKeyHits [] (Fin (7 # 10)) 5 = [a; b] /\
     numEq (hybridScore a) (hybridScore b) /\
     vectorRank a = Some 3 /\ vectorRank b = Some 2) /\
  List.length (Map_values (resultMapOf vectorHits lexicalHits (Fin (7 # 10))))
  = 3%nat /\
  List.length (fuseSearchResults vectorHits lexicalHits (Fin (7 # 10)) (-1))
  = 2%nat.
Proof.
  split; [|split; vm_compute; reflexivity].
  eexists. eexists. split; [vm_compute; reflexivity|].
  split; [vm_compute; reflexivity|].
  split; reflexivity.
Qed.

(** ** Fusion: normalisation *)

(** The keyword pass guards its division: under a maximum that is not
    positive, the normalised score it stores is 0. *)
Lemma addKeyword_guarded (keywordWeight maxBM25Score : number)
    (resultMap : JsMap Fused) (result : SearchResult) (index : Z) :
  gtb maxBM25Score zero = false ->
  Map_has (resultKey result) resultMap = false ->
  addKeyword keywordWeight maxBM25Score resultMap result index
  = resultMap ++
    [(resultKey result,
      mkFused result (mul zero keywordWeight) zero zero None (Some (index + 1)))].
Proof.
  intros Hmax Hfresh. unfold addKeyword. rewrite Hmax, Hfresh.
  now apply Map_set_fresh.
Qed.

(** The vector pass does not: a zero certainty over a zero maximum is
    [NaN]. *)
Lemma addVector_unguarded (vectorWeight : number) (resultMap : JsMap Fused)
    (result : SearchResult) (index : Z) :
  orElse (certainty result) zero = zero ->
  Map_has (resultKey result) resultMap = false ->
  addVector vectorWeight zero resultMap result index
  = resultMap ++
    [(resultKey result, mkFused result NaN NaN zero (Some (index + 1)) None)].
Proof.
  intros Hc Hfresh. unfold addVector. rewrite Hc.
  rewrite (Map_set_fresh _ _ _ Hfresh).
  destruct vectorWeight; reflexivity.
Qed.

(** C1 fails on the vector list: with a zero certainty and an absent one
    the maximum is zero, and the vector pass stores [NaN], not 0, as
    normalised and fused score of both results; the keyword pass on the
    same results stores 0. *)
Theorem fuseSearchResults_zero_max_certainty_NaN :
  maxCertaintyOf zeroCertaintyHits = zero /\
  map hybridScore
    (fuseSearchResults zeroCertaintyHits [] (Fin (7 # 10)) 5) = [NaN; NaN] /\
  map vectorScore
    (fuseSearchResults zeroCertaintyHits [] (Fin (7 # 10)) 5) = [NaN; NaN] /\
  map keywordScore
    (fuseSearchResults [] zeroCertaintyHits (Fin (7 # 10)) 5) = [zero; zero].
Proof. repeat split; vm_compute; reflexivity. Qed.

(** * Further properties *)

(** ** Fixed-window chunker: window geometry *)

Lemma length_str (l : list ascii) : String.length (str l) = List.length l.
Proof. induction l as [|c l IH]; simpl; [reflexivity | now rewrite IH]. Qed.

Lemma length_chars (s : string) : List.length (chars s) = String.length s.
Proof. induction s as [|c s IH]; simpl; [reflexivity | now rewrite IH]. Qed.

Lemma length_dropWhile {A} (p : A -> bool) (l : list A) :
  (List.length (dropWhile p l) <= List.length l)%nat.
Proof.
  induction l as [|x l IH]; simpl; [lia|]. destruct (p x); simpl; lia.
Qed.

Lemma strlen_trim (s : string) : strlen (trim s) <= strlen s.
Proof.
  unfold strlen, trim. rewrite length_str, length_rev.
  pose proof (length_dropWhile isSpace (rev (dropWhile isSpace (chars s)))).
  rewrite length_rev in H.
  pose proof (length_dropWhile isSpace (chars s)).
  rewrite length_chars in *. lia.
Qed.

Lemma length_substring (n m : nat) (s : string) :
  (String.length (substring n m s) <= m)%nat.
Proof.
  revert n m. induction s as [|c s IH]; intros n m.
  - destruct n, m; simpl; lia.
  - destruct n as [|n].
    + destruct m as [|m]; simpl; [lia|]. specialize (IH 0%nat m). lia.
    + simpl. apply IH.
Qed.

Lemma strlen_slice (s : string) (from to : Z) :
  0 <= from <= to -> to <= strlen s -> strlen (slice s from to) <= to - from.
Proof.
  intros Hf Ht. unfold slice, relIndex.
  destruct (from <? 0) eqn:E1; [apply Z.ltb_lt in E1; lia|].
  destruct (to <? 0) eqn:E2; [apply Z.ltb_lt in E2; lia|].
  rewrite !Z.min_l by lia.
  pose proof (length_substring (Z.to_nat from) (Z.to_nat (to - from)) s).
  unfold strlen at 1. lia.
Qed.

(** What the backward scan yields: [-1], or one past a position it
    visited. *)
Lemma scanBack_range (text : string) (bound2 : Z) :
  forall fuel i r,
    scanBack fuel text bound2 i = Some r ->
    r = -1 \/ (bound2 < 2 * (r - 1) /\ r - 1 <= i).
Proof.
  induction fuel as [|fuel IH]; intros i r; rewrite scanBack_eq;
    destruct (2 * i >? bound2) eqn:E;
    try (intros [= <-]; now left);
    apply Z.gtb_lt in E;
    destruct (isSentenceEnd (charAt text i));
    try (intros [= <-]; right; lia); try discriminate.
  intros H. apply IH in H as [->|[H1 H2]]; [now left | right; lia].
Qed.

(** A window is not empty, stays inside the text, and is at most one
    character longer than [maxChunkSize]. *)
Lemma windowEnd_bounds (text : string) (maxChunkSize start end_ : Z) :
  1 <= maxChunkSize -> 0 <= start < strlen text ->
  windowEnd text maxChunkSize start = Some end_ ->
  start < end_ <= strlen text /\ end_ <= start + maxChunkSize + 1.
Proof.
  intros Hm Hs. unfold windowEnd.
  set (e := Z.min (start + maxChunkSize) (strlen text)).
  destruct (e <? strlen text) eqn:E.
  - apply Z.ltb_lt in E.
    destruct (scanBack (Z.to_nat e) text (2 * start + maxChunkSize) e)
      as [bestBreak|] eqn:S; [|discriminate].
    apply scanBack_range in S. intros [= <-].
    destruct (bestBreak >? -1) eqn:B; [|unfold e in *; lia].
    apply Z.gtb_lt in B. destruct S as [->|[S1 S2]]; [lia|].
    unfold e in *. lia.
  - intros [= <-]. apply Z.ltb_ge in E. unfold e in *. lia.
Qed.

Lemma windowsFrom_bounds (text : string) (maxChunkSize overlap : Z) :
  1 <= maxChunkSize ->
  forall fuel start w,
    0 <= start ->
    In w (windowsFrom fuel text maxChunkSize overlap start) ->
    0 <= fst w < snd w /\ snd w <= strlen text /\
    snd w - fst w <= maxChunkSize + 1.
Proof.
  intros Hm. induction fuel as [|fuel IH]; intros start w Hs Hin;
    simpl in Hin; [contradiction|].
  destruct (start <? strlen text) eqn:E; [|contradiction].
  apply Z.ltb_lt in E.
  destruct (windowEnd text maxChunkSize start) as [end_|] eqn:W;
    [|contradiction].
  destruct Hin as [<-|Hin].
  - apply windowEnd_bounds in W; [simpl; lia | exact Hm | lia].
  - pose proof (nextStart_gt start end_ overlap).
    eapply IH; [|exact Hin]. lia.
Qed.

(** From [start] on, the windows reach every later position of the text. *)
Lemma windowsFrom_cover (text : string) (maxChunkSize overlap : Z) :
  1 <= maxChunkSize -> 0 <= overlap ->
  forall fuel start p,
    0 <= start <= p -> p < strlen text ->
    strlen text - start < Z.of_nat fuel ->
    exists w, In w (windowsFrom fuel text maxChunkSize overlap start) /\
              fst w <= p < snd w.
Proof.
  intros Hm Ho. induction fuel as [|fuel IH]; intros start p Hs Hp Hf.
  - simpl in Hf. lia.
  - simpl. destruct (start <? strlen text) eqn:E;
      [|apply Z.ltb_ge in E; lia].
    destruct (windowEnd_total text maxChunkSize start) as [end_ W]; [lia|].
    rewrite W.
    pose proof (windowEnd_bounds _ _ _ _ Hm (conj (proj1 Hs) (Z.le_lt_trans _ _ _ (proj2 Hs) Hp)) W) as [B1 B2].
    destruct (Z_lt_ge_dec p end_) as [L|L].
    + exists (start, end_). split; [now left | simpl; lia].
    + pose proof (nextStart_gt start end_ overlap).
      destruct (IH (nextStart start end_ overlap) p) as [w [Hw Hin]].
      * unfold nextStart in *. lia.
      * exact Hp.
      * lia.
      * exists w. split; [now right | exact Hin].
Qed.

(** X1: The windows of the fixed-window chunker cover the text: for a
    positive window size and an overlap that is not negative, every
    character position lies in a window the loop visits. *)
Theorem windows_cover_text :
  forall (text : string) (maxChunkSize overlap p : Z),
    1 <= maxChunkSize -> 0 <= overlap ->
    0 <= p < strlen text ->
    exists w, In w (windows text maxChunkSize overlap) /\ fst w <= p < snd w.
Proof.
  intros text maxChunkSize overlap p Hm Ho Hp.
  apply windowsFrom_cover; try lia.
  unfold strlen. lia.
Qed.

Lemma windows_cover_text_witness :
  exists w, In w (windows sampleText 100 20) /\ fst w <= 120 < snd w.
Proof.
  apply (windows_cover_text sampleText 100 20 120); try lia.
  vm_compute. split; [discriminate | reflexivity].
Defined.

Lemma windowsFrom_head (text : string) (maxChunkSize overlap : Z)
    (fuel : nat) (start : Z) (w : Z * Z) (l : list (Z * Z)) :
  windowsFrom fuel text maxChunkSize overlap start = w :: l -> fst w = start.
Proof.
  destruct fuel as [|fuel]; simpl; [discriminate|].
  destruct (start <? strlen text); [|discriminate].
  destruct (windowEnd text maxChunkSize start); [|discriminate].
  now intros [= <- _].
Qed.

Lemma windowsFrom_adjacent (text : string) (maxChunkSize overlap : Z) :
  1 <= maxChunkSize -> 0 <= overlap ->
  forall fuel start w1 w2,
    0 <= start ->
    adjacent (windowsFrom fuel text maxChunkSize overlap start) w1 w2 ->
    fst w1 < fst w2 <= snd w1 /\ snd w1 - overlap <= fst w2.
Proof.
  intros Hm Ho. induction fuel as [|fuel IH]; intros start w1 w2 Hs Hadj;
    simpl in Hadj; [inversion Hadj|].
  destruct (start <? strlen text) eqn:E; [|inversion Hadj].
  apply Z.ltb_lt in E.
  destruct (windowEnd text maxChunkSize start) as [end_|] eqn:W;
    [|inversion Hadj].
  pose proof (nextStart_gt start end_ overlap) as Hgt.
  inversion Hadj as [x y l|z l x y Hlater]; subst.
  - assert (Hy : fst w2 = nextStart start end_ overlap).
    { match goal with
      | H : _ :: _ = windowsFrom _ _ _ _ _ |- _ =>
          symmetry in H; apply windowsFrom_head in H; exact H
      end. }
    apply windowEnd_bounds in W; [|exact Hm|lia].
    unfold nextStart in *. simpl. lia.
  - eapply IH; [|exact Hlater]. lia.
Qed.

(** X2: Consecutive windows leave no gap and share at most [overlap]
    characters: the next window starts after the previous start, at or
    before the previous end, and not more than [overlap] before it. *)
Theorem consecutive_windows_overlap :
  forall (text : string) (maxChunkSize overlap : Z) (w1 w2 : Z * Z),
    1 <= maxChunkSize -> 0 <= overlap ->
    adjacent (windows text maxChunkSize overlap) w1 w2 ->
    fst w1 < fst w2 <= snd w1 /\ snd w1 - fst w2 <= overlap.
Proof.
  intros text maxChunkSize overlap w1 w2 Hm Ho Hadj.
  destruct (windowsFrom_adjacent text maxChunkSize overlap Hm Ho
              (S (String.length text)) 0 w1 w2) as [H1 H2];
    [lia | exact Hadj | lia].
Qed.

Lemma consecutive_windows_overlap_witness :
  fst (0, 95) < fst (75, 172) <= snd (0, 95) /\
  snd (0, 95) - fst (75, 172) <= 20.
Proof.
  apply (consecutive_windows_overlap sampleText 100 20 (0, 95) (75, 172));
    try lia.
  vm_compute. constructor.
Defined.

(** X3: Every chunk of [chunkTextWithOverlap] lies inside the text, and its
    text has more than 50 and at most [maxChunkSize + 1] characters: the
    sentence terminator found at the raw end of a window is taken in. *)
Theorem chunk_lengths_bounded :
  forall (text : string) (maxChunkSize overlap : Z)
         (chunks : list Chunk) (c : Chunk),
    1 <= maxChunkSize ->
    chunkTextWithOverlap text maxChunkSize overlap = Some chunks ->
    In c chunks ->
    0 <= chunk_start c < chunk_end c /\ chunk_end c <= strlen text /\
    50 < strlen (chunk_text c) <= chunk_end c - chunk_start c /\
    chunk_end c - chunk_start c <= maxChunkSize + 1.
Proof.
  intros text maxChunkSize overlap chunks c Hm.
  rewrite chunkTextWithOverlap_emitted. intros [= <-] Hin.
  unfold emitted in Hin. apply in_map_iff in Hin as [[s e] [<- Hw]].
  apply filter_In in Hw as [Hw Hlen]. apply Z.ltb_lt in Hlen.
  apply (windowsFrom_bounds text maxChunkSize overlap Hm) in Hw; [|lia].
  simpl in *. unfold windowText in *. simpl in *.
  pose proof (strlen_trim (slice text s e)).
  pose proof (strlen_slice text s e). lia.
Qed.

Lemma chunk_lengths_bounded_witness :
  0 <= chunk_start lastSampleChunk < chunk_end lastSampleChunk /\
  chunk_end lastSampleChunk <= strlen sampleText /\
  50 < strlen (chunk_text lastSampleChunk)
     <= chunk_end lastSampleChunk - chunk_start lastSampleChunk /\
  chunk_end lastSampleChunk - chunk_start lastSampleChunk <= 100 + 1.
Proof.
  apply (chunk_lengths_bounded sampleText 100 20 sampleChunks lastSampleChunk).
  - lia.
  - reflexivity.
  - vm_compute. right. left. reflexivity.
Defined.

(** ** Query enhancement and expansion *)

(** X4: [enhanceQuery] never throws.  Whenever the collaborator call fails or
    its reply carries no string content, the query comes back verbatim;
    a reply that is blank is not replaced: the enhanced query is then the
    empty string. *)
Theorem enhanceQuery_falls_back :
  forall (create : ChatRequest -> outcome ChatCompletion) (userQuery : string),
    (exists enhanced, enhanceQuery create userQuery = Return enhanced) /\
    ((forall text, create (enhanceRequest userQuery) <> Return (Content text)) ->
     enhanceQuery create userQuery = Return userQuery) /\
    (forall text, create (enhanceRequest userQuery) = Return (Content text) ->
     enhanceQuery create userQuery = Return (trim text)).
Proof.
  intros create userQuery. unfold enhanceQuery.
  destruct (create (enhanceRequest userQuery)) as [[| |text|]|e] eqn:E;
    simpl; (split; [eauto|split]); try reflexivity;
    try (intros text' [= <-]; reflexivity); try discriminate.
  - intros H. now destruct (H text).
Qed.

Lemma enhanceQuery_falls_back_witness :
  enhanceQuery (fun _ => Return NoContent) "refund policy"
  = Return "refund policy" /\
  enhanceQuery (fun _ => Return (Content "   ")) "refund policy" = Return "".
Proof.
  split.
  - apply (proj1 (proj2 (enhanceQuery_falls_back
                           (fun _ => Return NoContent) "refund policy"))).
    discriminate.
  - apply (proj2 (proj2 (enhanceQuery_falls_back
                           (fun _ => Return (Content "   "))
                           "refund policy")) "   ").
    reflexivity.
Defined.

(** X5: [expandQuery] never throws, and for a query that is not empty it
    never returns the empty string: a failed call, a missing content and
    a blank content all give the query back. *)
Theorem expandQuery_never_empty :
  forall (create : ChatRequest -> outcome ChatCompletion) (query : string),
    exists expanded,
      QueryRefiner.expandQuery create query = Return expanded /\
      (query <> "" -> expanded <> "") /\
      ((forall text, create (QueryRefiner.expandRequest query)
                     <> Return (Content text)) -> expanded = query).
Proof.
  intros create query. unfold QueryRefiner.expandQuery.
  destruct (create (QueryRefiner.expandRequest query)) as [[| |text|]|e] eqn:E;
    simpl; try (exists query; repeat split; auto; fail).
  destruct (nonEmpty (trim text)) eqn:N.
  - exists (trim text). split; [reflexivity|]. split.
    + intros _ H. rewrite H in N. discriminate.
    + intros H. now destruct (H text).
  - exists query. repeat split; auto.
Qed.

Lemma expandQuery_never_empty_witness :
  exists expanded,
    QueryRefiner.expandQuery (fun _ => Return (Content "   ")) "refund policy"
    = Return expanded /\ expanded <> "".
Proof.
  destruct (expandQuery_never_empty (fun _ => Return (Content "   "))
              "refund policy") as [expanded [H [Hne _]]].
  exists expanded. split; [exact H|]. apply Hne. discriminate.
Defined.

(** ** Failure of the searches *)

Section SearchFailures.

Variable create : ChatRequest -> outcome ChatCompletion.
Variable embed : EmbeddingRequest -> outcome EmbeddingResponse.
Variable store : StoreQuery -> outcome StoreResponse.
Variable firstRejection : string -> string -> string.

Lemma enhanceQuery_returns (userQuery : string) :
  exists enhanced, enhanceQuery create userQuery = Return enhanced.
Proof.
  unfold enhanceQuery.
  destruct (create (enhanceRequest userQuery)) as [[| |text|]|e]; simpl; eauto.
Qed.

Lemma generateEmbedding_rejected (text message : string) :
  embed (mkEmbeddingRequest "text-embedding-3-small"
           (substring 0 maxEmbeddingInput text))
  = Throw message ->
  generateEmbedding embed text
  = Throw ("Embedding generation failed: " ++ message)%string.
Proof. intros H. unfold generateEmbedding. now rewrite H. Qed.

Lemma generateEmbedding_cases (text : string) :
  (exists v, generateEmbedding embed text = Return v) \/
  (exists m, generateEmbedding embed text
             = Throw ("Embedding generation failed: " ++ m)%string).
Proof.
  unfold generateEmbedding.
  destruct (embed _) as [[|v]|e]; simpl; eauto.
Qed.

End SearchFailures.

(** X6: When the embedding collaborator rejects every call with [message],
    the hybrid and the advanced search both throw, with the two layers of
    wrapping in the message, whatever the text-generation collaborator
    and the store do: a failed query enhancement is absorbed, a failed
    embedding is not. *)
Theorem searches_report_embedding_failure :
  forall (create : ChatRequest -> outcome ChatCompletion)
         (embed : EmbeddingRequest -> outcome EmbeddingResponse)
         (store : StoreQuery -> outcome StoreResponse)
         (firstRejection : string -> string -> string)
         (query message : string) (limit : Z) (weight : number),
    (forall request, embed request = Throw message) ->
    searchPDFContent create embed store query limit weight
    = Throw ("Hybrid search failed: Embedding generation failed: "
             ++ message)%string /\
    searchPDFContentAdvanced create embed store firstRejection
      query limit weight
    = Throw ("Advanced hybrid search failed: Embedding generation failed: "
             ++ message)%string.
Proof.
  intros create embed store firstRejection query message limit weight H.
  unfold searchPDFContent, searchPDFContentAdvanced.
  destruct (enhanceQuery_returns create query) as [enhanced ->]. simpl.
  rewrite (generateEmbedding_rejected embed enhanced message) by apply H.
  split; reflexivity.
Qed.

Lemma searches_report_embedding_failure_witness :
  searchPDFContent (fun _ => Throw "timeout") (fun _ => Throw "quota")
    (fun _ => Return (Documents None)) "refund policy" 5 (Fin (7 # 10))
  = Throw "Hybrid search failed: Embedding generation failed: quota".
Proof.
  apply (searches_report_embedding_failure
           (fun _ => Throw "timeout") (fun _ => Throw "quota")
           (fun _ => Return (Documents None)) (fun a _ => a)
           "refund policy" "quota" 5 (Fin (7 # 10))).
  reflexivity.
Defined.

(** ** Fusion: keys and provenance *)

Lemma Map_update_keys {V} (key : string) (f : V -> V) (m : JsMap V) :
  Map_keys (Map_update key f m) = Map_keys m.
Proof.
  induction m as [|[k w] m IH]; simpl; [reflexivity|].
  destruct (String.eqb k key); simpl; [reflexivity | now rewrite IH].
Qed.

Lemma Map_set_keys {V} (key : string) (v : V) (m : JsMap V) :
  Map_keys (Map_set key v m)
  = if Map_has key m then Map_keys m else Map_keys m ++ [key].
Proof.
  induction m as [|[k w] m IH]; simpl; [reflexivity|].
  destruct (String.eqb k key) eqn:E; simpl; [reflexivity|].
  rewrite IH. now destruct (Map_has key m).
Qed.

Lemma NoDup_snoc {A} (l : list A) (x : A) :
  NoDup l -> ~ In x l -> NoDup (l ++ [x]).
Proof.
  intros Hl Hx. apply NoDup_app; [exact Hl | repeat constructor; auto|].
  intros a Ha [<-|[]]. contradiction.
Qed.

Lemma Map_set_NoDup {V} (key : string) (v : V) (m : JsMap V) :
  NoDup (Map_keys m) -> NoDup (Map_keys (Map_set key v m)).
Proof.
  intros H. rewrite Map_set_keys.
  destruct (Map_has key m) eqn:E; [exact H|].
  apply NoDup_snoc; [exact H|].
  intros Hin. apply Map_has_In in Hin. congruence.
Qed.

Lemma addVector_keyed (met : SearchResult -> Prop) (w mx : number)
    (m : JsMap Fused) (r : SearchResult) (i : Z) :
  keyed met m -> met r -> keyed met (addVector w mx m r i).
Proof.
  intros [Hn Hm] Hr. unfold addVector. split.
  - now apply Map_set_NoDup.
  - apply Map_set_Forall; [simpl; auto | exact Hm].
Qed.

Lemma addKeyword_keyed (met : SearchResult -> Prop) (w mx : number)
    (m : JsMap Fused) (r : SearchResult) (i : Z) :
  keyed met m -> met r -> keyed met (addKeyword w mx m r i).
Proof.
  intros [Hn Hm] Hr. unfold addKeyword.
  destruct (Map_has (resultKey r) m); split.
  - now rewrite Map_update_keys.
  - apply Map_update_Forall; [|exact Hm]. simpl. auto.
  - now apply Map_set_NoDup.
  - apply Map_set_Forall; [simpl; auto | exact Hm].
Qed.

Lemma resultMapOf_keyed (vectorResults keywordResults : list SearchResult)
    (vectorWeight : number) :
  keyed (fun r => In r (vectorResults ++ keywordResults))
    (resultMapOf vectorResults keywordResults vectorWeight).
Proof.
  unfold resultMapOf, vectorPass.
  set (met := fun r => In r (vectorResults ++ keywordResults)).
  apply (forEach_inv (keyed met) met).
  - intros m r i. apply (addKeyword_keyed met).
  - apply Forall_forall. intros r Hr. apply in_or_app. now right.
  - apply (forEach_inv (keyed met) met).
    + intros m r i. apply (addVector_keyed met).
    + apply Forall_forall. intros r Hr. apply in_or_app. now left.
    + split; constructor.
Qed.

(** Every result met ends up under its key. *)
Lemma addVector_has (w mx : number) (m : JsMap Fused) (r : SearchResult)
    (i : Z) (k : string) :
  k = resultKey r \/ In k (Map_keys m) ->
  In k (Map_keys (addVector w mx m r i)).
Proof.
  unfold addVector. rewrite Map_set_keys.
  destruct (Map_has (resultKey r) m) eqn:E.
  - intros [->|H]; [now apply Map_has_In | exact H].
  - intros [->|H]; apply in_or_app; [right; now left | now left].
Qed.

Lemma addKeyword_has (w mx : number) (m : JsMap Fused) (r : SearchResult)
    (i : Z) (k : string) :
  k = resultKey r \/ In k (Map_keys m) ->
  In k (Map_keys (addKeyword w mx m r i)).
Proof.
  unfold addKeyword.
  destruct (Map_has (resultKey r) m) eqn:E.
  - rewrite Map_update_keys.
    intros [->|H]; [now apply Map_has_In | exact H].
  - rewrite Map_set_keys, E.
    intros [->|H]; apply in_or_app; [right; now left | now left].
Qed.

Lemma forEach_has {A} (f : JsMap Fused -> A -> Z -> JsMap Fused)
    (keyOf : A -> string) :
  (forall m x i k, k = keyOf x \/ In k (Map_keys m) ->
                   In k (Map_keys (f m x i))) ->
  forall xs i m k,
    In k (map keyOf xs) \/ In k (Map_keys m) ->
    In k (Map_keys (forEach f xs i m)).
Proof.
  intros Hf. induction xs as [|x xs IH]; intros i m k H; simpl.
  - destruct H as [[]|H]. exact H.
  - apply IH. destruct H as [[<-|H]|H].
    + right. apply Hf. now left.
    + now left.
    + right. apply Hf. now right.
Qed.

Lemma resultMapOf_has (vectorResults keywordResults : list SearchResult)
    (vectorWeight : number) (r : SearchResult) :
  In r (vectorResults ++ keywordResults) ->
  In (resultKey r)
    (Map_keys (resultMapOf vectorResults keywordResults vectorWeight)).
Proof.
  intros Hr. unfold resultMapOf, vectorPass.
  apply (forEach_has _ resultKey); [intros; now apply addKeyword_has|].
  apply in_app_or in Hr as [Hr|Hr].
  - right. apply (forEach_has _ resultKey);
      [intros; now apply addVector_has|].
    left. now apply in_map.
  - left. now apply in_map.
Qed.

Lemma forEach_length {A} (f : JsMap Fused -> A -> Z -> JsMap Fused) :
  (forall m x i, (List.length (f m x i) <= S (List.length m))%nat) ->
  forall xs i m,
    (List.length (forEach f xs i m) <= List.length m + List.length xs)%nat.
Proof.
  intros Hf. induction xs as [|x xs IH]; intros i m; simpl; [lia|].
  specialize (IH (i + 1) (f m x i)). specialize (Hf m x i). lia.
Qed.

Lemma Map_set_length {V} (key : string) (v : V) (m : JsMap V) :
  (List.length (Map_set key v m) <= S (List.length m))%nat.
Proof.
  induction m as [|[k w] m IH]; simpl; [lia|].
  destruct (String.eqb k key); simpl; lia.
Qed.

Lemma Map_update_length {V} (key : string) (f : V -> V) (m : JsMap V) :
  List.length (Map_update key f m) = List.length m.
Proof.
  induction m as [|[k w] m IH]; simpl; [reflexivity|].
  destruct (String.eqb k key); simpl; [reflexivity | now rewrite IH].
Qed.

Lemma resultMapOf_length (vectorResults keywordResults : list SearchResult)
    (vectorWeight : number) :
  (List.length (resultMapOf vectorResults keywordResults vectorWeight)
   <= List.length vectorResults + List.length keywordResults)%nat.
Proof.
  unfold resultMapOf, vectorPass.
  etransitivity; [apply forEach_length|].
  - intros m x i. unfold addKeyword.
    destruct (Map_has (resultKey x) m);
      [rewrite Map_update_length; lia | apply Map_set_length].
  - apply Nat.add_le_mono_r.
    etransitivity; [apply forEach_length|simpl; lia].
    intros m x i. apply Map_set_length.
Qed.

Lemma sliceTo_all {A} (xs : list A) (limit : Z) :
  Z.of_nat (List.length xs) <= limit -> sliceTo xs limit = xs.
Proof.
  intros H. rewrite sliceTo_firstn by lia. apply firstn_all2. lia.
Qed.

Lemma sliceTo_prefix {A} (xs : list A) (limit : Z) :
  exists n, sliceTo xs limit = firstn n xs.
Proof. unfold sliceTo. eauto. Qed.

Lemma NoDup_firstn {A} (n : nat) (l : list A) : NoDup l -> NoDup (firstn n l).
Proof.
  intros H. rewrite <- (firstn_skipn n l) in H.
  now apply NoDup_app_remove_r in H.
Qed.

(** X7: The fusion merges, and makes nothing up: no two entries of the output
    stand for the same key, and every entry spreads one of the input
    results.  With a limit that covers both lists, every input result is
    represented in the output. *)
Theorem fuseSearchResults_keys_distinct :
  forall (vectorResults keywordResults : list SearchResult)
         (vectorWeight : number) (limit : Z),
    let fused :=
      fuseSearchResults vectorResults keywordResults vectorWeight limit in
    NoDup (map (fun e => resultKey (source e)) fused) /\
    (forall e, In e fused -> In (source e) (vectorResults ++ keywordResults)) /\
    (Z.of_nat (List.length vectorResults + List.length keywordResults) <= limit ->
     forall r, In r (vectorResults ++ keywordResults) ->
       exists e, In e fused /\ resultKey (source e) = resultKey r).
Proof.
  intros vectorResults keywordResults vectorWeight limit fused.
  pose proof (resultMapOf_keyed vectorResults keywordResults vectorWeight)
    as [Hn Hm].
  set (m := resultMapOf vectorResults keywordResults vectorWeight) in *.
  assert (Hkeys : map (fun e => resultKey (source e)) (Map_values m)
                  = Map_keys m).
  { unfold Map_values, Map_keys. rewrite map_map. apply map_ext_in.
    intros p Hp. rewrite Forall_forall in Hm. now destruct (Hm p Hp). }
  assert (Hperm : Permutation (sortBy byHybridScore (Map_values m))
                    (Map_values m))
    by apply (sortBy_perm Fused hybridScore).
  unfold fused, fuseSearchResults. fold m.
  destruct (sliceTo_prefix (sortBy byHybridScore (Map_values m)) limit)
    as [n Hs].
  split; [|split].
  - rewrite Hs, <- firstn_map. apply NoDup_firstn.
    eapply Permutation_NoDup;
      [symmetry; apply Permutation_map; exact Hperm|].
    now rewrite Hkeys.
  - intros e He. rewrite Hs in He. apply In_firstn in He.
    apply (Permutation_in _ Hperm) in He.
    unfold Map_values in He. apply in_map_iff in He as [p [<- Hp]].
    rewrite Forall_forall in Hm. now destruct (Hm p Hp).
  - intros Hl r Hr. rewrite sliceTo_all.
    + apply resultMapOf_has with (vectorWeight := vectorWeight) in Hr.
      fold m in Hr. rewrite <- Hkeys in Hr.
      apply in_map_iff in Hr as [e [He Hin]].
      exists e. split; [|exact He].
      eapply Permutation_in; [symmetry; exact Hperm | exact Hin].
    + rewrite (Permutation_length Hperm). unfold Map_values.
      rewrite length_map.
      pose proof (resultMapOf_length vectorResults keywordResults
                    vectorWeight). fold m in H. lia.
Qed.

Lemma fuseSearchResults_keys_distinct_witness :
  exists e,
    In e (fuseSearchResults vectorHits lexicalHits (Fin (7 # 10)) 4) /\
    resultKey (source e) = "c.pdf_1_0".
Proof.
  apply (fun H =>
           proj2 (proj2 (fuseSearchResults_keys_distinct
                           vectorHits lexicalHits (Fin (7 # 10)) 4))
             H (hit "c.pdf" None (Some (Fin 5)))).
  - vm_compute. discriminate.
  - vm_compute. right. right. right. left. reflexivity.
Defined.

(** ** Fusion: the weighted sum *)

Lemma fold_max2_upper (xs : list number) :
  Forall nonneg xs ->
  forall acc a,
    acc = NegInf \/ nonneg acc ->
    In (Fin a) xs \/ (exists c, acc = Fin c /\ (a <= c)%Q) ->
    exists m, fold_left max2 xs acc = Fin m /\ (a <= m)%Q.
Proof.
  induction 1 as [|x xs Hx Hxs IH]; intros acc a Hacc Ha; simpl.
  - destruct Ha as [[]|[c [-> Hc]]]. eauto.
  - destruct Hx as [b [-> Hb]].
    assert (Hstep : exists c', max2 acc (Fin b) = Fin c' /\ (b <= c')%Q /\
                      (0 <= c')%Q /\
                      forall c, acc = Fin c -> (c <= c')%Q).
    { destruct Hacc as [->|[c [-> Hc]]]; simpl.
      - exists b. repeat split; try lra. discriminate.
      - destruct (Qltb c b) eqn:E.
        + apply Qltb_true in E. exists b. repeat split; try lra.
          intros c0 [= <-]. lra.
        + apply Qltb_false in E. exists c. repeat split; try lra.
          intros c0 [= <-]. lra. }
    destruct Hstep as [c' [Hc' [Hb' [Hpos Hold]]]]. rewrite Hc'.
    apply IH; [right; now apply nonneg_Fin|].
    destruct Ha as [[Heq|Hin]|[c [-> Hc]]].
    + injection Heq as <-. right. exists c'. split; [reflexivity | lra].
    + now left.
    + right. exists c'. split; [reflexivity|].
      specialize (Hold c eq_refl). lra.
Qed.

(** A plain score divided by the positive maximum of its list lies in
    [0,1]. *)
Lemma normalised_in_unit (xs : list number) (x : number) :
  Forall nonneg xs -> In x xs -> gtb (Math_max xs) zero = true ->
  exists n, div x (Math_max xs) = Fin n /\ (0 <= n <= 1)%Q.
Proof.
  intros Hxs Hin Hpos.
  assert (Hx : nonneg x) by (rewrite Forall_forall in Hxs; auto).
  destruct Hx as [a [-> Ha]].
  destruct (fold_max2_upper xs Hxs NegInf a) as [m [Hm Ham]];
    [now left | now left |].
  unfold Math_max in *. rewrite Hm in *.
  unfold gtb, zero in Hpos. simpl in Hpos. apply Qltb_true in Hpos.
  unfold div, Qsgn. rewrite (proj1 (Qgt_alt _ _) Hpos).
  eexists. split; [reflexivity|]. split.
  - apply Qle_shift_div_l; lra.
  - apply Qle_shift_div_r; lra.
Qed.

Lemma weighted_vector_entry (w n : Q) (r : SearchResult) (rank : option Z) :
  (0 <= n <= 1)%Q ->
  weighted w (mkFused r (mul (Fin n) (Fin w)) (Fin n) zero rank None).
Proof.
  intros Hn. exists n, 0%Q, (n * w)%Q. simpl.
  repeat split; try reflexivity; try lra; try ring.
Qed.

Lemma vectorPass_weighted (w : Q) (vectorResults : list SearchResult) :
  Forall (fun r => plainScore (certainty r)) vectorResults ->
  vectorResults = [] \/ gtb (maxCertaintyOf vectorResults) zero = true ->
  weightedInv w [] (vectorPass vectorResults (Fin w)).
Proof.
  intros Hplain [->|Hpos]; [constructor|].
  unfold vectorPass.
  assert (Hnn : Forall nonneg
                  (map (fun r => orElse (certainty r) zero) vectorResults)).
  { apply Forall_map. eapply Forall_impl; [|exact Hplain].
    intros r. apply orElse_plain. }
  apply (forEach_inv (weightedInv w []) (fun r => In r vectorResults));
    [|apply Forall_forall; auto|constructor].
  intros m r i Hm Hr. unfold addVector.
  destruct (normalised_in_unit _ (orElse (certainty r) zero) Hnn) as [n [Hn Hrange]];
    [now apply (in_map (fun r => orElse (certainty r) zero)) | exact Hpos |].
  unfold maxCertaintyOf. rewrite Hn.
  apply Map_set_Forall; [|exact Hm]. simpl.
  split; [now apply weighted_vector_entry|].
  split; [intros _; reflexivity | congruence].
Qed.

Lemma keywordPass_weighted (w : Q) (keywordResults : list SearchResult) :
  Forall (fun r => plainScore (score r)) keywordResults ->
  forall xs index seen m,
    (forall r, In r xs -> In r keywordResults) ->
    NoDup (map resultKey xs) ->
    (forall k, In k (map resultKey xs) -> ~ In k seen) ->
    weightedInv w seen m ->
    exists seen',
      weightedInv w seen'
        (forEach (addKeyword (sub one (Fin w)) (maxBM25ScoreOf keywordResults))
           xs index m).
Proof.
  intros Hplain.
  assert (Hnn : Forall nonneg
                  (map (fun r => orElse (score r) zero) keywordResults)).
  { apply Forall_map. eapply Forall_impl; [|exact Hplain].
    intros r. apply orElse_plain. }
  induction xs as [|x xs IH]; intros index seen m Hsub Hnd Hfresh Hm; simpl.
  - now exists seen.
  - inversion Hnd as [|? ? Hx Hnd']; subst.
    apply (IH (index + 1) (resultKey x :: seen)); [| exact Hnd' | |].
    + intros r Hr. apply Hsub. now right.
    + intros k Hk [<-|Hin]; [contradiction|].
      apply (Hfresh k); [now right | exact Hin].
    + assert (Hn : exists n,
                (if gtb (maxBM25ScoreOf keywordResults) zero
                 then div (orElse (score x) zero) (maxBM25ScoreOf keywordResults)
                 else zero) = Fin n /\ (0 <= n <= 1)%Q).
      { destruct (gtb (maxBM25ScoreOf keywordResults) zero) eqn:E.
        - apply (normalised_in_unit _ _ Hnn); [|exact E].
          apply (in_map (fun r => orElse (score r) zero)).
          apply Hsub. now left.
        - exists 0%Q. split; [reflexivity | lra]. }
      destruct Hn as [n [Hn Hrange]].
      assert (Hgrow : Forall
                (fun p => weighted w (snd p) /\
                   (keywordRank (snd p) = None ->
                    numEq (keywordScore (snd p)) zero) /\
                   (keywordRank (snd p) <> None ->
                    In (fst p) (resultKey x :: seen))) m).
      { eapply Forall_impl; [|exact Hm].
        intros p [H1 [H2 H3]]. repeat split; auto. intros H. right. auto. }
      unfold addKeyword. rewrite Hn.
      destruct (Map_has (resultKey x) m).
      * apply Map_update_Forall; [|exact Hgrow].
        simpl. intros e He _.
        unfold weightedInv in Hm. rewrite Forall_forall in Hm.
        destruct (Hm _ He) as [[v [k [h [Hv [Hk [Hh [Rv [Rk Hsum]]]]]]]] [Hnone Hseen]].
        simpl in *.
        assert (Hfirst : keywordRank e = None).
        { destruct (keywordRank e) eqn:R; [|reflexivity].
          exfalso. apply (Hfresh (resultKey x)); [now left|].
          apply Hseen. discriminate. }
        specialize (Hnone Hfirst). rewrite Hk in Hnone. simpl in Hnone.
        split; [|split; [discriminate | intros _; now left]].
        exists v, n, (h + n * (1 + - w))%Q. rewrite Hv, Hh. simpl.
        repeat split; try reflexivity; try lra.
        rewrite Hsum, Hnone. ring.
      * apply Map_set_Forall; [|exact Hgrow]. simpl.
        split; [|split; [discriminate | intros _; now left]].
        exists 0%Q, n, (n * (1 + - w))%Q. simpl.
        repeat split; try reflexivity; try lra; try ring.
Qed.

(** X8: For scores of the store that are plain, a finite weight, a lexical
    list without repeated key and a vector list that is empty or has a
    positive maximum certainty, every fused entry has both normalised
    scores in [0,1] and
    [hybridScore = vectorWeight * vectorScore
                   + (1 - vectorWeight) * keywordScore],
    a score missing from one list counting as 0. *)
Theorem fuseSearchResults_weighted_sum :
  forall (vectorResults keywordResults : list SearchResult)
         (w : Q) (limit : Z) (e : Fused),
    Forall (fun r => plainScore (certainty r)) vectorResults ->
    Forall (fun r => plainScore (score r)) keywordResults ->
    NoDup (map resultKey keywordResults) ->
    vectorResults = [] \/ gtb (maxCertaintyOf vectorResults) zero = true ->
    In e (fuseSearchResults vectorResults keywordResults (Fin w) limit) ->
    exists v k h,
      vectorScore e = Fin v /\ keywordScore e = Fin k /\
      hybridScore e = Fin h /\
      (0 <= v <= 1)%Q /\ (0 <= k <= 1)%Q /\ (h == w * v + (1 - w) * k)%Q.
Proof.
  intros vectorResults keywordResults w limit e Hv Hk Hnd Hmax Hin.
  unfold fuseSearchResults in Hin.
  destruct (sliceTo_prefix
              (sortBy byHybridScore
                 (Map_values (resultMapOf vectorResults keywordResults (Fin w))))
              limit) as [n Hs].
  rewrite Hs in Hin. apply In_firstn in Hin.
  apply (Permutation_in _ (sortBy_perm Fused hybridScore _)) in Hin.
  unfold Map_values in Hin. apply in_map_iff in Hin as [p [<- Hp]].
  unfold resultMapOf in Hp.
  destruct (keywordPass_weighted w keywordResults Hk keywordResults 0 []
              (vectorPass vectorResults (Fin w))) as [seen Hinv]; auto.
  - now apply vectorPass_weighted.
  - unfold weightedInv in Hinv. rewrite Forall_forall in Hinv.
    now destruct (Hinv p Hp).
Qed.

Lemma fuseSearchResults_weighted_sum_witness :
  exists v k h,
    vectorScore (mkFused (hit "b.pdf" (Some (Fin (5 # 10))) None)
                   (Fin (62000 # 90000)) (Fin (50 # 90)) (Fin (10 # 10))
                   (Some 2) (Some 1)) = Fin v /\
    Fin (10 # 10) = Fin k /\ Fin (62000 # 90000) = Fin h /\
    (0 <= v <= 1)%Q /\ (0 <= k <= 1)%Q /\
    (h == (7 # 10) * v + (1 - (7 # 10)) * k)%Q.
Proof.
  apply (fuseSearchResults_weighted_sum vectorHits lexicalHits (7 # 10) 2
           (mkFused (hit "b.pdf" (Some (Fin (5 # 10))) None)
              (Fin (62000 # 90000)) (Fin (50 # 90)) (Fin (10 # 10))
              (Some 2) (Some 1))).
  - repeat constructor; simpl; lra.
  - repeat constructor; simpl; lra.
  - distinct_keys.
  - right. vm_compute. reflexivity.
  - vm_compute. right. left. reflexivity.
Defined.

(** ** The advanced search *)

Lemma documentsOf_count (response : StoreResponse) (docs : list SearchResult) :
  documentsOf response = Return docs ->
  documentCount response = Return (Z.of_nat (List.length docs)).
Proof.
  destruct response as [|[d|]]; simpl; intros [= <-]; reflexivity.
Qed.

(** X9: A failed store call is never passed off as an empty result: when
    the vector query or the lexical query of the advanced search is
    rejected, the search throws, its message starting with
    "Advanced hybrid search failed: ". *)
Theorem searchPDFContentAdvanced_store_failure :
  forall (create : ChatRequest -> outcome ChatCompletion)
         (embed : EmbeddingRequest -> outcome EmbeddingResponse)
         (store : StoreQuery -> outcome StoreResponse)
         (firstRejection : string -> string -> string)
         (query : string) (limit : Z) (vectorWeight : number),
    (forall fields vector n,
        exists e, store (NearVectorQuery fields vector n) = Throw e) \/
    (forall fields text properties n,
        exists e, store (Bm25Query fields text properties n) = Throw e) ->
    exists message,
      searchPDFContentAdvanced create embed store firstRejection
        query limit vectorWeight
      = Throw ("Advanced hybrid search failed: " ++ message)%string.
Proof.
  intros create embed store firstRejection query limit vectorWeight H.
  unfold searchPDFContentAdvanced.
  destruct (enhanceQuery_returns create query) as [enhanced ->]. simpl.
  destruct (generateEmbedding_cases embed enhanced) as [[v ->]|[m ->]];
    simpl; [|eauto].
  destruct H as [H|H].
  - destruct (H fieldsVector v (limit * 2)) as [e ->].
    destruct (store (Bm25Query _ _ _ _)); simpl; eauto.
  - destruct (H fieldsKeyword enhanced ["content"; "filename"] (limit * 2))
      as [e ->].
    destruct (store (NearVectorQuery _ _ _)); simpl; eauto.
Qed.

Lemma searchPDFContentAdvanced_store_failure_witness :
  exists message,
    searchPDFContentAdvanced
      (fun _ => Return (Content "refund policy terms"))
      (fun _ => Return (EmbeddingOf (Some [Fin 1])))
      (fun q => match q with
                | Bm25Query _ _ _ _ => Throw "bm25 unavailable"
                | _ => Return (Documents (Some vectorHits))
                end)
      (fun a _ => a) "refund policy" 5 (Fin (7 # 10))
    = Throw ("Advanced hybrid search failed: " ++ message)%string.
Proof.
  apply searchPDFContentAdvanced_store_failure.
  right. intros fields text properties n. now exists "bm25 unavailable".
Defined.

(** X10: What the advanced search returns when it returns: the fusion, at the
    caller's weight and limit, of the two lists the store gave for the
    doubled limit, a missing list counting as empty; the counts are the
    lengths of these lists, and no more than [limit] results come back
    when the limit is not negative. *)
Theorem searchPDFContentAdvanced_report :
  forall (create : ChatRequest -> outcome ChatCompletion)
         (embed : EmbeddingRequest -> outcome EmbeddingResponse)
         (store : StoreQuery -> outcome StoreResponse)
         (firstRejection : string -> string -> string)
         (query : string) (limit : Z) (vectorWeight : number)
         (report : AdvancedReport),
    searchPDFContentAdvanced create embed store firstRejection
      query limit vectorWeight = Return report ->
    exists enhanced vector vectorResponse keywordResponse vectorDocs keywordDocs,
      enhanceQuery create query = Return enhanced /\
      generateEmbedding embed enhanced = Return vector /\
      store (NearVectorQuery fieldsVector vector (limit * 2))
      = Return vectorResponse /\
      store (Bm25Query fieldsKeyword enhanced ["content"; "filename"]
               (limit * 2)) = Return keywordResponse /\
      documentsOf vectorResponse = Return vectorDocs /\
      documentsOf keywordResponse = Return keywordDocs /\
      report = mkAdvancedReport query enhanced "advanced_hybrid" vectorWeight
                 (Z.of_nat (List.length vectorDocs))
                 (Z.of_nat (List.length keywordDocs))
                 (fuseSearchResults vectorDocs keywordDocs vectorWeight limit) /\
      (0 <= limit -> Z.of_nat (List.length (advResults report)) <= limit).
Proof.
  intros create embed store firstRejection query limit vectorWeight report.
  unfold searchPDFContentAdvanced.
  destruct (enhanceQuery create query) as [enhanced|e] eqn:E; simpl;
    [|discriminate].
  destruct (generateEmbedding embed enhanced) as [vector|e] eqn:G; simpl;
    [|discriminate].
  destruct (store (NearVectorQuery fieldsVector vector (limit * 2)))
    as [vr|e] eqn:V;
    destruct (store (Bm25Query fieldsKeyword enhanced ["content"; "filename"]
                       (limit * 2))) as [kr|e'] eqn:K;
    simpl; try discriminate.
  destruct (documentsOf vr) as [vdocs|e] eqn:DV; simpl; [|discriminate].
  destruct (documentsOf kr) as [kdocs|e] eqn:DK; simpl; [|discriminate].
  rewrite (documentsOf_count _ _ DV), (documentsOf_count _ _ DK). simpl.
  intros [= <-].
  exists enhanced, vector, vr, kr, vdocs, kdocs.
  repeat split; try reflexivity; try assumption.
  intros Hl. simpl. unfold fuseSearchResults.
  rewrite sliceTo_firstn by exact Hl. rewrite length_firstn. lia.
Qed.

Lemma searchPDFContentAdvanced_report_witness :
  exists report,
    searchPDFContentAdvanced
      (fun _ => Throw "timeout")
      (fun _ => Return (EmbeddingOf (Some [Fin 1])))
      (fun q => match q with
                | Bm25Query _ _ _ _ => Return (Documents None)
                | _ => Return (Documents (Some vectorHits))
                end)
      (fun a _ => a) "refund policy" 1 (Fin (7 # 10)) = Return report /\
    advEnhancedQuery report = "refund policy" /\
    keywordResultsCount report = 0 /\
    Z.of_nat (List.length (advResults report)) <= 1.
Proof.
  eexists. split; [vm_compute; reflexivity|].
  split; [reflexivity|]. split; [reflexivity|].
  match goal with
  | |- Z.of_nat (List.length (advResults ?r)) <= 1 =>
      destruct (searchPDFContentAdvanced_report
                  (fun _ => Throw "timeout")
                  (fun _ => Return (EmbeddingOf (Some [Fin 1])))
                  (fun q => match q with
                            | Bm25Query _ _ _ _ => Return (Documents None)
                            | _ => Return (Documents (Some vectorHits))
                            end)
                  (fun a _ => a) "refund policy" 1 (Fin (7 # 10)) r)
        as [? [? [? [? [? [? [_ [_ [_ [_ [_ [_ [_ H]]]]]]]]]]]]];
        [vm_compute; reflexivity | apply H; lia]
  end.
Defined.

(** ** Subsequences *)

Lemma subseq_refl {A} (l : list A) : subseq l l.
Proof.
  induction l as [|x l IH]; [constructor | now apply subseq_take].
Qed.

Lemma subseq_nil_l {A} (l : list A) : subseq [] l.
Proof. induction l; constructor; assumption. Qed.

Lemma subseq_trans {A} (l1 l2 l3 : list A) :
  subseq l1 l2 -> subseq l2 l3 -> subseq l1 l3.
Proof.
  intros H12 H23. revert l1 H12.
  induction H23 as [|x l2 l3 H IH|x l2 l3 H IH]; intros l1 H12.
  - exact H12.
  - constructor. now apply IH.
  - inversion H12; subst; constructor; now apply IH.
Qed.

Lemma subseq_app {A} (l1 l2 k1 k2 : list A) :
  subseq l1 l2 -> subseq k1 k2 -> subseq (l1 ++ k1) (l2 ++ k2).
Proof.
  induction 1 as [|x l1 l2 H IH|x l1 l2 H IH]; intros Hk; simpl.
  - exact Hk.
  - apply subseq_skip. now apply IH.
  - apply subseq_take. now apply IH.
Qed.

Lemma subseq_In {A} (l1 l2 : list A) (x : A) :
  subseq l1 l2 -> In x l1 -> In x l2.
Proof.
  induction 1 as [|y l1 l2 H IH|y l1 l2 H IH]; simpl; intuition.
Qed.

Lemma subseq_firstn {A} (n : nat) (l : list A) : subseq (firstn n l) l.
Proof.
  revert n. induction l as [|x l IH]; intros [|n]; simpl.
  - constructor.
  - constructor.
  - apply subseq_nil_l.
  - apply subseq_take. apply IH.
Qed.

Lemma subseq_sliceTo {A} (l : list A) (limit : Z) : subseq (sliceTo l limit) l.
Proof. unfold sliceTo. apply subseq_firstn. Qed.

Lemma subseq_length {A} (l1 l2 : list A) :
  subseq l1 l2 -> (List.length l1 <= List.length l2)%nat.
Proof. induction 1; simpl; lia. Qed.

Lemma subseq_map {A B} (f : A -> B) (l1 l2 : list A) :
  subseq l1 l2 -> subseq (map f l1) (map f l2).
Proof.
  induction 1 as [|x l1 l2 H IH|x l1 l2 H IH]; simpl.
  - constructor.
  - now apply subseq_skip.
  - now apply subseq_take.
Qed.

Lemma subseq_Forall {A} (P : A -> Prop) (l1 l2 : list A) :
  subseq l1 l2 -> Forall P l2 -> Forall P l1.
Proof.
  induction 1 as [|y l1 l2 H IH|y l1 l2 H IH]; intros HP;
    try inversion HP; subst; try constructor; auto.
Qed.

Lemma subseq_NoDup {A} (l1 l2 : list A) : subseq l1 l2 -> NoDup l2 -> NoDup l1.
Proof.
  induction 1 as [|y l1 l2 H IH|y l1 l2 H IH]; intros Hn.
  - constructor.
  - inversion Hn; subst. auto.
  - inversion Hn; subst. constructor; [|auto].
    intros Hin. eapply subseq_In in Hin; eauto.
Qed.

Lemma subseq_StronglySorted {A} (R : A -> A -> Prop) (l1 l2 : list A) :
  subseq l1 l2 -> StronglySorted R l2 -> StronglySorted R l1.
Proof.
  induction 1 as [|y l1 l2 H IH|y l1 l2 H IH]; intros Hs.
  - constructor.
  - inversion Hs; subst. auto.
  - inversion Hs; subst. constructor; [auto|].
    eapply subseq_Forall; eauto.
Qed.

Lemma subseq_FOP {A} (R : A -> A -> Prop) (l1 l2 : list A) :
  subseq l1 l2 -> ForallOrdPairs R l2 -> ForallOrdPairs R l1.
Proof.
  induction 1 as [|y l1 l2 H IH|y l1 l2 H IH]; intros Hs.
  - constructor.
  - inversion Hs; subst. auto.
  - inversion Hs; subst. constructor; [|auto].
    eapply subseq_Forall; eauto.
Qed.

(** ** Deduplication and diversification as subsequences *)

Lemma Set_has_In (x : string) (s : list string) :
  ResultRanker.Set_has x s = true <-> In x s.
Proof.
  unfold ResultRanker.Set_has. rewrite existsb_exists. split.
  - intros [y [Hy E]]. apply String.eqb_eq in E. now subst.
  - intros H. exists x. split; [exact H | apply String.eqb_refl].
Qed.

Lemma dedupeFrom_spec (allResults : list SearchResult) :
  forall seenContent uniqueResults,
    seenContent = map contentHashOf uniqueResults ->
    NoDup seenContent ->
    exists kept,
      dedupeFrom allResults seenContent uniqueResults = uniqueResults ++ kept /\
      subseq kept allResults /\
      NoDup (map contentHashOf (uniqueResults ++ kept)) /\
      forall r, In r allResults ->
        In (contentHashOf r) (map contentHashOf (uniqueResults ++ kept)).
Proof.
  induction allResults as [|r rest IH]; intros seen uniq Hseen Hnd; simpl.
  - exists []. rewrite app_nil_r. subst seen.
    repeat split; [constructor | exact Hnd | intros r []].
  - fold (contentHashOf r).
    destruct (ResultRanker.Set_has (contentHashOf r) seen) eqn:E.
    + destruct (IH seen uniq Hseen Hnd) as [kept [H1 [H2 [H3 H4]]]].
      exists kept. repeat split; auto; [now constructor|].
      intros x [<-|Hx]; [|auto].
      apply Set_has_In in E. subst seen.
      rewrite map_app. apply in_or_app. now left.
    + destruct (IH (seen ++ [contentHashOf r]) (uniq ++ [r]))
        as [kept [H1 [H2 [H3 H4]]]].
      * subst seen. now rewrite map_app.
      * apply NoDup_snoc; [exact Hnd|].
        intros Hin. apply Set_has_In in Hin. congruence.
      * exists (r :: kept). rewrite <- app_assoc in *. simpl in *.
        repeat split; auto; [now constructor|].
        intros x [<-|Hx]; [|auto].
        rewrite map_app. apply in_or_app. right. now left.
Qed.

Lemma diversifyFrom_subseq (maxSimilarity : number) :
  forall rest diversified,
    exists kept,
      ResultRanker.diversifyFrom maxSimilarity rest diversified
      = diversified ++ kept /\ subseq kept rest.
Proof.
  induction rest as [|c rest IH]; intros diversified; simpl.
  - exists []. split; [now rewrite app_nil_r | constructor].
  - destruct (ResultRanker.shouldInclude maxSimilarity c diversified).
    + destruct (IH (diversified ++ [c])) as [kept [H1 H2]].
      exists (c :: kept). rewrite H1, <- app_assoc.
      split; [reflexivity | now constructor].
    + destruct (IH diversified) as [kept [H1 H2]].
      exists kept. split; [exact H1 | now constructor].
Qed.

(** Diversification only leaves results out: what it returns is a
    subsequence of its input, the order kept. *)
Lemma diversifyResults_subseq (results : list SearchResult)
    (maxSimilarity : number) :
  subseq (ResultRanker.diversifyResults results maxSimilarity) results.
Proof.
  destruct results as [|top [|next rest]]; try apply subseq_refl.
  unfold ResultRanker.diversifyResults.
  destruct (diversifyFrom_subseq maxSimilarity (next :: rest) [top])
    as [kept [-> H]].
  simpl. now constructor.
Qed.

(** ** The enhanced search *)

Section EnhancedSearchProperties.

Variable create : ChatRequest -> outcome ChatCompletion.
Variable embed : EmbeddingRequest -> outcome EmbeddingResponse.
Variable store : StoreQuery -> outcome StoreResponse.
Variable firstRejection : string -> string -> string.

Let search := enhancedSearchPDFContent create embed store firstRejection.

(** What a returned report is made of. *)
Lemma enhancedSearch_inv (query : string) (options : SearchOptions)
    (report : EnhancedReport) :
  search query options = Return report ->
  exists queryVariations allResults ordered,
    let uniqueResults := dedupeFrom allResults [] [] in
    let ranking := rankingApplies options uniqueResults in
    let final := selectFinal options ordered in
    (if enableQueryRefinement options
     then QueryRefiner.generateQueryVariations create query
     else Return [query]) = Return queryVariations /\
    ordered = (if ranking then sortBy (byRelevance query) uniqueResults
               else uniqueResults) /\
    (if (enableSynthesis options && (1 <? Z.of_nat (List.length final)))%bool
     then DocumentSynthesizer.synthesizeResults create (Some final) query
            DocumentSynthesizer.defaultMaxTokens
     else Return JsNull) = Return (synthesis report) /\
    finalResults report = map (withRelevance query ranking) final /\
    totalFound report = Z.of_nat (List.length uniqueResults) /\
    queryVariationCount report = Z.of_nat (List.length queryVariations).
Proof.
  unfold search, enhancedSearchPDFContent. intros H.
  destruct (if enableQueryRefinement options
            then QueryRefiner.generateQueryVariations create query
            else Return [query]) as [vs|e] eqn:V; cbn [bind tryCatch] in H;
    [|discriminate].
  destruct (searchVariations _ _ _ _ _ _ _ _) as [allResults|e] eqn:S;
    cbn [bind tryCatch] in H; [|discriminate].
  exists vs, allResults.
  destruct (rankingApplies options (dedupeFrom allResults [] [])) eqn:R.
  - destruct (generateEmbedding embed query) as [v|e];
      cbn [bind tryCatch] in H; [|discriminate].
    exists (sortBy (byRelevance query) (dedupeFrom allResults [] [])).
    cbv zeta.
    destruct (if (_ && _)%bool then _ else _) as [syn|e] eqn:Y;
      cbn [bind tryCatch] in H; [|discriminate].
    injection H as <-. cbn [finalResults synthesis totalFound queryVariationCount].
    repeat split; try reflexivity.
    rewrite (Permutation_length
               (sortBy_perm SearchResult (relevanceKey query) _)).
    reflexivity.
  - cbn [bind tryCatch] in H. exists (dedupeFrom allResults [] []).
    cbv zeta.
    destruct (if (_ && _)%bool then _ else _) as [syn|e] eqn:Y;
      cbn [bind tryCatch] in H; [|discriminate].
    injection H as <-. cbn [finalResults synthesis totalFound queryVariationCount].
    repeat split; reflexivity.
Qed.

End EnhancedSearchProperties.

Lemma selectFinal_subseq (options : SearchOptions) (l : list SearchResult) :
  subseq (selectFinal options l) l.
Proof.
  unfold selectFinal.
  eapply subseq_trans; [apply subseq_sliceTo|].
  destruct (enableDiversification options); [|apply subseq_refl].
  eapply subseq_trans; [apply diversifyResults_subseq | apply subseq_sliceTo].
Qed.

Lemma sliceTo_length {A} (l : list A) (limit : Z) :
  0 <= limit -> Z.of_nat (List.length (sliceTo l limit)) <= limit.
Proof.
  intros H. rewrite sliceTo_firstn by exact H. rewrite length_firstn. lia.
Qed.

Lemma map_hitOf (query : string) (ranking : bool) (l : list SearchResult) :
  map hitOf (map (withRelevance query ranking) l) = l.
Proof.
  rewrite map_map. simpl. apply map_id.
Qed.

Lemma dedupe_distinct (allResults : list SearchResult) :
  NoDup (map contentHashOf (dedupeFrom allResults [] [])).
Proof.
  destruct (dedupeFrom_spec allResults [] []) as [kept [-> [_ [H _]]]];
    [reflexivity | constructor | exact H].
Qed.

Lemma diversifyResults_pairs (results : list SearchResult)
    (maxSimilarity : number) :
  ForallOrdPairs (notAbove maxSimilarity)
    (ResultRanker.diversifyResults results maxSimilarity).
Proof.
  destruct results as [|top [|next rest]].
  - constructor.
  - constructor; constructor.
  - unfold ResultRanker.diversifyResults.
    apply (diversifyFrom_pairs maxSimilarity). constructor; constructor.
Qed.

Lemma relevanceKey_number (query : string) (result : SearchResult) :
  relevanceKey query result <> NaN.
Proof.
  unfold relevanceKey, orElse.
  destruct (ResultRanker.calculateRelevanceScore result query); simpl;
    try discriminate.
  destruct (negb (Qeq_bool q 0)); discriminate.
Qed.

Lemma sortBy_byRelevance_sorted (query : string) (l : list SearchResult) :
  StronglySorted (notMoreRelevant query) (sortBy (byRelevance query) l).
Proof.
  eapply StronglySorted_weaken;
    [|apply (sortBy_sorted SearchResult (relevanceKey query) (fun _ _ => True))].
  - intros a b [H|[H _]]; unfold notMoreRelevant.
    + now apply ltb_asym.
    + exact (proj1 (numEq_not_ltb _ _ H)).
  - apply Forall_forall. intros r _. apply relevanceKey_number.
  - induction l; constructor; [assumption|]. apply Forall_forall. auto.
Qed.

(** X11: The final results of the enhanced search have pairwise distinct
    100-character content prefixes, are no more than the unique results
    found, no more than [limit] for a limit that is not negative, and,
    when diversification is enabled, no more than [maxResults]. *)
Theorem enhancedSearch_results_distinct_bounded :
  forall (create : ChatRequest -> outcome ChatCompletion)
         (embed : EmbeddingRequest -> outcome EmbeddingResponse)
         (store : StoreQuery -> outcome StoreResponse)
         (firstRejection : string -> string -> string)
         (query : string) (options : SearchOptions) (report : EnhancedReport),
    enhancedSearchPDFContent create embed store firstRejection query options
    = Return report ->
    NoDup (map (fun r => contentHashOf (hitOf r)) (finalResults report)) /\
    Z.of_nat (List.length (finalResults report)) <= totalFound report /\
    (0 <= optLimit options ->
     Z.of_nat (List.length (finalResults report)) <= optLimit options) /\
    (enableDiversification options = true -> 0 <= optMaxResults options ->
     Z.of_nat (List.length (finalResults report)) <= optMaxResults options).
Proof.
  intros create embed store firstRejection query options report H.
  apply enhancedSearch_inv in H
    as [vs [allResults [ordered [_ [Hord [_ [Hfin [Htot _]]]]]]]].
  cbv zeta in *.
  set (unique := dedupeFrom allResults [] []) in *.
  assert (Hperm : Permutation ordered unique).
  { rewrite Hord. destruct (rankingApplies options unique); [|reflexivity].
    apply (sortBy_perm SearchResult (relevanceKey query)). }
  pose proof (selectFinal_subseq options ordered) as Hsub.
  rewrite Hfin, Htot, length_map.
  split; [|split; [|split]].
  - rewrite <- map_map, map_hitOf.
    eapply subseq_NoDup; [apply subseq_map; exact Hsub|].
    eapply Permutation_NoDup;
      [symmetry; apply Permutation_map; exact Hperm|].
    apply dedupe_distinct.
  - apply subseq_length in Hsub.
    rewrite (Permutation_length Hperm) in Hsub. lia.
  - intros Hl. unfold selectFinal. now apply sliceTo_length.
  - intros Hd Hm. unfold selectFinal. rewrite Hd.
    pose proof (subseq_length _ _
                  (subseq_trans _ _ _
                     (subseq_sliceTo
                        (ResultRanker.diversifyResults
                           (sliceTo ordered (optMaxResults options))
                           ResultRanker.defaultMaxSimilarity)
                        (optLimit options))
                     (diversifyResults_subseq _ _))) as Hlen.
    pose proof (sliceTo_length ordered (optMaxResults options) Hm). lia.
Qed.

(** X12: With ranking enabled the final results come in order of relevance:
    no result has a smaller [relevanceScore || 0] than a later one, and
    each carries the score of [calculateRelevanceScore]. *)
Theorem enhancedSearch_results_by_relevance :
  forall (create : ChatRequest -> outcome ChatCompletion)
         (embed : EmbeddingRequest -> outcome EmbeddingResponse)
         (store : StoreQuery -> outcome StoreResponse)
         (firstRejection : string -> string -> string)
         (query : string) (options : SearchOptions) (report : EnhancedReport),
    enhancedSearchPDFContent create embed store firstRejection query options
    = Return report ->
    enableRanking options = true ->
    StronglySorted (notMoreRelevant query) (map hitOf (finalResults report)) /\
    Forall (fun r => relevanceScore r
                     = Some (ResultRanker.calculateRelevanceScore (hitOf r) query))
      (finalResults report).
Proof.
  intros create embed store firstRejection query options report H Hr.
  apply enhancedSearch_inv in H
    as [vs [allResults [ordered [_ [Hord [_ [Hfin _]]]]]]].
  cbv zeta in *.
  set (unique := dedupeFrom allResults [] []) in *.
  pose proof (selectFinal_subseq options ordered) as Hsub.
  rewrite Hfin, map_hitOf.
  unfold rankingApplies in *. rewrite Hr in *. simpl in *.
  destruct (0 <? Z.of_nat (List.length unique)) eqn:E.
  - split.
    + eapply subseq_StronglySorted; [exact Hsub|].
      rewrite Hord. apply sortBy_byRelevance_sorted.
    + apply Forall_map. apply Forall_forall. reflexivity.
  - apply Z.ltb_ge in E. destruct unique; [|simpl in E; lia].
    subst ordered. inversion Hsub; subst. split; constructor.
Qed.

(** X13: With diversification enabled, of any two final results the later
    one's token-set similarity to the earlier one is not above 0.8. *)
Theorem enhancedSearch_results_diverse :
  forall (create : ChatRequest -> outcome ChatCompletion)
         (embed : EmbeddingRequest -> outcome EmbeddingResponse)
         (store : StoreQuery -> outcome StoreResponse)
         (firstRejection : string -> string -> string)
         (query : string) (options : SearchOptions) (report : EnhancedReport),
    enhancedSearchPDFContent create embed store firstRejection query options
    = Return report ->
    enableDiversification options = true ->
    ForallOrdPairs
      (fun earlier later =>
         gtb (ResultRanker.calculateTextSimilarity
                (content later) (content earlier))
             ResultRanker.defaultMaxSimilarity = false)
      (map hitOf (finalResults report)).
Proof.
  intros create embed store firstRejection query options report H Hd.
  apply enhancedSearch_inv in H
    as [vs [allResults [ordered [_ [_ [_ [Hfin _]]]]]]].
  cbv zeta in *. rewrite Hfin, map_hitOf.
  unfold selectFinal. rewrite Hd.
  eapply subseq_FOP; [apply subseq_sliceTo|].
  apply diversifyResults_pairs.
Qed.

(** X14: An answer is synthesised only when synthesis is enabled and at least
    two results are returned; otherwise [synthesis] is null. *)
Theorem enhancedSearch_synthesis_needs_two :
  forall (create : ChatRequest -> outcome ChatCompletion)
         (embed : EmbeddingRequest -> outcome EmbeddingResponse)
         (store : StoreQuery -> outcome StoreResponse)
         (firstRejection : string -> string -> string)
         (query : string) (options : SearchOptions) (report : EnhancedReport),
    enhancedSearchPDFContent create embed store firstRejection query options
    = Return report ->
    synthesis report <> JsNull ->
    enableSynthesis options = true /\
    2 <= Z.of_nat (List.length (finalResults report)).
Proof.
  intros create embed store firstRejection query options report H Hs.
  apply enhancedSearch_inv in H
    as [vs [allResults [ordered [_ [_ [Hsyn [Hfin _]]]]]]].
  cbv zeta in *. rewrite Hfin, length_map.
  destruct (enableSynthesis options); simpl in Hsyn.
  - destruct (1 <? _) eqn:E.
    + apply Z.ltb_lt in E. split; [reflexivity | lia].
    + injection Hsyn as Hsyn. congruence.
  - injection Hsyn as Hsyn. congruence.
Qed.

Lemma degradedReport_returned :
  enhancedSearchPDFContent createDown embedUp storeUp (fun a _ => a)
    "refunds" defaultSearchOptions = Return degradedReport.
Proof. vm_compute. reflexivity. Qed.

Lemma answeredReport_returned :
  enhancedSearchPDFContent createUp embedUp storeUp (fun a _ => a)
    "refunds" defaultSearchOptions = Return answeredReport.
Proof. vm_compute. reflexivity. Qed.

Lemma enhancedSearch_results_distinct_bounded_witness :
  NoDup (map (fun r => contentHashOf (hitOf r)) (finalResults degradedReport)) /\
  List.length (finalResults degradedReport) = 2%nat /\
  Z.of_nat (List.length (finalResults degradedReport)) <= 10 /\
  Z.of_nat (List.length (finalResults degradedReport)) <= 20.
Proof.
  destruct (enhancedSearch_results_distinct_bounded
              createDown embedUp storeUp (fun a _ => a)
              "refunds" defaultSearchOptions degradedReport
              degradedReport_returned) as [H1 [_ [H2 H3]]].
  split; [exact H1|]. split; [vm_compute; reflexivity|].
  split; [apply H2; simpl; lia | apply H3; [reflexivity | simpl; lia]].
Defined.

Lemma enhancedSearch_results_by_relevance_witness :
  StronglySorted (notMoreRelevant "refunds")
    (map hitOf (finalResults degradedReport)) /\
  Forall (fun r => relevanceScore r
                   = Some (ResultRanker.calculateRelevanceScore (hitOf r)
                             "refunds"))
    (finalResults degradedReport).
Proof.
  apply (enhancedSearch_results_by_relevance
           createDown embedUp storeUp (fun a _ => a)
           "refunds" defaultSearchOptions degradedReport
           degradedReport_returned).
  reflexivity.
Defined.

Lemma enhancedSearch_results_diverse_witness :
  ForallOrdPairs
    (fun earlier later =>
       gtb (ResultRanker.calculateTextSimilarity
              (content later) (content earlier))
           ResultRanker.defaultMaxSimilarity = false)
    (map hitOf (finalResults degradedReport)).
Proof.
  apply (enhancedSearch_results_diverse
           createDown embedUp storeUp (fun a _ => a)
           "refunds" defaultSearchOptions degradedReport
           degradedReport_returned).
  reflexivity.
Defined.

Lemma enhancedSearch_synthesis_needs_two_witness :
  synthesis answeredReport = JsString "Refunds take 14 days." /\
  enableSynthesis defaultSearchOptions = true /\
  2 <= Z.of_nat (List.length (finalResults answeredReport)).
Proof.
  split; [vm_compute; reflexivity|].
  apply (enhancedSearch_synthesis_needs_two
           createUp embedUp storeUp (fun a _ => a)
           "refunds" defaultSearchOptions answeredReport
           answeredReport_returned).
  vm_compute. discriminate.
Defined.

(** ** The enhanced search and its collaborators *)

Section Availability.

Variable create : ChatRequest -> outcome ChatCompletion.
Variable embed : EmbeddingRequest -> outcome EmbeddingResponse.
Variable store : StoreQuery -> outcome StoreResponse.
Variable firstRejection : string -> string -> string.

Hypothesis embed_answers :
  forall request, exists v, embed request = Return (EmbeddingOf v).
Hypothesis store_answers :
  forall q, exists docs, store q = Return (Documents docs).






End Availability.



Section StoreDown.

Variable create : ChatRequest -> outcome ChatCompletion.
Variable embed : EmbeddingRequest -> outcome EmbeddingResponse.
Variable store : StoreQuery -> outcome StoreResponse.
Variable firstRejection : string -> string -> string.

Hypothesis store_rejects : forall q, exists e, store q = Throw e.

Lemma searchPDFContent_rejects (query : string) (limit : Z) (alpha : number) :
  exists message,
    searchPDFContent create embed store query limit alpha
    = Throw ("Hybrid search failed: " ++ message)%string.
Proof.
  unfold searchPDFContent.
  destruct (enhanceQuery_returns create query) as [enhanced ->].
  cbn [bind tryCatch].
  destruct (generateEmbedding_cases embed enhanced) as [[v ->]|[m ->]];
    cbn [bind tryCatch]; [|eauto].
  destruct (store_rejects (HybridQuery fieldsHybrid enhanced v alpha
                             "rankedFusion" limit)) as [e ->].
  cbn [bind tryCatch]. eauto.
Qed.

Lemma runSearch_rejects (searchType searchQuery : string) (limit : Z) :
  exists message,
    runSearch create embed store firstRejection searchType searchQuery limit
    = Throw message.
Proof.
  unfold runSearch.
  destruct (String.eqb searchType "basic");
    [|destruct (String.eqb searchType "advanced");
      [|destruct (String.eqb searchType "smart")]].
  - unfold basicSearchPDFContent.
    destruct (store_rejects (ListQuery fieldsCheck 1)) as [e ->].
    cbn [bind tryCatch]. eauto.
  - unfold searchPDFContentAdvanced.
    destruct (enhanceQuery_returns create searchQuery) as [enhanced ->].
    cbn [bind tryCatch].
    destruct (generateEmbedding_cases embed enhanced) as [[v ->]|[m ->]];
      cbn [bind tryCatch]; [|eauto].
    destruct (store_rejects (NearVectorQuery fieldsVector v (limit * 2)))
      as [e1 ->].
    destruct (store_rejects (Bm25Query fieldsKeyword enhanced
                               ["content"; "filename"] (limit * 2)))
      as [e2 ->].
    cbn [bind tryCatch promiseAll2]. eauto.
  - unfold smartSearchPDFContent.
    destruct (searchPDFContent_rejects searchQuery limit
                (alphaOf (getOptimalSearchParams searchQuery))) as [m ->].
    cbn [bind]. eauto.
  - destruct (searchPDFContent_rejects searchQuery limit (Fin (7 # 10)))
      as [m ->].
    cbn [bind]. eauto.
Qed.

End StoreDown.

(** X16: A store that is down is never reported as an empty result: when the
    store rejects every query, the enhanced search throws, for every
    search type and every options, whatever the other collaborators do. *)
Theorem enhancedSearch_throws_when_store_down :
  forall (create : ChatRequest -> outcome ChatCompletion)
         (embed : EmbeddingRequest -> outcome EmbeddingResponse)
         (store : StoreQuery -> outcome StoreResponse)
         (firstRejection : string -> string -> string)
         (query : string) (options : SearchOptions),
    (forall q, exists e, store q = Throw e) ->
    exists message,
      enhancedSearchPDFContent create embed store firstRejection query options
      = Throw message.
Proof.
  intros create embed store firstRejection query options Hs.
  unfold enhancedSearchPDFContent.
  assert (Hv : exists rest,
            (if enableQueryRefinement options
             then QueryRefiner.generateQueryVariations create query
             else Return [query]) = Return (query :: rest)).
  { destruct (enableQueryRefinement options); [|eauto].
    destruct (generateQueryVariations_returns create query) as [vs [H _]].
    eauto. }
  destruct Hv as [rest ->]. cbn [bind tryCatch].
  rewrite sliceTo_firstn by lia. change (Z.to_nat 3) with 3%nat.
  cbn [firstn searchVariations].
  destruct (runSearch_rejects create embed store firstRejection Hs
              (optSearchType options) query
              (ceilDiv (optMaxResults options) (List.length (query :: rest))))
    as [m ->].
  cbn [bind tryCatch]. eauto.
Qed.

Lemma enhancedSearch_throws_when_store_down_witness :
  exists message,
    enhancedSearchPDFContent createUp embedUp storeDown (fun a _ => a)
      "refunds" defaultSearchOptions = Throw message.
Proof.
  apply enhancedSearch_throws_when_store_down.
  intros q. now exists "store unreachable".
Defined.

(** ** Chunk metadata *)

Lemma calculateImportance_range (text : string) :
  exists q, calculateImportance text = Fin q /\ (0 <= q <= 1)%Q.
Proof.
  unfold calculateImportance. apply min2_one_range.
  assert (Hstep : forall (b : bool) (score : number) (q : Q),
             nonneg score -> (0 <= q)%Q ->
             nonneg (if b then add score (Fin q) else score)).
  { intros b score q Hs Hq. destruct b; [|exact Hs].
    apply nonneg_add; [exact Hs | now apply nonneg_Fin]. }
  apply Hstep; [|lra].
  assert (Hfold : forall words score,
             nonneg score ->
             nonneg (fold_left
                       (fun score word =>
                          if includes (toLowerCase text) word
                          then add score (Fin (1 # 10)) else score)
                       words score)).
  { induction words as [|w words IH]; intros score Hs; simpl; [exact Hs|].
    apply IH. apply Hstep; [exact Hs | lra]. }
  apply Hfold. apply Hstep; [|lra]. apply Hstep; [|lra].
  apply nonneg_Fin. lra.
Qed.

Lemma length_append (s1 s2 : string) :
  String.length (s1 ++ s2)%string = (String.length s1 + String.length s2)%nat.
Proof. induction s1 as [|c s1 IH]; simpl; [reflexivity | now rewrite IH]. Qed.

(** X17: Every chunk of [enhancedChunkTextWithOverlap] carries an importance
    in [0,1], a word count of at least 1 and a summary of at most 203
    characters, which is the text itself when that has no more than 200
    characters; its text is longer than 50 characters. *)
Theorem enhanced_chunk_metadata :
  forall (extractKeywords : string -> list string) (text : string)
         (maxChunkSize overlap : Z) (chunks : list EnhancedChunk)
         (c : EnhancedChunk),
    enhancedChunkTextWithOverlap extractKeywords calculateImportance
      text maxChunkSize overlap = Some chunks ->
    In c chunks ->
    (exists q, e_importance c = Fin q /\ (0 <= q <= 1)%Q) /\
    1 <= e_wordCount c /\
    50 < strlen (e_text c) /\
    strlen (e_summary c) <= 203 /\
    (strlen (e_text c) <= 200 -> e_summary c = e_text c).
Proof.
  intros extractKeywords text maxChunkSize overlap chunks c H Hin.
  unfold enhancedChunkTextWithOverlap in H.
  apply enhancedLoop_emitted in H. simpl in H. subst chunks.
  unfold emitted in Hin. apply in_map_iff in Hin as [w [<- Hw]].
  apply filter_In in Hw as [_ Hlen]. apply Z.ltb_lt in Hlen.
  set (t := windowText text w) in *. unfold describe. simpl.
  split; [apply calculateImportance_range|].
  split.
  { pose proof (splitWsFrom_length (chars t) [] false).
    unfold splitWs. lia. }
  split; [exact Hlen|].
  destruct (strlen t >? 200) eqn:E.
  - split; [|apply Z.gtb_lt in E; lia].
    unfold strlen. rewrite length_append.
    pose proof (length_substring 0 200 t). simpl. lia.
  - split; [|reflexivity].
    rewrite Z.gtb_ltb in E. apply Z.ltb_ge in E. lia.
Qed.

Lemma enhanced_chunk_metadata_witness :
  (exists q, e_importance firstEnhancedChunk = Fin q /\ (0 <= q <= 1)%Q) /\
  1 <= e_wordCount firstEnhancedChunk /\
  50 < strlen (e_text firstEnhancedChunk) /\
  strlen (e_summary firstEnhancedChunk) <= 203 /\
  (strlen (e_text firstEnhancedChunk) <= 200 ->
   e_summary firstEnhancedChunk = e_text firstEnhancedChunk).
Proof.
  apply (enhanced_chunk_metadata (fun _ => []) sampleText 100 20
           sampleEnhancedChunks firstEnhancedChunk).
  - reflexivity.
  - vm_compute. left. reflexivity.
Defined.

(** ** Storing a document *)

Lemma chunkOf_mkChunk (c : Chunk) :
  mkChunk (chunk_text c) (chunk_start c) (chunk_end c) = c.
Proof. now destruct c. Qed.

Lemma indicesFrom_app (a b : nat) :
  forall start,
    indicesFrom start (a + b) =
    indicesFrom start a ++ indicesFrom (start + Z.of_nat a) b.
Proof.
  induction a as [|a IH]; intros start.
  - simpl. now rewrite Z.add_0_r.
  - cbn [Nat.add indicesFrom app]. rewrite IH. do 3 f_equal. lia.
Qed.

Lemma firstn_plus {A} (a b : nat) (l : list A) :
  firstn (a + b) l = firstn a l ++ firstn b (skipn a l).
Proof.
  revert l. induction a as [|a IH]; intros l; [reflexivity|].
  destruct l as [|x l]; simpl; [now rewrite firstn_nil | now rewrite IH].
Qed.

Section StoringFacts.

Variable pdf : string -> outcome (string * Z).
Variable now : Z -> string.
Variable pathJoin : string -> string -> string.
Variable copyFileSync : string -> string -> outcome unit.
Variable embed : EmbeddingRequest -> outcome EmbeddingResponse.
Variable doBatch : list StoredObject -> outcome unit.
Variable overlap : Z.

Variable text : string.
Variable numPages : Z.
Variable chunks : list Chunk.
Variable originalFilename savedFilename permanentPath : string.

Let embedBatch' :=
  embedBatch now embed text numPages chunks
    originalFilename savedFilename permanentPath.
Let storeLoop' :=
  storeLoop now embed doBatch text numPages chunks
    originalFilename savedFilename permanentPath.
Let stamped' :=
  stamped embed text numPages (Z.of_nat (List.length chunks))
    originalFilename savedFilename permanentPath.

Lemma embedBatch_objects (i : Z) :
  forall batch j pushed objects,
    embedBatch' i batch j pushed = Return objects ->
    exists news,
      objects = pushed ++ news /\
      map chunkOf news = batch /\
      map o_chunkIndex news = indicesFrom (i + j) (List.length batch) /\
      Forall stamped' news.
Proof.
  induction batch as [|chunk rest IH]; intros j pushed objects H.
  - injection H as <-. exists []. rewrite app_nil_r. repeat split. constructor.
  - cbn [embedBatch' embedBatch] in H.
    destruct (generateEmbedding embed (chunk_text chunk)) as [v|e] eqn:G;
      [|discriminate].
    cbn [bind] in H. apply IH in H as (news & -> & Hc & Hi & Hs).
    exists (objectOf now text numPages chunks originalFilename savedFilename
              permanentPath chunk (i + j) v :: news).
    split; [now rewrite <- app_assoc|].
    split; [cbn; unfold chunkOf at 1; cbn; now rewrite chunkOf_mkChunk, Hc|].
    split.
    { cbn. rewrite Hi. do 2 f_equal. lia. }
    constructor; [|exact Hs].
    unfold stamped', stamped. cbn. repeat split. exact G.
Qed.

Lemma embedBatch_answers (i : Z) :
  forall batch j pushed,
    (forall c, In c batch ->
               exists v, generateEmbedding embed (chunk_text c) = Return v) ->
    exists objects, embedBatch' i batch j pushed = Return objects.
Proof.
  induction batch as [|chunk rest IH]; intros j pushed H; [now eexists|].
  cbn [embedBatch' embedBatch].
  destruct (H chunk (or_introl eq_refl)) as [v ->]. cbn [bind].
  apply IH. intros c Hc. apply H. now right.
Qed.

Lemma embedBatch_throws (i : Z) :
  forall batch j pushed p c message,
    nth_error batch p = Some c ->
    generateEmbedding embed (chunk_text c) = Throw message ->
    (forall p' c', (p' < p)%nat -> nth_error batch p' = Some c' ->
                   exists v, generateEmbedding embed (chunk_text c') = Return v) ->
    embedBatch' i batch j pushed = Throw message.
Proof.
  induction batch as [|chunk rest IH]; intros j pushed p c message Hp Hc Hbefore.
  - now destruct p.
  - cbn [embedBatch' embedBatch]. destruct p as [|p].
    + injection Hp as ->. now rewrite Hc.
    + destruct (Hbefore 0%nat chunk) as [v ->]; [lia|reflexivity|].
      cbn [bind]. apply (IH _ _ p c message Hp Hc).
      intros p' c' Hlt Hn. apply (Hbefore (S p') c'); [lia|exact Hn].
Qed.

Lemma storeLoop_settles :
  forall fuel i log,
    0 <= i ->
    Z.max 0 (Z.of_nat (List.length chunks) - i) < Z.of_nat fuel ->
    exists settled, storeLoop' fuel i log = Some settled.
Proof.
  induction fuel as [|fuel IH]; intros i log Hi Hf; [lia|].
  cbn [storeLoop' storeLoop].
  destruct (i <? Z.of_nat (List.length chunks)) eqn:E; [|now eexists].
  apply Z.ltb_lt in E.
  destruct (embedBatch _ _ _ _ _ _ _ _ _ _ _ _) as [objects|e]; [|now eexists].
  destruct (doBatch objects); [|now eexists].
  apply IH; lia.
Qed.

Lemma batch_length (i : Z) :
  0 <= i < Z.of_nat (List.length chunks) ->
  (1 <= List.length (firstn 5 (skipn (Z.to_nat i) chunks)) <= 5)%nat.
Proof.
  intros Hi. rewrite length_firstn, length_skipn. lia.
Qed.

Lemma storeLoop_returns :
  forall fuel i log log',
    0 <= i ->
    storeLoop' fuel i log = Some (log', Return tt) ->
    exists batches,
      log' = log ++ map SendBatch batches /\
      map chunkOf (List.concat batches) = skipn (Z.to_nat i) chunks /\
      map o_chunkIndex (List.concat batches)
      = indicesFrom i (List.length (List.concat batches)) /\
      Forall stamped' (List.concat batches) /\
      Forall batchSized batches.
Proof.
  induction fuel as [|fuel IH]; intros i log log' Hi H; [discriminate|].
  cbn [storeLoop' storeLoop] in H.
  destruct (i <? Z.of_nat (List.length chunks)) eqn:E.
  - apply Z.ltb_lt in E.
    destruct (embedBatch _ _ _ _ _ _ _ _ _ _ _ _) as [objects|e] eqn:B;
      [|discriminate].
    destruct (doBatch objects); [|discriminate].
    apply embedBatch_objects in B as (news & -> & Hc & Hx & Hs).
    cbn [app] in H.
    apply IH in H as (batches & -> & Hc' & Hx' & Hs' & Hb); [|lia].
    exists (news :: batches).
    assert (Hlen : List.length news
                   = List.length (firstn 5 (skipn (Z.to_nat i) chunks))).
    { now rewrite <- Hc, length_map. }
    pose proof (batch_length i (conj Hi E)) as Hsize.
    split; [now rewrite <- app_assoc|].
    split.
    { cbn [List.concat]. rewrite map_app, Hc, Hc'.
      replace (Z.to_nat (i + 5)) with (5 + Z.to_nat i)%nat by lia.
      rewrite <- skipn_skipn. apply firstn_skipn. }
    split.
    { cbn [List.concat]. rewrite map_app, length_app, indicesFrom_app, Hx, Hx'.
      rewrite Z.add_0_r, <- Hlen. f_equal.
      destruct (Nat.eq_dec (List.length news) 5) as [->|Hne]; [reflexivity|].
      assert (Hnil : List.concat batches = []).
      { apply (map_eq_nil chunkOf). rewrite Hc'. apply skipn_all2.
        rewrite Hlen, length_firstn, length_skipn in Hne. lia. }
      now rewrite Hnil. }
    split.
    { cbn [List.concat]. apply Forall_app. now split. }
    constructor; [|exact Hb]. unfold batchSized. now rewrite Hlen.
  - apply Z.ltb_ge in E. injection H as <-.
    exists []. cbn. rewrite app_nil_r. repeat split; try constructor.
    symmetry. apply skipn_all2. lia.
Qed.

Section FirstFailure.

(** The chunk at index [k] is the first whose embedding fails, and the
    store takes every batch. *)
Variable k : nat.
Variable failing : Chunk.
Variable message : string.
Hypothesis at_k : nth_error chunks k = Some failing.
Hypothesis fails :
  generateEmbedding embed (chunk_text failing) = Throw message.
Hypothesis before_k :
  forall k' c, (k' < k)%nat -> nth_error chunks k' = Some c ->
               exists v, generateEmbedding embed (chunk_text c) = Return v.
Hypothesis store_takes : forall objects, doBatch objects = Return tt.

Lemma storeLoop_first_failure :
  forall fuel b log,
    (5 * b <= k)%nat -> (k / 5 - b < fuel)%nat ->
    exists batches,
      storeLoop' fuel (Z.of_nat (5 * b)) log
      = Some (log ++ map SendBatch batches, Throw message) /\
      firstn (5 * b) chunks ++ map chunkOf (List.concat batches)
      = firstn (5 * (k / 5)) chunks /\
      Forall batchSized batches.
Proof.
  assert (Hk : (k < List.length chunks)%nat).
  { apply nth_error_Some. now rewrite at_k. }
  induction fuel as [|fuel IH]; intros b log Hb Hf; [lia|].
  cbn [storeLoop' storeLoop].
  destruct (Z.of_nat (5 * b) <? Z.of_nat (List.length chunks)) eqn:E;
    [|apply Z.ltb_ge in E; lia].
  rewrite Nat2Z.id.
  destruct (Nat.lt_ge_cases k (5 * b + 5)) as [Hin|Hout].
  - assert (Hq : (k / 5 = b)%nat).
    { symmetry. apply (Nat.div_unique k 5 b (k - 5 * b)); lia. }
    fold (embedBatch' (Z.of_nat (5 * b))
            (firstn 5 (skipn (5 * b) chunks)) 0 []).
    rewrite (embedBatch_throws _ _ 0 [] (k - 5 * b)%nat failing message).
    + exists []. cbn [map List.concat]. rewrite !app_nil_r, Hq.
      repeat split. constructor.
    + rewrite nth_error_firstn.
      replace (k - 5 * b <? 5)%nat with true
        by (symmetry; apply Nat.ltb_lt; lia).
      rewrite nth_error_skipn.
      replace (5 * b + (k - 5 * b))%nat with k by lia. exact at_k.
    + exact fails.
    + intros p' c' Hlt Hn. rewrite nth_error_firstn in Hn.
      destruct (p' <? 5)%nat; [|discriminate].
      rewrite nth_error_skipn in Hn.
      apply (before_k (5 * b + p')%nat c'); [lia|exact Hn].
  - fold (embedBatch' (Z.of_nat (5 * b))
            (firstn 5 (skipn (5 * b) chunks)) 0 []).
    destruct (embedBatch_answers (Z.of_nat (5 * b))
                (firstn 5 (skipn (5 * b) chunks)) 0 []) as [objects B].
    { intros c Hc. apply In_nth_error in Hc as [p Hp].
      rewrite nth_error_firstn in Hp.
      destruct (p <? 5)%nat eqn:P; [|discriminate].
      apply Nat.ltb_lt in P. rewrite nth_error_skipn in Hp.
      apply (before_k (5 * b + p)%nat c); [lia|exact Hp]. }
    rewrite B, store_takes.
    apply embedBatch_objects in B as (news & -> & Hc & _ & _).
    cbn [app].
    assert (Hq : (S b <= k / 5)%nat).
    { apply Nat.div_le_lower_bound; lia. }
    replace (Z.of_nat (5 * b) + 5) with (Z.of_nat (5 * S b)) by lia.
    destruct (IH (S b) (log ++ [SendBatch news])) as (batches & -> & Hp & Hs);
      [lia|lia|].
    exists (news :: batches).
    split; [now rewrite <- app_assoc|].
    split.
    { cbn [List.concat]. rewrite map_app, Hc, app_assoc, <- firstn_plus.
      replace (5 * b + 5)%nat with (5 * S b)%nat by lia. exact Hp. }
    constructor; [|exact Hs].
    unfold batchSized. rewrite <- (length_map chunkOf), Hc.
    rewrite length_firstn, length_skipn. lia.
Qed.

End FirstFailure.

End StoringFacts.

(** X18: [storePDFInWeaviate] always settles.  What it throws starts with
    "Failed to store PDF: ", and when the file cannot be read or parsed
    nothing has been copied or sent. *)
Theorem storePDFInWeaviate_settles :
  forall (pdf : string -> outcome (string * Z)) (now : Z -> string)
         (pathJoin : string -> string -> string)
         (copyFileSync : string -> string -> outcome unit)
         (embed : EmbeddingRequest -> outcome EmbeddingResponse)
         (doBatch : list StoredObject -> outcome unit) (overlap : Z)
         (filePath originalFilename : string),
    (exists log result,
        storePDFInWeaviate pdf now pathJoin copyFileSync embed doBatch overlap
          filePath originalFilename = Some (log, result) /\
        forall error, result = Throw error ->
          exists message, error = ("Failed to store PDF: " ++ message)%string) /\
    (forall message, pdf filePath = Throw message ->
       storePDFInWeaviate pdf now pathJoin copyFileSync embed doBatch overlap
         filePath originalFilename
       = Some ([], Throw ("Failed to store PDF: PDF text extraction failed: "
                          ++ message)%string)).
Proof.
  intros. split.
  - unfold storePDFInWeaviate, extractPDFText.
    destruct (pdf filePath) as [[text numPages]|e]; cbn [tryCatch].
    2:{ eexists _, _. split; [reflexivity|]. intros error [= <-]. eexists. reflexivity. }
    destruct (chunkTextWithOverlap_total text 800 overlap) as [chunks ->].
    destruct (copyFileSync _ _).
    2:{ eexists _, _. split; [reflexivity|]. intros error' [= <-]. eexists. reflexivity. }
    match goal with
    | |- context [storeLoop ?n ?e ?d ?t ?p ?c ?o ?s ?pp ?f ?i ?l] =>
        destruct (storeLoop_settles n e d t p c o s pp f i l)
          as [[log [[]|e']] ->]; [lia|lia| |]
    end.
    + eexists _, _. split; [reflexivity|]. discriminate.
    + eexists _, _. split; [reflexivity|]. intros error' [= <-]. eexists. reflexivity.
  - intros message H. unfold storePDFInWeaviate, extractPDFText.
    now rewrite H.
Qed.

Lemma short_text_no_chunks (text : string) (overlap : Z) :
  strlen text <= 50 -> chunkTextWithOverlap text 800 overlap = Some [].
Proof.
  intros Hshort. rewrite chunkTextWithOverlap_emitted. f_equal.
  unfold emitted.
  destruct (filter _ _) as [|[s e] l] eqn:F; [reflexivity|].
  assert (Hin : In (s, e)
                  (filter (fun w => 50 <? strlen (windowText text w))
                     (windows text 800 overlap))).
  { rewrite F. now left. }
  apply filter_In in Hin as [Hw Hlen]. apply Z.ltb_lt in Hlen.
  apply (windowsFrom_bounds text 800 overlap) in Hw; [|lia|lia].
  unfold windowText in Hlen. simpl in *.
  pose proof (strlen_trim (slice text s e)).
  pose proof (strlen_slice text s e). lia.
Qed.

(** X19: When [storePDFInWeaviate] resolves, the upload was copied first and
    then every chunk of its text was sent exactly once and in order, in
    batches of 1 to 5 objects; the chunk indices count from 0, each vector
    is the embedding of its content, and the receipt reports the number
    of chunks. *)
Theorem storePDFInWeaviate_sends_every_chunk_in_order :
  forall (pdf : string -> outcome (string * Z)) (now : Z -> string)
         (pathJoin : string -> string -> string)
         (copyFileSync : string -> string -> outcome unit)
         (embed : EmbeddingRequest -> outcome EmbeddingResponse)
         (doBatch : list StoredObject -> outcome unit) (overlap : Z)
         (filePath originalFilename : string)
         (log : list Effect) (receipt : StoreReceipt),
    storePDFInWeaviate pdf now pathJoin copyFileSync embed doBatch overlap
      filePath originalFilename = Some (log, Return receipt) ->
    exists text numPages chunks batches,
      pdf filePath = Return (text, numPages) /\
      chunkTextWithOverlap text 800 overlap = Some chunks /\
      log = CopyFile filePath (r_savedPath receipt) :: map SendBatch batches /\
      Forall batchSized batches /\
      map chunkOf (List.concat batches) = chunks /\
      map o_chunkIndex (List.concat batches)
      = indicesFrom 0 (List.length chunks) /\
      Forall (stamped embed text numPages (r_chunksStored receipt)
                originalFilename (r_savedFilename receipt)
                (r_savedPath receipt))
        (List.concat batches) /\
      r_success receipt = true /\
      r_chunksStored receipt = Z.of_nat (List.length chunks) /\
      r_pages receipt = numPages.
Proof.
  intros pdf now pathJoin copyFileSync embed doBatch overlap
    filePath originalFilename log receipt H.
  unfold storePDFInWeaviate, extractPDFText in H.
  destruct (pdf filePath) as [[text numPages]|e]; cbn [tryCatch] in H;
    [|discriminate].
  destruct (chunkTextWithOverlap text 800 overlap) as [chunks|] eqn:C;
    [|discriminate].
  destruct (copyFileSync _ _); [|discriminate].
  destruct (storeLoop _ _ _ _ _ _ _ _ _ _ _ _) as [[log' [[]|e]]|] eqn:L;
    [|discriminate|discriminate].
  injection H as <- <-.
  apply storeLoop_returns in L as (batches & -> & Hc & Hx & Hs & Hb); [|lia].
  exists text, numPages, chunks, batches. cbn.
  assert (Hlen : List.length (List.concat batches) = List.length chunks).
  { now rewrite <- (length_map chunkOf), Hc. }
  rewrite Hlen in Hx. repeat split; assumption.
Qed.

Lemma storePDFInWeaviate_sends_every_chunk_in_order_witness :
  exists text numPages chunks batches,
    pdfUp "/tmp/upload-1" = Return (text, numPages) /\
    chunkTextWithOverlap text 800 200 = Some chunks /\
    fst sampleStore
    = CopyFile "/tmp/upload-1" (r_savedPath sampleReceipt)
        :: map SendBatch batches /\
    Forall batchSized batches /\
    map chunkOf (List.concat batches) = chunks /\
    map o_chunkIndex (List.concat batches)
    = indicesFrom 0 (List.length chunks) /\
    Forall (stamped embedUp text numPages (r_chunksStored sampleReceipt)
              "policy.pdf" (r_savedFilename sampleReceipt)
              (r_savedPath sampleReceipt))
      (List.concat batches) /\
    r_success sampleReceipt = true /\
    r_chunksStored sampleReceipt = Z.of_nat (List.length chunks) /\
    r_pages sampleReceipt = numPages.
Proof.
  apply (storePDFInWeaviate_sends_every_chunk_in_order
           pdfUp clock joinPath copyUp embedUp batchUp 200
           "/tmp/upload-1" "policy.pdf").
  vm_compute. reflexivity.
Defined.

(** X20: Nothing is taken back when an embedding fails.  If the chunk at
    index [k] is the first whose embedding is rejected, while the copy
    and the store work, [storePDFInWeaviate] throws the rejection behind
    "Failed to store PDF: " after the upload was copied and the first
    [5 * (k / 5)] chunks were sent: the batches before the one of [k]. *)
Theorem storePDFInWeaviate_keeps_batches_sent_before_failure :
  forall (pdf : string -> outcome (string * Z)) (now : Z -> string)
         (pathJoin : string -> string -> string)
         (copyFileSync : string -> string -> outcome unit)
         (embed : EmbeddingRequest -> outcome EmbeddingResponse)
         (doBatch : list StoredObject -> outcome unit) (overlap : Z)
         (filePath originalFilename text : string) (numPages : Z)
         (chunks : list Chunk) (k : nat) (failing : Chunk) (message : string),
    pdf filePath = Return (text, numPages) ->
    chunkTextWithOverlap text 800 overlap = Some chunks ->
    (forall from to, copyFileSync from to = Return tt) ->
    (forall objects, doBatch objects = Return tt) ->
    nth_error chunks k = Some failing ->
    generateEmbedding embed (chunk_text failing) = Throw message ->
    (forall k' c, (k' < k)%nat -> nth_error chunks k' = Some c ->
                  exists v, generateEmbedding embed (chunk_text c) = Return v) ->
    exists to batches,
      storePDFInWeaviate pdf now pathJoin copyFileSync embed doBatch overlap
        filePath originalFilename
      = Some (CopyFile filePath to :: map SendBatch batches,
              Throw ("Failed to store PDF: " ++ message)%string) /\
      map chunkOf (List.concat batches) = firstn (5 * (k / 5)) chunks /\
      Forall batchSized batches.
Proof.
  intros pdf now pathJoin copyFileSync embed doBatch overlap
    filePath originalFilename text numPages chunks k failing message
    Hpdf Hchunks Hcopy Hstore Hk Hfails Hbefore.
  unfold storePDFInWeaviate, extractPDFText.
  rewrite Hpdf. cbn [tryCatch]. rewrite Hchunks, Hcopy.
  assert (Hlt : (k < List.length chunks)%nat).
  { apply nth_error_Some. now rewrite Hk. }
  match goal with
  | |- context [storeLoop _ _ _ _ _ _ ?o ?s ?pp ?f _ ?l] =>
      destruct (storeLoop_first_failure now embed doBatch text numPages
                  chunks o s pp k failing message Hk Hfails Hbefore Hstore
                  f 0%nat l) as (batches & L & Hp & Hs)
  end.
  { lia. }
  { pose proof (Nat.Div0.div_le_upper_bound k 5 (List.length chunks)). lia. }
  change (Z.of_nat (5 * 0)) with 0 in L. rewrite L.
  eexists _, batches. split; [reflexivity|]. split; [exact Hp | exact Hs].
Qed.

Lemma storePDFInWeaviate_keeps_batches_sent_before_failure_witness :
  exists to batches,
    storePDFInWeaviate pdfUp clock joinPath copyUp embedPicky batchUp 200
      "/tmp/upload-1" "policy.pdf"
    = Some (CopyFile "/tmp/upload-1" to :: map SendBatch batches,
            Throw ("Failed to store PDF: "
                   ++ "Embedding generation failed: rejected")%string) /\
    map chunkOf (List.concat batches) = firstn (5 * (6 / 5)) storedChunks /\
    Forall batchSized batches.
Proof.
  apply (storePDFInWeaviate_keeps_batches_sent_before_failure
           pdfUp clock joinPath copyUp embedPicky batchUp 200
           "/tmp/upload-1" "policy.pdf" sampleText 3 storedChunks 6%nat
           seventhChunk).
  - reflexivity.
  - vm_compute. reflexivity.
  - reflexivity.
  - reflexivity.
  - vm_compute. reflexivity.
  - vm_compute. reflexivity.
  - intros k' c Hlt Hn.
    do 6 (destruct k' as [|k'];
          [vm_compute in Hn; injection Hn as <-; vm_compute; eexists;
           reflexivity|]).
    lia.
Defined.

(** X21: A text of at most 50 characters gives no chunk: when the copy works,
    [storePDFInWeaviate] resolves with [success] and 0 chunks stored,
    having copied the upload and sent nothing, without asking for any
    embedding. *)
Theorem storePDFInWeaviate_short_text_stores_nothing :
  forall (pdf : string -> outcome (string * Z)) (now : Z -> string)
         (pathJoin : string -> string -> string)
         (copyFileSync : string -> string -> outcome unit)
         (embed : EmbeddingRequest -> outcome EmbeddingResponse)
         (doBatch : list StoredObject -> outcome unit) (overlap : Z)
         (filePath originalFilename text : string) (numPages : Z),
    pdf filePath = Return (text, numPages) ->
    strlen text <= 50 ->
    (forall from to, copyFileSync from to = Return tt) ->
    exists savedFilename to,
      storePDFInWeaviate pdf now pathJoin copyFileSync embed doBatch overlap
        filePath originalFilename
      = Some ([CopyFile filePath to],
              Return (mkStoreReceipt true 0 originalFilename savedFilename
                        to numPages)).
Proof.
  intros pdf now pathJoin copyFileSync embed doBatch overlap
    filePath originalFilename text numPages Hpdf Hshort Hcopy.
  unfold storePDFInWeaviate, extractPDFText.
  rewrite Hpdf. cbn [tryCatch].
  rewrite (short_text_no_chunks text overlap Hshort), Hcopy.
  cbn. eexists _, _. reflexivity.
Qed.

Lemma storePDFInWeaviate_short_text_stores_nothing_witness :
  exists savedFilename to,
    storePDFInWeaviate pdfShort clock joinPath copyUp embedUp batchUp 200
      "/tmp/upload-2" "blank.pdf"
    = Some ([CopyFile "/tmp/upload-2" to],
            Return (mkStoreReceipt true 0 "blank.pdf" savedFilename to 1)).
Proof.
  apply (storePDFInWeaviate_short_text_stores_nothing
           pdfShort clock joinPath copyUp embedUp batchUp 200
           "/tmp/upload-2" "blank.pdf" fiftyChars 1).
  - reflexivity.
  - vm_compute. discriminate.
  - reflexivity.
Defined.

(** ** The end of the text *)

Lemma windowEnd_at_tail (text : string) (maxChunkSize start : Z) :
  strlen text <= start + maxChunkSize ->
  windowEnd text maxChunkSize start = Some (strlen text).
Proof.
  intros H. unfold windowEnd.
  rewrite (Z.min_r (start + maxChunkSize) (strlen text)) by lia.
  now rewrite Z.ltb_irrefl.
Qed.

Lemma windowsFrom_slide (text : string) (maxChunkSize overlap : Z) :
  overlap <= maxChunkSize ->
  forall fuel start p,
    strlen text - overlap <= start -> 0 <= start <= p -> p < strlen text ->
    strlen text - start < Z.of_nat fuel ->
    In (p, strlen text) (windowsFrom fuel text maxChunkSize overlap start).
Proof.
  intros Ho. induction fuel as [|fuel IH]; intros start p Hlo Hs Hp Hf;
    [lia|].
  cbn [windowsFrom].
  destruct (start <? strlen text) eqn:E; [|apply Z.ltb_ge in E; lia].
  rewrite windowEnd_at_tail by lia.
  destruct (Z.eq_dec start p) as [->|Hne]; [now left|].
  right. unfold nextStart. rewrite Z.max_l by lia. apply IH; lia.
Qed.

Lemma windowsFrom_reach_tail (text : string) (maxChunkSize overlap : Z) :
  1 <= maxChunkSize -> overlap <= maxChunkSize ->
  forall fuel start p,
    0 <= start <= Z.max 0 (strlen text - overlap) ->
    Z.max 0 (strlen text - overlap) <= p < strlen text ->
    strlen text - start < Z.of_nat fuel ->
    In (p, strlen text) (windowsFrom fuel text maxChunkSize overlap start).
Proof.
  intros Hm Ho. induction fuel as [|fuel IH]; intros start p Hs Hp Hf; [lia|].
  destruct (Z.eq_dec start (Z.max 0 (strlen text - overlap))) as [->|Hne].
  { apply (windowsFrom_slide text maxChunkSize overlap Ho); lia. }
  cbn [windowsFrom].
  destruct (start <? strlen text) eqn:E; [|apply Z.ltb_ge in E; lia].
  destruct (windowEnd_total text maxChunkSize start) as [end_ W]; [lia|].
  rewrite W. right.
  apply windowEnd_bounds in W; [|exact Hm|lia].
  apply IH; unfold nextStart; lia.
Qed.

(** X22: The last [overlap] characters are cut once per character.  With
    [overlap <= maxChunkSize], every position from [text.length - overlap]
    on, or from 0 on in a shorter text, opens a window that runs to the
    end of the text, and [chunkTextWithOverlap] returns a chunk for it
    whenever its trimmed text has more than 50 characters. *)
Theorem chunkTextWithOverlap_tail_once_per_character :
  forall (text : string) (maxChunkSize overlap s : Z),
    1 <= maxChunkSize -> overlap <= maxChunkSize ->
    Z.max 0 (strlen text - overlap) <= s < strlen text ->
    In (s, strlen text) (windows text maxChunkSize overlap) /\
    (50 < strlen (windowText text (s, strlen text)) ->
     exists chunks,
       chunkTextWithOverlap text maxChunkSize overlap = Some chunks /\
       In (mkChunk (windowText text (s, strlen text)) s (strlen text)) chunks).
Proof.
  intros text maxChunkSize overlap s Hm Ho Hs.
  assert (Hw : In (s, strlen text) (windows text maxChunkSize overlap)).
  { apply windowsFrom_reach_tail; try lia. unfold strlen. lia. }
  split; [exact Hw|]. intros Hlen.
  rewrite chunkTextWithOverlap_emitted. eexists. split; [reflexivity|].
  unfold emitted. apply in_map_iff. exists (s, strlen text).
  split; [reflexivity|]. apply filter_In. split; [exact Hw|].
  now apply Z.ltb_lt.
Qed.

Lemma chunkTextWithOverlap_tail_once_per_character_witness :
  In (5, strlen sampleText) (windows sampleText 800 200) /\
  (50 < strlen (windowText sampleText (5, strlen sampleText)) ->
   exists chunks,
     chunkTextWithOverlap sampleText 800 200 = Some chunks /\
     In (mkChunk (windowText sampleText (5, strlen sampleText)) 5
           (strlen sampleText)) chunks).
Proof.
  apply (chunkTextWithOverlap_tail_once_per_character sampleText 800 200 5).
  - lia.
  - lia.
  - split; vm_compute; [discriminate | reflexivity].
Defined.

(** ** Text similarity *)

Lemma toSet_NoDup (words : list string) : NoDup (ResultRanker.toSet words).
Proof. unfold ResultRanker.toSet. apply NoDup_rev, NoDup_nodup. Qed.

Lemma toSet_In (x : string) (words : list string) :
  In x (ResultRanker.toSet words) <-> In x words.
Proof.
  unfold ResultRanker.toSet. rewrite <- in_rev, nodup_In, <- in_rev.
  reflexivity.
Qed.

Lemma toSet_fixed (words : list string) :
  NoDup words -> ResultRanker.toSet words = words.
Proof.
  intros H. unfold ResultRanker.toSet.
  rewrite nodup_fixed_point by now apply NoDup_rev.
  apply rev_involutive.
Qed.

Lemma toSet_nil (words : list string) :
  ResultRanker.toSet words = [] <-> words = [].
Proof.
  split; [|now intros ->].
  intros H. destruct words as [|w words]; [reflexivity|].
  assert (Hin : In w (ResultRanker.toSet (w :: words)))
    by (apply toSet_In; now left).
  rewrite H in Hin. contradiction.
Qed.

Lemma same_members_same_size (a b : list string) :
  NoDup a -> NoDup b -> (forall x, In x a <-> In x b) ->
  List.length a = List.length b.
Proof.
  intros Ha Hb H. apply Nat.le_antisymm; apply NoDup_incl_length;
    try assumption; intros x Hx; now apply H.
Qed.

Lemma div_ofNat (a b : nat) :
  (0 < b)%nat ->
  div (ofNat a) (ofNat b) = Fin (inject_Z (Z.of_nat a) / inject_Z (Z.of_nat b)).
Proof.
  intros Hb. unfold div, ofNat, ofZ, Qsgn.
  destruct (inject_Z (Z.of_nat b) ?= 0)%Q eqn:E; try reflexivity.
  apply Qeq_alt in E. unfold Qeq in E. simpl in E. lia.
Qed.

Lemma ratio_in_unit (a b : nat) :
  (a <= b)%nat -> (0 < b)%nat ->
  (0 <= inject_Z (Z.of_nat a) / inject_Z (Z.of_nat b) <= 1)%Q.
Proof.
  intros Hab Hb.
  assert (Hpos : (0 < inject_Z (Z.of_nat b))%Q).
  { unfold Qlt. simpl. lia. }
  split.
  - apply Qle_shift_div_l; [exact Hpos|]. rewrite Qmult_0_l.
    change 0%Q with (inject_Z 0). rewrite <- Zle_Qle. lia.
  - apply Qle_shift_div_r; [exact Hpos|]. rewrite Qmult_1_l.
    rewrite <- Zle_Qle. lia.
Qed.

(** X23: [calculateTextSimilarity] is NaN exactly when neither text has a
    word; otherwise it is a number from 0 to 1. *)
Theorem calculateTextSimilarity_unit_or_NaN :
  forall text1 text2 : string,
    (ResultRanker.calculateTextSimilarity text1 text2 = NaN <->
     wordRuns (toLowerCase text1) = [] /\ wordRuns (toLowerCase text2) = []) /\
    (ResultRanker.calculateTextSimilarity text1 text2 = NaN \/
     exists q, ResultRanker.calculateTextSimilarity text1 text2 = Fin q /\
               (0 <= q <= 1)%Q).
Proof.
  intros text1 text2. unfold ResultRanker.calculateTextSimilarity.
  set (words1 := ResultRanker.toSet (wordRuns (toLowerCase text1))).
  set (words2 := ResultRanker.toSet (wordRuns (toLowerCase text2))).
  set (inter := ResultRanker.toSet
                  (filter (fun x => ResultRanker.Set_has x words2) words1)).
  set (union := ResultRanker.toSet (words1 ++ words2)).
  assert (Hle : (List.length inter <= List.length union)%nat).
  { apply NoDup_incl_length; [apply toSet_NoDup|].
    intros x Hx. unfold inter in Hx. rewrite toSet_In, filter_In in Hx.
    unfold union. rewrite toSet_In, in_app_iff. now left. }
  destruct (List.length union) as [|n] eqn:U.
  - assert (Hu : words1 ++ words2 = []).
    { apply toSet_nil. now apply length_zero_iff_nil. }
    apply app_eq_nil in Hu as [H1 H2].
    apply (proj1 (toSet_nil _)) in H1, H2.
    replace (List.length inter) with 0%nat by lia.
    split; [|now left]. split; [now intros _ | reflexivity].
  - rewrite div_ofNat by lia. split.
    + split; [discriminate|]. intros [H1 H2].
      assert (Hu : union = []).
      { unfold union, words1, words2. now rewrite H1, H2. }
      now rewrite Hu in U.
    + right. eexists. split; [reflexivity|]. apply ratio_in_unit; lia.
Qed.

(** X24: [calculateTextSimilarity] does not depend on the order of its two
    texts, and a text that has a word is at similarity 1 to itself. *)
Theorem calculateTextSimilarity_symmetric :
  forall text1 text2 : string,
    ResultRanker.calculateTextSimilarity text1 text2
    = ResultRanker.calculateTextSimilarity text2 text1 /\
    (wordRuns (toLowerCase text1) <> [] ->
     numEq (ResultRanker.calculateTextSimilarity text1 text1) one).
Proof.
  intros text1 text2. unfold ResultRanker.calculateTextSimilarity.
  set (words1 := ResultRanker.toSet (wordRuns (toLowerCase text1))).
  set (words2 := ResultRanker.toSet (wordRuns (toLowerCase text2))).
  assert (N1 : NoDup words1) by apply toSet_NoDup.
  assert (N2 : NoDup words2) by apply toSet_NoDup.
  split.
  - f_equal; f_equal.
    + apply same_members_same_size; try apply toSet_NoDup.
      intros x. rewrite !toSet_In, !filter_In, !Set_has_In. tauto.
    + apply same_members_same_size; try apply toSet_NoDup.
      intros x. rewrite !toSet_In, !in_app_iff. tauto.
  - intros Hword.
    assert (Hi : List.length
                   (ResultRanker.toSet
                      (filter (fun x => ResultRanker.Set_has x words1) words1))
                 = List.length words1).
    { apply same_members_same_size; [apply toSet_NoDup | exact N1 |].
      intros x. rewrite toSet_In, filter_In, Set_has_In. tauto. }
    assert (Hu : List.length (ResultRanker.toSet (words1 ++ words1))
                 = List.length words1).
    { apply same_members_same_size; [apply toSet_NoDup | exact N1 |].
      intros x. rewrite toSet_In, in_app_iff. tauto. }
    rewrite Hi, Hu.
    assert (Hpos : (0 < List.length words1)%nat).
    { destruct words1 as [|w ws] eqn:W; [|simpl; lia].
      apply (proj1 (toSet_nil _)) in W. contradiction. }
    rewrite div_ofNat by exact Hpos. unfold numEq, one.
    apply Qmult_inv_r. unfold Qeq. simpl. lia.
Qed.

Lemma calculateTextSimilarity_symmetric_witness :
  ResultRanker.calculateTextSimilarity (content fourWords) (content fiveWords)
  = ResultRanker.calculateTextSimilarity (content fiveWords) (content fourWords)
  /\ numEq (ResultRanker.calculateTextSimilarity (content fourWords)
              (content fourWords)) one.
Proof.
  destruct (calculateTextSimilarity_symmetric (content fourWords)
              (content fiveWords)) as [Hs Hone].
  split; [exact Hs|]. apply Hone. vm_compute. discriminate.
Defined.

(** ** Sentence chunks *)

Example chunkBySentences_two_sentences :
  matchSentences "...Hello world. How are you?! Fine" =
    ["Hello world."; " How are you?!"] /\
  chunkBySentences "Hello world. How are you? Fine" 20 1 =
    [mkSentenceChunk "Hello world." 0 12 1;
     mkSentenceChunk "Hello world. How are you?" 12 37 2] /\
  chunkBySentences "" 20 1 = [mkSentenceChunk "" 0 0 1].
Proof. repeat split; reflexivity. Qed.

Lemma last_default {A} (l : list A) (x d d' : A) :
  List.last (x :: l) d = List.last (x :: l) d'.
Proof.
  revert x. induction l as [|y l IH]; intros x; [reflexivity|].
  change (List.last (y :: l) d = List.last (y :: l) d'). apply IH.
Qed.

Lemma lastEnd_cons (from : Z) (d : SentenceChunk)
    (chunks : list SentenceChunk) :
  lastEnd from (d :: chunks) = lastEnd (s_end d) chunks.
Proof.
  unfold lastEnd. cbn [map].
  destruct (map s_end chunks) as [|x ends]; [reflexivity|].
  change (List.last (x :: ends) from = List.last (x :: ends) (s_end d)).
  apply last_default.
Qed.

Lemma chained_app (chunks : list SentenceChunk) (c : SentenceChunk) :
  forall from,
    chained from chunks ->
    s_start c = lastEnd from chunks ->
    s_end c = lastEnd from chunks + strlen (s_text c) ->
    1 <= s_sentenceCount c ->
    chained from (chunks ++ [c]).
Proof.
  induction chunks as [|d chunks IH]; intros from H Hs He Hc.
  - cbn in *. repeat split; assumption.
  - destruct H as (H1 & H2 & H3 & H4). cbn [app chained].
    rewrite lastEnd_cons in Hs, He.
    repeat split; try assumption. now apply IH.
Qed.

Lemma previousEnd_lastEnd (chunks : list SentenceChunk) :
  option_map s_end (List.last (map Some chunks) None)
  = match chunks with [] => None | _ => Some (lastEnd 0 chunks) end.
Proof.
  destruct chunks as [|c chunks]; [reflexivity|].
  revert c. induction chunks as [|d chunks IH]; intros c; [reflexivity|].
  specialize (IH d). cbn [map List.last] in *. rewrite IH.
  unfold lastEnd. cbn [map List.last]. reflexivity.
Qed.

Lemma pushSentences_chained (chunks : list SentenceChunk)
    (currentChunk : list string) :
  chained 0 chunks -> currentChunk <> [] ->
  chained 0 (pushSentences chunks currentChunk).
Proof.
  intros H Hne. unfold pushSentences. rewrite previousEnd_lastEnd.
  apply chained_app; [exact H| | |]; cbn.
  - destruct chunks; reflexivity.
  - destruct chunks; reflexivity.
  - destruct currentChunk; [contradiction|]. cbn [List.length]. lia.
Qed.

Lemma sentenceStep_inv (maxChunkSize overlapSentences : Z)
    (chunks : list SentenceChunk) (currentChunk : list string)
    (currentLength : Z) (raw : string) :
  chained 0 chunks ->
  exists chunks' currentChunk' currentLength',
    sentenceStep maxChunkSize overlapSentences
      (chunks, currentChunk, currentLength) raw
    = (chunks', currentChunk', currentLength') /\
    chained 0 chunks' /\ currentChunk' <> [].
Proof.
  intros H. unfold sentenceStep.
  destruct ((currentLength + strlen (trim raw) >? maxChunkSize)
            && (Z.of_nat (List.length currentChunk) >? 0))%bool eqn:E.
  - eexists _, _, _. split; [reflexivity|]. split.
    + apply pushSentences_chained; [exact H|].
      apply andb_prop in E as [_ E]. apply Z.gtb_lt in E.
      intros ->. cbn in E. lia.
    + intros Hnil. now apply app_eq_nil in Hnil as [_ Hnil].
  - eexists _, _, _. split; [reflexivity|]. split; [exact H|].
    intros Hnil. now apply app_eq_nil in Hnil as [_ Hnil].
Qed.

Lemma sentenceLoop_inv (maxChunkSize overlapSentences : Z) :
  forall (sentences : list string) (chunks : list SentenceChunk)
         (currentChunk : list string) (currentLength : Z),
    chained 0 chunks ->
    (sentences = [] -> currentChunk <> []) ->
    exists chunks' currentChunk' currentLength',
      fold_left (sentenceStep maxChunkSize overlapSentences) sentences
        (chunks, currentChunk, currentLength)
      = (chunks', currentChunk', currentLength') /\
      chained 0 chunks' /\ currentChunk' <> [].
Proof.
  induction sentences as [|raw sentences IH];
    intros chunks currentChunk currentLength H Hne.
  - eexists _, _, _. split; [reflexivity|]. split; [exact H | now apply Hne].
  - cbn [fold_left].
    destruct (sentenceStep_inv maxChunkSize overlapSentences chunks
                currentChunk currentLength raw H)
      as (chunks1 & current1 & length1 & -> & H1 & Hne1).
    apply IH; [exact H1 | now intros _].
Qed.

Lemma sentencesOf_not_nil (text : string) : sentencesOf text <> [].
Proof.
  unfold sentencesOf. destruct (matchSentences text); discriminate.
Qed.

(** X25: [chunkBySentences] never returns an empty array, and the offsets of
    its chunks are running totals of the lengths of the chunk texts: the
    first chunk starts at 0, every chunk ends the length of its text after
    its start, the next chunk starts there; every chunk counts at least
    one sentence. *)
Theorem chunkBySentences_offsets_are_running_lengths :
  forall (text : string) (maxChunkSize overlapSentences : Z),
    chunkBySentences text maxChunkSize overlapSentences <> [] /\
    chained 0 (chunkBySentences text maxChunkSize overlapSentences).
Proof.
  intros text maxChunkSize overlapSentences. unfold chunkBySentences.
  destruct (sentenceLoop_inv maxChunkSize overlapSentences
              (sentencesOf text) [] [] 0 I)
    as (chunks & currentChunk & currentLength & -> & H & Hne).
  { intros Hnil. now apply sentencesOf_not_nil in Hnil. }
  destruct currentChunk as [|s currentChunk]; [contradiction|].
  cbn [List.length].
  replace (Z.of_nat (S (List.length currentChunk)) >? 0) with true
    by (symmetry; apply Z.gtb_lt; lia).
  split.
  - unfold pushSentences. intros Hnil.
    now apply app_eq_nil in Hnil as [_ Hnil].
  - now apply pushSentences_chained.
Qed.

Lemma chars_append (s1 s2 : string) :
  chars (s1 ++ s2)%string = chars s1 ++ chars s2.
Proof.
  unfold chars. induction s1 as [|c s1 IH]; cbn; [reflexivity|].
  now rewrite IH.
Qed.

Lemma matchSentencesFrom_tail (tail : list ascii) :
  forallb (fun c => negb (isTerminator c)) tail = true ->
  forall body marks,
    matchSentencesFrom tail body marks = matchSentencesFrom [] body marks.
Proof.
  induction tail as [|c tail IH]; intros H body marks; [reflexivity|].
  cbn [forallb] in H. apply andb_prop in H as [Hc H].
  apply negb_true_iff in Hc. cbn [matchSentencesFrom]. rewrite Hc.
  destruct marks as [|m marks]; rewrite (IH H); reflexivity.
Qed.

Lemma matchSentencesFrom_app (tail : list ascii) :
  forallb (fun c => negb (isTerminator c)) tail = true ->
  forall s body marks,
    matchSentencesFrom (s ++ tail) body marks = matchSentencesFrom s body marks.
Proof.
  intros H. induction s as [|c s IH]; intros body marks.
  - now apply matchSentencesFrom_tail.
  - cbn [app matchSentencesFrom].
    destruct (isTerminator c), body, marks; now rewrite ?IH.
Qed.

(** X26: What follows the last terminator is left out.  Appending characters
    other than [.], [!] and [?] to a text in which the pattern matches
    changes nothing in the result of [chunkBySentences]. *)
Theorem chunkBySentences_drops_unterminated_tail :
  forall (text tail : string) (maxChunkSize overlapSentences : Z),
    matchSentences text <> [] ->
    unterminated tail ->
    chunkBySentences (text ++ tail) maxChunkSize overlapSentences
    = chunkBySentences text maxChunkSize overlapSentences.
Proof.
  intros text tail maxChunkSize overlapSentences Hmatch Htail.
  assert (Hsame : matchSentences (text ++ tail) = matchSentences text).
  { unfold matchSentences. rewrite chars_append.
    now apply matchSentencesFrom_app. }
  unfold chunkBySentences, sentencesOf. rewrite Hsame.
  destruct (matchSentences text); [contradiction|reflexivity].
Qed.

Lemma chunkBySentences_drops_unterminated_tail_witness :
  chunkBySentences ("Hello world. How are you?" ++ " Fine, thanks") 20 1
  = chunkBySentences "Hello world. How are you?" 20 1.
Proof.
  apply (chunkBySentences_drops_unterminated_tail
           "Hello world. How are you?" " Fine, thanks" 20 1).
  - vm_compute. discriminate.
  - reflexivity.
Defined.

Lemma min2_ofNat (a b : nat) :
  min2 (ofNat a) (ofNat b) = ofNat (Nat.min a b).
Proof.
  unfold min2, ofNat, ofZ, ltb.
  destruct (Qltb (inject_Z (Z.of_nat b)) (inject_Z (Z.of_nat a))) eqn:E.
  - apply Qltb_true in E. rewrite <- Zlt_Qlt in E.
    now rewrite Nat.min_r by lia.
  - apply Qltb_false in E. rewrite <- Zle_Qle in E.
    now rewrite Nat.min_l by lia.
Qed.

Lemma splitNonWordFrom_not_nil (s cur : list ascii) (afterSep : bool) :
  splitNonWordFrom s cur afterSep <> [].
Proof.
  revert cur afterSep. induction s as [|c s IH]; intros cur afterSep;
    cbn [splitNonWordFrom]; [discriminate|].
  destruct (isWordChar c); [apply IH|].
  destruct afterSep; [apply IH | discriminate].
Qed.

Lemma wordOverlap_unit (sentence1 sentence2 : string) :
  exists q, wordOverlap sentence1 sentence2 = Fin q /\ (0 <= q <= 1)%Q.
Proof.
  unfold wordOverlap.
  set (words1 := ResultRanker.toSet (splitNonWord (toLowerCase sentence1))).
  set (words2 := ResultRanker.toSet (splitNonWord (toLowerCase sentence2))).
  set (inter := ResultRanker.toSet
                  (filter (fun x => ResultRanker.Set_has x words2) words1)).
  rewrite min2_ofNat.
  assert (H1 : (List.length inter <= List.length words1)%nat).
  { apply NoDup_incl_length; [apply toSet_NoDup|].
    intros x Hx. unfold inter in Hx. rewrite toSet_In, filter_In in Hx.
    tauto. }
  assert (H2 : (List.length inter <= List.length words2)%nat).
  { apply NoDup_incl_length; [apply toSet_NoDup|].
    intros x Hx. unfold inter in Hx.
    rewrite toSet_In, filter_In, Set_has_In in Hx. tauto. }
  assert (P1 : (0 < List.length words1)%nat).
  { destruct words1 eqn:W; [|cbn; lia].
    apply (proj1 (toSet_nil _)) in W.
    now apply splitNonWordFrom_not_nil in W. }
  assert (P2 : (0 < List.length words2)%nat).
  { destruct words2 eqn:W; [|cbn; lia].
    apply (proj1 (toSet_nil _)) in W.
    now apply splitNonWordFrom_not_nil in W. }
  rewrite div_ofNat by lia.
  eexists. split; [reflexivity|]. apply ratio_in_unit; lia.
Qed.

Lemma coherenceLoop_bound :
  forall (sentences : list string) (t : Q) (k : nat),
    (0 <= t <= inject_Z (Z.of_nat k))%Q ->
    exists r,
      coherenceLoop sentences (Fin t) = Fin r /\
      (0 <= r <= inject_Z (Z.of_nat (k + (List.length sentences - 1))))%Q.
Proof.
  induction sentences as [|s1 rest IH]; intros t k Ht.
  - exists t. split; [reflexivity|]. cbn. now rewrite Nat.add_0_r.
  - destruct rest as [|s2 rest'].
    + exists t. split; [reflexivity|]. cbn. now rewrite Nat.add_0_r.
    + cbn [coherenceLoop].
      destruct (wordOverlap_unit s1 s2) as [q [-> Hq]]. cbn [add].
      destruct (IH (t + q)%Q (S k)) as [r [Hr Hb]].
      { rewrite Nat2Z.inj_succ. unfold Z.succ. rewrite inject_Z_plus.
        change (inject_Z 1) with 1%Q. lra. }
      exists r. split; [exact Hr|].
      replace (k + (List.length (s1 :: s2 :: rest') - 1))%nat
        with (S k + (List.length (s2 :: rest') - 1))%nat
        by (cbn [List.length]; lia).
      exact Hb.
Qed.

(** X27: [calculateCoherence] is a number from 0 to 1 for every list of
    sentences, and 1 for fewer than two. *)
Theorem calculateCoherence_in_unit :
  forall sentences : list string,
    (exists q, calculateCoherence sentences = Fin q /\ (0 <= q <= 1)%Q) /\
    ((List.length sentences < 2)%nat -> calculateCoherence sentences = one).
Proof.
  intros sentences. unfold calculateCoherence.
  destruct (Z.of_nat (List.length sentences) <? 2) eqn:E.
  - split; [|reflexivity]. exists 1%Q. split; [reflexivity | lra].
  - apply Z.ltb_ge in E. split; [|lia].
    change zero with (Fin 0).
    destruct (coherenceLoop_bound sentences 0 0) as [r [-> Hr]].
    { change (inject_Z (Z.of_nat 0)) with 0%Q. lra. }
    cbn [Nat.add] in Hr.
    set (n := (List.length sentences - 1)%nat) in *.
    replace (Z.of_nat (List.length sentences) - 1) with (Z.of_nat n)
      by (unfold n; lia).
    assert (Hpos : (0 < inject_Z (Z.of_nat n))%Q).
    { change 0%Q with (inject_Z 0). rewrite <- Zlt_Qlt. unfold n. lia. }
    unfold div, ofZ, Qsgn. rewrite (proj1 (Qgt_alt _ _) Hpos).
    eexists. split; [reflexivity|]. split.
    + apply Qle_shift_div_l; [exact Hpos|]. rewrite Qmult_0_l. tauto.
    + apply Qle_shift_div_r; [exact Hpos|]. rewrite Qmult_1_l. tauto.
Qed.

Lemma calculateCoherence_in_unit_witness :
  calculateCoherence ["Alone."] = one.
Proof.
  apply (proj2 (calculateCoherence_in_unit ["Alone."])). cbn. lia.
Defined.
